(** * Semantic analysis of the Glint front-end of LCC: a shallow embedding

    The definitions below transcribe the parts of [lib/glint/sema.cc] that
    the properties at the end of each module are about.  C++ objects that the
    analyser mutates in place are rendered by explicit state passing; fatal
    paths ([LCC_ASSERT], [Diag::ICE], [LCC_TODO], [std::exit]) are rendered as
    an outcome of their own, so that "the analyser continues" and "the
    analyser aborts" are different results. *)

From Stdlib Require Import ZArith NArith Lia List String Ascii Bool.
From Stdlib.Strings Require Import Byte.
From stdpp Require Import base list strings.
Import ListNotations.
Open Scope nat_scope.

(** ** Optimal string alignment distance ([sema.cc], lines 2020-2071) *)

Module OSA.

(** [size_t] arithmetic on the 64-bit hosts the compiler runs on. *)
Definition size_t_add (a b : N) : N := ((a + b) mod 2 ^ 64)%N.

(** [ref(i, j)] is [d[(i * n) + j]]: the row stride is [n], not [n + 1]. *)
Definition ref_index (n i j : nat) : nat := (i * n) + j.

Definition ref (n : nat) (d : list N) (i j : nat) : N :=
  default 0%N (d !! ref_index n i j).

Definition set_ref (n : nat) (d : list N) (i j : nat) (v : N) : list N :=
  <[ref_index n i j := v]> d.

(** [for (size_t i = 0; i <= m; ++i) ref(i, 0) = i;] *)
Definition init_first_column (m n : nat) (d : list N) : list N :=
  fold_left (fun d i => set_ref n d i 0 (N.of_nat i)) (seq 0 (S m)) d.

(** [for (size_t j = 0; j <= n; ++j) ref(0, j) = j;] *)
Definition init_first_row (n : nat) (d : list N) : list N :=
  fold_left (fun d j => set_ref n d 0 j (N.of_nat j)) (seq 0 (S n)) d.

(** [std::min] over an initializer list of three, resp. two, values. *)
Definition min3 (a b c : N) : N := N.min a (N.min b c).

(** [s.at(i)]: the character at index [i]; the accesses of the loop body are
    all in range. *)
Definition at_ (s : string) (i : nat) : option ascii := String.get i s.

(** Body of the inner loop, for the cell [(i, j)]. *)
Definition cell (s t : string) (n : nat) (d : list N) (j i : nat) : list N :=
  let j_i := j - 1 in
  let i_i := i - 1 in
  (* SUBSTITUTION CHECK *)
  let cost : N := if decide (at_ s i_i <> at_ t j_i) then 1%N else 0%N in
  let d :=
    set_ref n d i j
      (min3 (size_t_add (ref n d (i - 1) j) 1)
            (size_t_add (ref n d i (j - 1)) 1)
            (size_t_add (ref n d (i - 1) (j - 1)) cost)) in
  (* TRANSPOSITION CHECK *)
  if (1 <? i) && (1 <? j)
     && bool_decide (at_ s i_i = at_ t (j_i - 1))
     && bool_decide (at_ s (i_i - 1) = at_ t j_i)
  then set_ref n d i j (N.min (ref n d i j) (size_t_add (ref n d (i - 2) (j - 2)) 1))
  else d.

(** [for (size_t i = 1; i <= m; ++i) ...] at a fixed column [j]. *)
Definition column (s t : string) (m n : nat) (d : list N) (j : nat) : list N :=
  fold_left (fun d i => cell s t n d j i) (seq 1 m) d.

(** [for (size_t j = 1; j <= n; ++j) ...]. *)
Definition fill (s t : string) (m n : nat) (d : list N) : list N :=
  fold_left (column s t m n) (seq 1 n) d.

Definition optimal_string_alignment_distance (s t : string) : N :=
  let m := String.length s in
  let n := String.length t in
  (* calloc((m + 1) * (n + 1), sizeof(size_t)) *)
  let d := replicate ((m + 1) * (n + 1)) 0%N in
  let d := init_first_column m n d in
  let d := init_first_row n d in
  let d := fill s t m n d in
  ref n d m n.

End OSA.

(** ** Sema states, locations and diagnostics *)

(** [SemaNode::State]. *)
Inductive State := NotAnalysed | InProgress | Errored | Done | NoLongerViable.

Definition State_eqb (a b : State) : bool :=
  match a, b with
  | NotAnalysed, NotAnalysed | InProgress, InProgress | Errored, Errored
  | Done, Done | NoLongerViable, NoLongerViable => true
  | _, _ => false
  end.

(** [lcc::Location] ([include/lcc/location.hh]). *)
Record Location := { pos : N; len : N; file_id : N }.

Definition no_location : Location := {| pos := 0; len := 0; file_id := 0 |}.

(** [Diag::Kind] ([include/lcc/diags.hh]). *)
Inductive DiagKind := DNone | DNote | DWarning | DError | DFError | DICError.

(** A diagnostic as issued: kind, location and the format string of the
    message (the formatted arguments are not recorded). *)
Record Diag := { kind : DiagKind; where_ : Location; msg : string }.

Definition is_error (d : Diag) : bool :=
  match kind d with DError => true | _ => false end.

Definition is_warning (d : Diag) : bool :=
  match kind d with DWarning => true | _ => false end.

(** ** Types and expressions

    Modelled from the spec: the [Type] and the [Expr] hierarchies of
    [glint/ast.hh], which is not among the sources, with the fields [sema.cc]
    reads and writes.  The variants are those of the data model; every node
    carries its sema state.  A struct member is its name, its type and its
    byte offset; the enumerators of an enum are [EnumeratorDecl]s of the
    arena, held by address; an array holds its size expression and a
    dynamic array its initial size expression, if any, so that types and
    expressions refer to each other. *)

Inductive BuiltinKind := BUnknown | BBool | BByte | BInt | BUInt | BVoid | BOverloadSet.

Inductive FFIKind :=
  CChar | CSChar | CUChar | CShort | CUShort | CInt | CUInt
| CLong | CULong | CLongLong | CULongLong.

Inductive FuncAttr :=
  AConst | ADiscardable | AInline | ANoInline | ANoMangle | ANoReturn
| APure | AReturnsTwice | AUsed.

Definition FuncAttr_eqb (a b : FuncAttr) : bool :=
  match a, b with
  | AConst, AConst | ADiscardable, ADiscardable | AInline, AInline
  | ANoInline, ANoInline | ANoMangle, ANoMangle | ANoReturn, ANoReturn
  | APure, APure | AReturnsTwice, AReturnsTwice | AUsed, AUsed => true
  | _, _ => false
  end.

(** The scope an enum declares its enumerators in, and the declaration the
    enum is associated with, if any. *)
Record EnumInfo := { enum_scope : nat; enum_decl : option nat }.

(** What every type node carries: its sema state and its location. *)
Record TyInfo := { t_sema : State; t_loc : Location }.

Definition analysed : TyInfo := {| t_sema := Done; t_loc := no_location |}.

Inductive CastKind :=
  SoftCast | HardCast | ImplicitCast | LValueToRValueConv | LValueToReference | ReferenceToLValue.

Inductive TokenKind :=
  TAmpersand | TAt | TMinus | TTilde | TExclam | THas | TAnd | TOr | TLBrack
| TStar | TSlash | TPercent | TPlus | TShl | TShr | TPipe | TCaret
| TEq | TNe | TLt | TGt | TLe | TGe | TColonEq.

Inductive IntrinsicKind :=
  BuiltinDebugtrap | BuiltinFilename | BuiltinInline | BuiltinLine
| BuiltinMemCopy | BuiltinMemSet | BuiltinSyscall.

(** [EvalResult]: an integer is its 64-bit pattern, [0 <= v < 2^64]. *)
Inductive EvalResult := ResInt (v : Z) | ResString (s : string) | ResNull.

(** What every expression node carries: its type, lvalue flag, sema state
    and location. *)
Record Attrs_ (T : Type) := { ty : T; lvalue : bool; sema : State; loc : Location }.
Arguments Build_Attrs_ {T} _ _ _ _.
Arguments ty {T} _.
Arguments lvalue {T} _.
Arguments sema {T} _.
Arguments loc {T} _.

(** Declarations are shared between the tree, the scopes and the name
    references that target them, and the analyser mutates them through any
    of these pointers: they live in the module's arena and the tree holds
    their address.  A compound literal may come without a type ([typed] is
    [false] when [c->type()] is null); a module expression refers to a
    module, of which the analyser reads the global scope. *)
#[warnings="-register-all"]
Inductive Ty :=
| Builtin (k : BuiltinKind)
| FFIType (k : FFIKind)
| Integer (st : TyInfo) (is_signed : bool) (bit_width : N)
| Named (st : TyInfo) (name : string) (scope : nat)
| Pointer (st : TyInfo) (elem : Ty)
| Reference (st : TyInfo) (elem : Ty)
| Array (st : TyInfo) (elem : Ty) (size : Expr)
| DynamicArray (st : TyInfo) (elem : Ty) (initial_size : option Expr)
| Struct (st : TyInfo) (members : list (string * Ty * N)) (byte_size alignment : N)
| Union (st : TyInfo) (members : list (string * Ty)) (byte_size alignment : N)
| Sum (st : TyInfo) (members : list (string * Ty)) (byte_size alignment : N)
| Enum (st : TyInfo) (underlying : Ty) (enumerators : list nat) (info : EnumInfo)
| Function (st : TyInfo) (ret : Ty) (params : list (string * Ty * Location))
           (attrs : list FuncAttr)
with Expr :=
| WhileExpr (a : Attrs_ Ty) (condition body : Expr)
| ForExpr (a : Attrs_ Ty) (init condition increment body : Expr)
| ReturnExpr (a : Attrs_ Ty) (value : option Expr)
| Decl (addr : nat)
| IntegerLiteral (a : Attrs_ Ty) (value : Z)
| StringLiteral (a : Attrs_ Ty) (value : string)
| OverloadSet (a : Attrs_ Ty) (overloads : list nat)
| NameRefExpr (a : Attrs_ Ty) (name : string) (scope : nat) (target : option Expr)
| ModuleExpr (a : Attrs_ Ty) (global_scope : nat)
| TypeExpr (a : Attrs_ Ty)
| SizeofExpr (a : Attrs_ Ty) (expr : Expr)
| AlignofExpr (a : Attrs_ Ty) (expr : Expr)
| CastExpr (a : Attrs_ Ty) (cast_kind : CastKind) (operand : Expr)
| UnaryExpr (a : Attrs_ Ty) (op : TokenKind) (postfix : bool) (operand : Expr)
| MemberAccessExpr (a : Attrs_ Ty) (object : Expr) (name : string) (member : nat)
| CompoundLiteral (a : Attrs_ Ty) (typed : bool) (values : list Expr)
| BlockExpr (a : Attrs_ Ty) (children : list Expr)
| ConstantExpr (a : Attrs_ Ty) (expr : option Expr) (value : EvalResult)
| BinaryExpr (a : Attrs_ Ty) (op : TokenKind) (lhs rhs : Expr)
| IfExpr (a : Attrs_ Ty) (condition then_ : Expr) (otherwise : option Expr)
| CallExpr (a : Attrs_ Ty) (callee : Expr) (args : list Expr)
| IntrinsicCallExpr (a : Attrs_ Ty) (intrinsic_kind : IntrinsicKind) (args : list Expr).

Definition Attrs : Type := Attrs_ Ty.

Module Type_.

(** Builtin and FFI types are marked as done in their constructor. *)
Definition sema (t : Ty) : State :=
  match t with
  | Builtin _ | FFIType _ => Done
  | Integer st _ _ | Named st _ _ | Pointer st _ | Reference st _
  | Array st _ _ | DynamicArray st _ _ | Struct st _ _ _ | Union st _ _ _
  | Sum st _ _ _ | Enum st _ _ _ | Function st _ _ _ => t_sema st
  end.

Definition location (t : Ty) : Location :=
  match t with
  | Builtin _ | FFIType _ => no_location
  | Integer st _ _ | Named st _ _ | Pointer st _ | Reference st _
  | Array st _ _ | DynamicArray st _ _ | Struct st _ _ _ | Union st _ _ _
  | Sum st _ _ _ | Enum st _ _ _ | Function st _ _ _ => t_loc st
  end.

(** In-place update of the sema state of a type node. *)
Definition set_sema (s : State) (t : Ty) : Ty :=
  let f (i : TyInfo) := {| t_sema := s; t_loc := t_loc i |} in
  match t with
  | Builtin k => Builtin k
  | FFIType k => FFIType k
  | Integer st sg w => Integer (f st) sg w
  | Named st n sc => Named (f st) n sc
  | Pointer st e => Pointer (f st) e
  | Reference st e => Reference (f st) e
  | Array st e n => Array (f st) e n
  | DynamicArray st e n => DynamicArray (f st) e n
  | Struct st ms sz al => Struct (f st) ms sz al
  | Union st ms sz al => Union (f st) ms sz al
  | Sum st ms sz al => Sum (f st) ms sz al
  | Enum st u es i => Enum (f st) u es i
  | Function st r ps attrs => Function (f st) r ps attrs
  end.

Definition sema_done_or_errored (t : Ty) : bool :=
  State_eqb (sema t) Done || State_eqb (sema t) Errored.

Definition ok (t : Ty) : bool := State_eqb (sema t) Done.
Definition sema_errored (t : Ty) : bool := State_eqb (sema t) Errored.

Definition is_builtin (t : Ty) (k : BuiltinKind) : bool :=
  match t, k with
  | Builtin BUnknown, BUnknown | Builtin BBool, BBool | Builtin BByte, BByte
  | Builtin BInt, BInt | Builtin BUInt, BUInt | Builtin BVoid, BVoid
  | Builtin BOverloadSet, BOverloadSet => true
  | _, _ => false
  end.

Definition is_void (t : Ty) : bool := is_builtin t BVoid.
Definition is_bool (t : Ty) : bool := is_builtin t BBool.
Definition is_unknown (t : Ty) : bool := is_builtin t BUnknown.

Definition is_pointer (t : Ty) : bool := match t with Pointer _ _ => true | _ => false end.
Definition is_reference (t : Ty) : bool := match t with Reference _ _ => true | _ => false end.
Definition is_array (t : Ty) : bool := match t with Array _ _ _ => true | _ => false end.
Definition is_dynamic_array (t : Ty) : bool :=
  match t with DynamicArray _ _ _ => true | _ => false end.
Definition is_function (t : Ty) : bool := match t with Function _ _ _ _ => true | _ => false end.
Definition is_enum (t : Ty) : bool := match t with Enum _ _ _ _ => true | _ => false end.
Definition is_sum (t : Ty) : bool := match t with Sum _ _ _ _ => true | _ => false end.

(** [is_integer(include_bool)]: the sized integers, the C integers and the
    builtin integers; [bool] only on request. *)
Definition is_integer (include_bool : bool) (t : Ty) : bool :=
  match t with
  | Integer _ _ _ | FFIType _ => true
  | Builtin BInt | Builtin BUInt | Builtin BByte => true
  | Builtin BBool => include_bool
  | _ => false
  end.

Definition is_unsigned_int (t : Ty) : bool :=
  match t with
  | Integer _ s _ => negb s
  | FFIType (CUChar | CUShort | CUInt | CULong | CULongLong) => true
  | Builtin BUInt | Builtin BByte => true
  | _ => false
  end.

Definition is_signed_int (t : Ty) : bool :=
  is_integer false t && negb (is_unsigned_int t).

(** [elem()]: the element type of a type with one element. *)
Definition elem (t : Ty) : Ty :=
  match t with
  | Pointer _ e | Reference _ e | Array _ e _ | DynamicArray _ e _ => e
  | _ => Builtin BUnknown
  end.

Definition params (t : Ty) : list (string * Ty * Location) :=
  match t with Function _ _ ps _ => ps | _ => [] end.

Definition return_type (t : Ty) : Ty :=
  match t with Function _ r _ _ => r | _ => Builtin BUnknown end.

Definition has_attr (t : Ty) (a : FuncAttr) : bool :=
  match t with Function _ _ _ attrs => existsb (FuncAttr_eqb a) attrs | _ => false end.

(** Modelled from the spec: [ArrayType::dimension()], the constant length
    of an array, which its size expression holds once the array type is
    analysed. *)
Definition dimension (t : Ty) : N :=
  match t with
  | Array _ _ (ConstantExpr _ _ (ResInt v)) => Z.to_N v
  | _ => 0%N
  end.

Fixpoint strip_pointers_and_references (t : Ty) : Ty :=
  match t with
  | Pointer _ e | Reference _ e => strip_pointers_and_references e
  | _ => t
  end.

Definition BuiltinKind_eqb (a b : BuiltinKind) : bool := is_builtin (Builtin a) b.

Definition FFIKind_eqb (a b : FFIKind) : bool :=
  match a, b with
  | CChar, CChar | CSChar, CSChar | CUChar, CUChar | CShort, CShort
  | CUShort, CUShort | CInt, CInt | CUInt, CUInt | CLong, CLong
  | CULong, CULong | CLongLong, CLongLong | CULongLong, CULongLong => true
  | _, _ => false
  end.

(** [Type::Equal]: structural equality, regardless of sema state, of layout
    and of parameter names. *)
Fixpoint Equal (a b : Ty) {struct a} : bool :=
  let fix members_equal (xs ys : list (string * Ty)) {struct xs} : bool :=
    match xs, ys with
    | [], [] => true
    | (n, x) :: xs, (m, y) :: ys => String.eqb n m && Equal x y && members_equal xs ys
    | _, _ => false
    end in
  let fix fields_equal (xs ys : list (string * Ty * N)) {struct xs} : bool :=
    match xs, ys with
    | [], [] => true
    | (n, x, _) :: xs, (m, y, _) :: ys => String.eqb n m && Equal x y && fields_equal xs ys
    | _, _ => false
    end in
  let fix params_equal (xs ys : list (string * Ty * Location)) {struct xs} : bool :=
    match xs, ys with
    | [], [] => true
    | (_, x, _) :: xs, (_, y, _) :: ys => Equal x y && params_equal xs ys
    | _, _ => false
    end in
  match a, b with
  | Builtin k, Builtin k' => BuiltinKind_eqb k k'
  | FFIType k, FFIType k' => FFIKind_eqb k k'
  | Integer _ s w, Integer _ s' w' => Bool.eqb s s' && N.eqb w w'
  | Named _ n _, Named _ n' _ => String.eqb n n'
  | Pointer _ e, Pointer _ e' => Equal e e'
  | Reference _ e, Reference _ e' => Equal e e'
  | Array _ e _, Array _ e' _ => Equal e e' && N.eqb (dimension a) (dimension b)
  | DynamicArray _ e _, DynamicArray _ e' _ => Equal e e'
  | Struct _ ms _ _, Struct _ ms' _ _ => fields_equal ms ms'
  | Union _ ms _ _, Union _ ms' _ _ => members_equal ms ms'
  | Sum _ ms _ _, Sum _ ms' _ _ => members_equal ms ms'
  | Enum _ u ns _, Enum _ u' ns' _ => Equal u u' && bool_decide (ns = ns')
  | Function _ r ps _, Function _ r' ps' _ => Equal r r' && params_equal ps ps'
  | _, _ => false
  end.

Definition Void : Ty := Builtin BVoid.
Definition Bool : Ty := Builtin BBool.
Definition Int : Ty := Builtin BInt.
Definition Byte : Ty := Builtin BByte.
Definition Unknown : Ty := Builtin BUnknown.
Definition OverloadSet : Ty := Builtin BOverloadSet.
Definition VoidPtr : Ty := Pointer analysed Void.

End Type_.

(** The five kinds of declaration: [Expr::Kind::TypeDecl], [TypeAliasDecl],
    [VarDecl], [FuncDecl], [EnumeratorDecl]. *)
Inductive DeclKind := TypeDecl | TypeAliasDecl | VarDecl | FuncDecl | EnumeratorDecl.

Inductive Linkage := LocalVar | Used | Internal | Exported | Imported | Reexported.

(** A declaration object of the arena.  [init] is the initialiser of a
    variable and the body of a function; [dangling_dynarrays], [decl_scope]
    and [param_decls] are those of a [FuncDecl]. *)
Record DeclObj := {
  decl_kind : DeclKind;
  decl_name : string;
  decl_attrs : Attrs;
  linkage : Linkage;
  init : option Expr;
  dangling_dynarrays : list nat;
  decl_scope : nat;
  param_decls : list nat;
}.

(** [Scope]: the symbols declared in it, in declaration order, and its
    parent. *)
Record Scope := { parent : option nat; symbols : list (string * nat) }.

(** What the analyser asks of the context and of the module and never
    changes, computed by code that is not among the sources:
    [seek l] is the name of the file of the location [l] and the line of [l]
    in it when [l.seekable(context)], from [context->files()] and
    [Location::seek_line_column]; [string_literal_type s] is the type of the
    string literal [new (mod) StringLiteral(mod, s, ...)]; and
    [dynamic_array_struct t] is the list of the members of the struct
    [DynamicArrayType::struct_type(mod)] of the dynamic array type [t]. *)
Record Externals := {
  seek : Location -> option (string * Z);
  string_literal_type : string -> Ty;
  dynamic_array_struct : Ty -> list (string * Ty * N);
}.

(** The analyser: [Sema] with the [Context] and [Module] it points to, as
    far as the analysis reads and writes them. *)
Record Sema := {
  error_flag : bool;                  (* Context::error_flag *)
  include_directories : list string;  (* Context::_include_directories *)
  diags : list Diag;                  (* diagnostics issued, oldest first *)
  arena : list DeclObj;               (* declarations, by address *)
  scopes : list Scope;                (* scopes, by address *)
  top_level_scope : nat;              (* mod.top_level_scope() *)
  imports : list (string * Location); (* mod.imports() *)
  functions : list nat;               (* mod.functions(), by address *)
  curr_func : nat;                    (* address of the FuncDecl in analysis *)
  global_scope : nat;                 (* mod.global_scope() *)
  externals : Externals;              (* what the context and the module compute *)
}.

(** Fatal paths: the process ends. *)
Inductive Fatal :=
| AssertFailed (what : string)     (* LCC_ASSERT *)
| ICE (what : string)              (* Diag::ICE *)
| Todo (what : string)             (* LCC_TODO *)
| Unreachable                      (* LCC_UNREACHABLE *)
| NullDereference (what : string)  (* member access through a null pointer *)
| OutOfRange (what : string)       (* vector::at / string::at out of range *)
| Exit (code : N)                  (* std::exit *)
| NotModelled (what : string)      (* an expression kind outside this model *)
| OutOfFuel.

Inductive Outcome (A : Type) := Ok (a : A) | Abort (f : Fatal).
Arguments Ok {A} a.
Arguments Abort {A} f.

Definition M (A : Type) : Type := Sema -> Outcome (A * Sema).

Definition ret {A} (a : A) : M A := fun s => Ok (a, s).

Definition bind {A B} (m : M A) (k : A -> M B) : M B :=
  fun s => match m s with
           | Ok (a, s') => k a s'
           | Abort f => Abort f
           end.

Definition abort {A} (f : Fatal) : M A := fun _ => Abort f.
Definition get : M Sema := fun s => Ok (s, s).
Definition modify (f : Sema -> Sema) : M unit := fun s => Ok (tt, f s).

Declare Scope sema_scope.
Delimit Scope sema_scope with sema.
Notation "x <- m ;; k" := (bind m (fun x => k))
  (at level 100, m at next level, right associativity) : sema_scope.
Notation "m ;;; k" := (bind m (fun _ => k))
  (at level 100, right associativity) : sema_scope.
Open Scope sema_scope.

(** [for (auto& x : xs) body(x)] over a vector whose slots the body may
    replace. *)
Fixpoint mapM {A B} (f : A -> M B) (xs : list A) : M (list B) :=
  match xs with
  | [] => ret []
  | x :: xs => y <- f x ;; ys <- mapM f xs ;; ret (y :: ys)
  end.

Definition when (b : bool) (m : M unit) : M unit := if b then m else ret tt.

(** ** Node accessors *)

Definition default_attrs : Attrs :=
  {| ty := Type_.Unknown; lvalue := false; sema := NotAnalysed; loc := no_location |}.

Definition default_decl : DeclObj :=
  {| decl_kind := VarDecl; decl_name := ""; decl_attrs := default_attrs; linkage := LocalVar;
     init := None; dangling_dynarrays := []; decl_scope := 0; param_decls := [] |}.

Definition decl_at (S : Sema) (addr : nat) : DeclObj := default default_decl (arena S !! addr).

Definition set_ty (t : Ty) (a : Attrs) : Attrs :=
  {| ty := t; lvalue := lvalue a; sema := sema a; loc := loc a |}.
Definition set_lvalue_flag (b : bool) (a : Attrs) : Attrs :=
  {| ty := ty a; lvalue := b; sema := sema a; loc := loc a |}.
Definition set_sema_state (st : State) (a : Attrs) : Attrs :=
  {| ty := ty a; lvalue := lvalue a; sema := st; loc := loc a |}.

(** The attributes of a node; those of a declaration are read from the arena. *)
Definition attrs (S : Sema) (e : Expr) : Attrs :=
  match e with
  | Decl addr => decl_attrs (decl_at S addr)
  | WhileExpr a _ _ | ForExpr a _ _ _ _ | ReturnExpr a _ | IntegerLiteral a _
  | StringLiteral a _ | OverloadSet a _ | NameRefExpr a _ _ _ | ModuleExpr a _
  | TypeExpr a | SizeofExpr a _ | AlignofExpr a _ | CastExpr a _ _
  | UnaryExpr a _ _ _ | MemberAccessExpr a _ _ _ | CompoundLiteral a _ _
  | BlockExpr a _ | ConstantExpr a _ _ | BinaryExpr a _ _ _ | IfExpr a _ _ _
  | CallExpr a _ _ | IntrinsicCallExpr a _ _ => a
  end.

(** In-place update of the attributes of a tree node. *)
Definition map_attrs (f : Attrs -> Attrs) (e : Expr) : Expr :=
  match e with
  | Decl addr => Decl addr
  | WhileExpr a c b => WhileExpr (f a) c b
  | ForExpr a i c n b => ForExpr (f a) i c n b
  | ReturnExpr a v => ReturnExpr (f a) v
  | IntegerLiteral a v => IntegerLiteral (f a) v
  | StringLiteral a v => StringLiteral (f a) v
  | OverloadSet a os => OverloadSet (f a) os
  | NameRefExpr a n s t => NameRefExpr (f a) n s t
  | ModuleExpr a m => ModuleExpr (f a) m
  | TypeExpr a => TypeExpr (f a)
  | SizeofExpr a x => SizeofExpr (f a) x
  | AlignofExpr a x => AlignofExpr (f a) x
  | CastExpr a k x => CastExpr (f a) k x
  | UnaryExpr a o p x => UnaryExpr (f a) o p x
  | MemberAccessExpr a o n m => MemberAccessExpr (f a) o n m
  | CompoundLiteral a t vs => CompoundLiteral (f a) t vs
  | BlockExpr a cs => BlockExpr (f a) cs
  | ConstantExpr a x v => ConstantExpr (f a) x v
  | BinaryExpr a o l r => BinaryExpr (f a) o l r
  | IfExpr a c t o => IfExpr (f a) c t o
  | CallExpr a c xs => CallExpr (f a) c xs
  | IntrinsicCallExpr a k xs => IntrinsicCallExpr (f a) k xs
  end.

Definition set_arena (ar : list DeclObj) (S : Sema) : Sema :=
  {| error_flag := error_flag S; include_directories := include_directories S;
     diags := diags S; arena := ar; scopes := scopes S;
     top_level_scope := top_level_scope S; imports := imports S; functions := functions S;
     curr_func := curr_func S;
     global_scope := global_scope S; externals := externals S |}.

Definition set_scopes (sc : list Scope) (S : Sema) : Sema :=
  {| error_flag := error_flag S; include_directories := include_directories S;
     diags := diags S; arena := arena S; scopes := sc;
     top_level_scope := top_level_scope S; imports := imports S; functions := functions S;
     curr_func := curr_func S;
     global_scope := global_scope S; externals := externals S |}.

Definition set_curr_func (f : nat) (S : Sema) : Sema :=
  {| error_flag := error_flag S; include_directories := include_directories S;
     diags := diags S; arena := arena S; scopes := scopes S;
     top_level_scope := top_level_scope S; imports := imports S; functions := functions S;
     curr_func := f;
     global_scope := global_scope S; externals := externals S |}.

Definition map_decl (f : DeclObj -> DeclObj) (addr : nat) (S : Sema) : Sema :=
  set_arena (<[addr := f (decl_at S addr)]> (arena S)) S.

Definition map_decl_attrs (f : Attrs -> Attrs) (d : DeclObj) : DeclObj :=
  {| decl_kind := decl_kind d; decl_name := decl_name d; decl_attrs := f (decl_attrs d);
     linkage := linkage d; init := init d; dangling_dynarrays := dangling_dynarrays d;
     decl_scope := decl_scope d; param_decls := param_decls d |}.

Definition set_init (i : option Expr) (d : DeclObj) : DeclObj :=
  {| decl_kind := decl_kind d; decl_name := decl_name d; decl_attrs := decl_attrs d;
     linkage := linkage d; init := i; dangling_dynarrays := dangling_dynarrays d;
     decl_scope := decl_scope d; param_decls := param_decls d |}.

Definition set_dangling (l : list nat) (d : DeclObj) : DeclObj :=
  {| decl_kind := decl_kind d; decl_name := decl_name d; decl_attrs := decl_attrs d;
     linkage := linkage d; init := init d; dangling_dynarrays := l;
     decl_scope := decl_scope d; param_decls := param_decls d |}.

Definition set_param_decls (l : list nat) (d : DeclObj) : DeclObj :=
  {| decl_kind := decl_kind d; decl_name := decl_name d; decl_attrs := decl_attrs d;
     linkage := linkage d; init := init d; dangling_dynarrays := dangling_dynarrays d;
     decl_scope := decl_scope d; param_decls := l |}.

(** A setter called on a node: on a tree node it yields the updated node, on
    a declaration it updates the arena. *)
Definition update (f : Attrs -> Attrs) (e : Expr) : M Expr :=
  match e with
  | Decl addr => modify (map_decl (map_decl_attrs f) addr) ;;; ret e
  | _ => ret (map_attrs f e)
  end.

Definition type_of (S : Sema) (e : Expr) : Ty := ty (attrs S e).
Definition is_lvalue (S : Sema) (e : Expr) : bool := lvalue (attrs S e).
Definition sema_of (S : Sema) (e : Expr) : State := sema (attrs S e).
Definition location (S : Sema) (e : Expr) : Location := loc (attrs S e).

(** Modelled from the spec: the [SemaNode] predicates of [glint/ast.hh]. *)
Definition ok (S : Sema) (e : Expr) : bool := State_eqb (sema_of S e) Done.
Definition sema_errored (S : Sema) (e : Expr) : bool := State_eqb (sema_of S e) Errored.
Definition sema_done_or_errored (S : Sema) (e : Expr) : bool :=
  State_eqb (sema_of S e) Done || State_eqb (sema_of S e) Errored.

Definition set_type (t : Ty) : Expr -> M Expr := update (set_ty t).
Definition set_lvalue (b : bool) : Expr -> M Expr := update (set_lvalue_flag b).
Definition set_sema_errored : Expr -> M Expr := update (set_sema_state Errored).
Definition set_sema_done : Expr -> M Expr := update (set_sema_state Done).
Definition set_sema_in_progress : Expr -> M Expr := update (set_sema_state InProgress).
Definition set_sema_no_longer_viable : Expr -> M Expr := update (set_sema_state NoLongerViable).

(** [is<T>(e)]. *)
Definition is_Decl (e : Expr) : bool := match e with Decl _ => true | _ => false end.
Definition is_BlockExpr (e : Expr) : bool := match e with BlockExpr _ _ => true | _ => false end.
Definition is_CallExpr (e : Expr) : bool := match e with CallExpr _ _ _ => true | _ => false end.
Definition is_ReturnExpr (e : Expr) : bool := match e with ReturnExpr _ _ => true | _ => false end.
Definition is_NameRefExpr (e : Expr) : bool :=
  match e with NameRefExpr _ _ _ _ => true | _ => false end.
Definition is_IntegerLiteral (e : Expr) : bool :=
  match e with IntegerLiteral _ _ => true | _ => false end.
Definition is_OverloadSet (e : Expr) : bool :=
  match e with OverloadSet _ _ => true | _ => false end.
Definition is_TypeExpr (e : Expr) : bool := match e with TypeExpr _ => true | _ => false end.
Definition is_MemberAccessExpr (e : Expr) : bool :=
  match e with MemberAccessExpr _ _ _ _ => true | _ => false end.

Definition is_decl_of_kind (S : Sema) (k : DeclKind) (e : Expr) : bool :=
  match e with
  | Decl addr =>
      match decl_kind (decl_at S addr), k with
      | TypeDecl, TypeDecl | TypeAliasDecl, TypeAliasDecl | VarDecl, VarDecl
      | FuncDecl, FuncDecl | EnumeratorDecl, EnumeratorDecl => true
      | _, _ => false
      end
  | _ => false
  end.

(** ** Diagnostics

    Modelled from the spec: [Sema::Error], [Sema::Warning] and [Diag::Note]
    are declared in [glint/sema.hh] and [lcc/diags.hh]; an error sets the
    error flag of the context. *)

Definition issue (d : Diag) (set_flag : bool) (S : Sema) : Sema :=
  {| error_flag := error_flag S || set_flag; include_directories := include_directories S;
     diags := diags S ++ [d]; arena := arena S;
     scopes := scopes S; top_level_scope := top_level_scope S; imports := imports S;
     functions := functions S; curr_func := curr_func S;
     global_scope := global_scope S; externals := externals S |}.

Definition Error (where_ : Location) (msg : string) : M unit :=
  modify (issue {| kind := DError; where_ := where_; msg := msg |} true).

Definition Warning (where_ : Location) (msg : string) : M unit :=
  modify (issue {| kind := DWarning; where_ := where_; msg := msg |} false).

Definition Note (where_ : Location) (msg : string) : M unit :=
  modify (issue {| kind := DNote; where_ := where_; msg := msg |} false).

(** [context->set_error()]. *)
Definition set_error : M unit :=
  modify (fun S => {| error_flag := true; include_directories := include_directories S;
                      diags := diags S; arena := arena S;
                      scopes := scopes S; top_level_scope := top_level_scope S;
                      imports := imports S; functions := functions S; curr_func := curr_func S;
     global_scope := global_scope S; externals := externals S |}).

(** ** The expression analyser ([sema.cc], lines 24-565 and 899-1435)

    [Sema::Analyse] on expressions and its helpers are mutually recursive.
    The helpers are written against the entry point they call back into
    ([Analyse], with [AnalyseType] for [Sema::Analyse] on types); the knot is
    tied by [Sema_Analyse] below.  An expression slot is rendered by taking the
    expression in the slot and returning the expression the slot holds
    afterwards. *)

Fixpoint ref_depth (t : Ty) : nat :=
  match t with Reference _ e => S (ref_depth e) | _ => 0 end.

(** Modelled from the spec: [utils::MaxBitValue] ([lcc/utils.hh], not among
    the sources), the largest value of [bits] bits, [2^bits - 1]. *)
Definition MaxBitValue (bits : N) : Z := 2 ^ Z.of_N bits - 1.

(** Modelled from the spec: [aint::slt], signed comparison of 64-bit
    patterns. *)
Definition as_signed (v : Z) : Z := if (v <? 2 ^ 63)%Z then v else (v - 2 ^ 64)%Z.
Definition slt (v w : Z) : bool := (as_signed v <? w)%Z.

(** The line feed of the messages that span two lines. *)
Definition newline : string := String (Ascii.ascii_of_nat 10) EmptyString.

(** [new (mod) ConstantExpr(...)] of type [t] at [l]: marked as done. *)
Definition constant (t : Ty) (l : Location) (e : option Expr) (v : EvalResult) : Expr :=
  ConstantExpr {| ty := t; lvalue := false; sema := Done; loc := l |} e v.

(** Modelled from the spec: [TypedExpr] ([glint/ast.hh], not among the
    sources).  In the data model every expression carries a type, so that
    [cast<TypedExpr>] succeeds on every expression. *)
Definition is_TypedExpr (e : Expr) : bool := true.

(** Whether the type of the expression is there: it is null only in a
    compound literal without type. *)
Definition has_type (e : Expr) : bool :=
  match e with CompoundLiteral _ typed _ => typed | _ => true end.

Fixpoint pointer_depth (t : Ty) : nat :=
  match t with Pointer _ e => S (pointer_depth e) | _ => 0 end.

(** [rgs::find_if] with [std::distance]: the first element that satisfies
    [p], and its index. *)
Fixpoint find_index {A} (p : A -> bool) (xs : list A) (i : nat) : option (nat * A) :=
  match xs with
  | [] => None
  | x :: xs => if p x then Some (i, x) else find_index p xs (S i)
  end.

Section Analyser.

(** [Sema::Analyse] on an expression slot, with the expected type. *)
Variable Analyse : Expr -> option Ty -> M Expr.
(** [Sema::Analyse] on a type slot. *)
Variable AnalyseType : Ty -> M Ty.
(** [Expr::evaluate(context, res, false)], the constant evaluator of
    [glint/eval.cc], and [Type::size(context)], [Type::align(context)], in
    bits; none of them is among the sources. *)
Variable evaluate : Sema -> Expr -> option EvalResult.
Variable size : Ty -> N.
Variable align : Ty -> N.

Definition as_int (r : EvalResult) : M Z :=
  match r with
  | ResInt v => ret v
  | _ => abort (AssertFailed "EvalResult::as_int")
  end.

(** Lines 554-564. *)
Definition WrapWithCast (e : Expr) (type : Ty) (kind : CastKind) : M Expr :=
  S <- get ;;
  let expr := CastExpr {| ty := type; lvalue := false; sema := NotAnalysed;
                          loc := location S e |} kind e in
  Analyse expr None.

(** Lines 486-488. *)
Definition InsertImplicitCast (e : Expr) (ty : Ty) : M Expr :=
  WrapWithCast e ty ImplicitCast.

(** Lines 490-493. *)
Definition InsertPointerToIntegerCast (operand : Expr) : M Expr :=
  S <- get ;;
  if Type_.is_pointer (type_of S operand)
  then InsertImplicitCast operand Type_.Int
  else ret operand.

(** Lines 495-536.  The recursive call strips one reference per round. *)
Fixpoint LValueToRValue_rounds (rounds : nat) (e : Expr) (strip_ref : bool) : M Expr :=
  S <- get ;;
  if sema_errored S e then ret e else
  e <- match e with
       | MemberAccessExpr a object name mindex =>
           match ty a with
           | Sum _ members _ _ =>
               match members !! mindex with
               | Some (_, member_type) =>
                   (* m->finalise(s->struct_type(), 1); m->type(...) *)
                   ret (MemberAccessExpr (set_ty member_type a) object name 1)
               | None => abort (OutOfRange "s->members().at(mindex)")
               end
           | _ => ret e
           end
       | _ => ret e
       end ;;
  S <- get ;;
  e <- (if is_lvalue S e
        then WrapWithCast e (type_of S e) LValueToRValueConv
        else ret e) ;;
  S <- get ;;
  if strip_ref && Type_.is_reference (type_of S e) then
    e <- WrapWithCast e (Type_.elem (type_of S e)) ReferenceToLValue ;;
    match rounds with
    | 0 => abort OutOfFuel
    | S rounds => LValueToRValue_rounds rounds e true
    end
  else ret e.

Definition LValueToRValue (e : Expr) (strip_ref : bool) : M Expr :=
  S <- get ;;
  LValueToRValue_rounds (ref_depth (type_of S e)) e strip_ref.

(** Lines 261-282. *)
Definition Deproceduring (e : Expr) : M (bool * Expr) :=
  S <- get ;;
  let expr := e in
  let ty := type_of S expr in
  (* This conversion only applies to functions and function pointers. *)
  if negb (Type_.is_function ty)
     && (negb (Type_.is_pointer ty) || negb (Type_.is_function (Type_.elem ty)))
  then ret (false, e) else
  (* Declarations are never deprocedured automatically. *)
  if is_Decl expr then ret (false, e) else
  (* Block expressions are never deprocedured automatically. *)
  if is_BlockExpr expr then ret (false, e) else
  (* Functions that take arguments are not affected. *)
  let ftype := if Type_.is_function ty then ty else Type_.elem ty in
  if negb (bool_decide (Type_.params ftype = [])) then ret (false, e) else
  (* Otherwise, insert a call. *)
  let call := CallExpr {| ty := Type_.Unknown; lvalue := false; sema := NotAnalysed;
                          loc := location S expr |} expr [] in
  e <- Analyse call None ;;
  ret (true, e).

Definition TypesContainErrors : Z := (-2)%Z.
Definition ConversionImpossible : Z := (-1)%Z.
Definition NoOp : Z := 0%Z.

(** Lines 37-232.  [from] is the macro of the source that dereferences the
    slot: the type is read again from the slot at every use. *)
Definition ConvertImpl (PerformConversion : bool) (e : Expr) (to : Ty) : M (Z * Expr) :=
  let from (S : Sema) (e : Expr) := type_of S e in
  let perform (e : Expr) (m : M Expr) : M Expr := if PerformConversion then m else ret e in
  S <- get ;;
  (* Cannot convert if the types contain errors. *)
  if Type_.sema_errored (from S e) || Type_.sema_errored to
  then ret (TypesContainErrors, e) else
  (* Any type can be converted to void. *)
  if Type_.is_void to then ret (NoOp, e) else
  (* Any type can be converted to itself. *)
  if Type_.Equal (from S e) to then ret (NoOp, e) else
  (* All conversions beside reference binding require lvalue-to-rvalue conversion. *)
  if Type_.is_reference to && Type_.Equal (from S e) (Type_.elem to) then
    if is_lvalue S e then
      e <- perform e (WrapWithCast e to LValueToReference) ;;
      ret (NoOp, e)
    else ret (ConversionImpossible, e)
  else
  (* Lvalue to rvalue conversion is required. *)
  let score := Z.b2z (is_lvalue S e) in
  e <- perform e (LValueToRValue e false) ;;
  S <- get ;;
  (* Get reference-to-reference conversions out of the way early. *)
  if Type_.is_reference (from S e) && Type_.is_reference to then
    if Type_.Equal (from S e) to then ret (NoOp, e) else
    match Type_.elem (from S e) with
    | Array _ element_type _ =>
        if Type_.Equal element_type (Type_.elem to) then
          e <- perform e (InsertImplicitCast e to) ;;
          ret ((1 + score)%Z, e)
        else ret (ConversionImpossible, e)
    | _ => ret (ConversionImpossible, e)
    end
  else
  (* Strip reference from `from` if need be. *)
  let score := (score + Z.b2z (Type_.is_reference (from S e)))%Z in
  e <- (if Type_.is_reference (from S e) then perform e (LValueToRValue e true) else ret e) ;;
  S <- get ;;
  (* Function types can be converted to their corresponding function pointer types. *)
  if Type_.is_function (from S e) && Type_.is_pointer to
     && Type_.Equal (Type_.elem to) (from S e) then
    e <- perform e (InsertImplicitCast e to) ;;
    ret (NoOp, e)
  else
  (* Try deproceduring (convert a function into a call to that function). *)
  r <- Deproceduring e ;;
  let e := snd r in
  if fst r then ret ((1 + score)%Z, e) else
  S <- get ;;
  (* Now check if the types are equal. *)
  if Type_.Equal (from S e) to then ret (NoOp, e) else
  (* Pointer to pointer conversions. *)
  let to_first_element :=
    Type_.is_pointer (from S e) && Type_.is_pointer to &&
    match Type_.elem (from S e) with
    | Array _ element_type _ => Type_.Equal element_type (Type_.elem to)
    | _ => false
    end in
  if to_first_element then
    e <- perform e (InsertImplicitCast e to) ;;
    ret ((1 + score)%Z, e)
  else
  if Type_.is_pointer (from S e) && Type_.is_pointer to && Type_.Equal to Type_.VoidPtr then
    e <- perform e (InsertImplicitCast e to) ;;
    ret ((1 + score)%Z, e)
  else
  (* Array to array conversions. *)
  if Type_.is_array (from S e) && Type_.is_array to then
    if (Type_.dimension to <? Type_.dimension (from S e))%N
    then ret (ConversionImpossible, e)
    else
      e <- perform e (InsertImplicitCast e to) ;;
      ret ((1 + score)%Z, e)
  else
  (* Function types can be converted to their corresponding function types. *)
  if Type_.is_function (from S e) && Type_.is_pointer to
     && Type_.Equal (Type_.elem to) (from S e) then
    e <- perform e (InsertImplicitCast e to) ;;
    ret (NoOp, e)
  else
  (* Integer to boolean and vis versa implicit conversions. *)
  if (Type_.is_integer false (from S e) && Type_.is_bool to)
     || (Type_.is_bool (from S e) && Type_.is_integer false to) then
    e <- perform e (InsertImplicitCast e to) ;;
    ret ((1 + score)%Z, e)
  else
  (* Integer to integer *)
  if Type_.is_integer false (from S e) && Type_.is_integer false to then
    match evaluate S e with
    | Some res =>
        val <- as_int res ;;
        (* Signed to Unsigned Conversion *)
        if slt val 0 && Type_.is_unsigned_int to then ret (ConversionImpossible, e) else
        (* Unsigned to Unsigned Conversion *)
        let bits := size to in
        if Type_.is_unsigned_int (from S e) && (bits <? 64)%N && (MaxBitValue bits <? val)%Z
        then ret (ConversionImpossible, e) else
        e <- perform e
               (e <- InsertImplicitCast e to ;;
                S <- get ;;
                ret (ConstantExpr {| ty := type_of S e; lvalue := false; sema := Done;
                                     loc := location S e |} (Some e) res)) ;;
        ret ((1 + score)%Z, e)
    | None =>
        (* If it fits, it ships. *)
        if (size (from S e) <=? size to)%N then
          e <- perform e (InsertImplicitCast e to) ;;
          ret ((1 + score)%Z, e)
        else ret (ConversionImpossible, e)
    end
  else
  (* Try deproceduring one last time. *)
  r <- Deproceduring e ;;
  let e := snd r in
  if fst r then ret ((1 + score)%Z, e) else
  ret (ConversionImpossible, e).

(** Lines 550-552. *)
Definition TryConvert (e : Expr) (type : Ty) : M (Z * Expr) :=
  ConvertImpl false e type.

(** Lines 30-33. *)
Definition Convert (e : Expr) (type : Ty) : M (bool * Expr) :=
  S <- get ;;
  if sema_errored S e then ret (true, e) else
  r <- ConvertImpl true e type ;;
  ret ((0 <=? fst r)%Z, snd r).

(** Lines 234-240. *)
Definition ConvertOrError (e : Expr) (to : Ty) : M Expr :=
  r <- Convert e to ;;
  S <- get ;;
  when (negb (fst r))
       (Error (location S (snd r)) "Expression is not convertible to type {}") ;;;
  ret (snd r).

(** Lines 242-255. *)
Definition ConvertToCommonType (a b : Expr) : M (bool * (Expr * Expr)) :=
  S <- get ;;
  let a_is_literal := is_IntegerLiteral a in
  let b_is_literal := is_IntegerLiteral b in
  let both_literals := a_is_literal && b_is_literal in
  if negb both_literals && a_is_literal then
    r <- Convert a (type_of S b) ;; ret (fst r, (snd r, b))
  else if negb both_literals && b_is_literal then
    r <- Convert b (type_of S a) ;; ret (fst r, (a, snd r))
  else
    r <- Convert a (type_of S b) ;;
    if fst r then ret (true, (snd r, b)) else
    S <- get ;;
    r' <- Convert b (type_of S (snd r)) ;;
    ret (fst r', (snd r, snd r')).

(** Lines 538-542. *)
Definition Ptr (ty : Ty) : M Ty :=
  AnalyseType (Pointer {| t_sema := NotAnalysed; t_loc := Type_.location ty |} ty).

(** Lines 257-259. *)
Definition DeclTypeDecay (type : Ty) : M Ty :=
  if Type_.is_function type then Ptr type else ret type.

(** Modelled from the spec: [CallExpr::callee_type] ([glint/ast.hh]), the
    function type behind the pointers and references of the callee. *)
Definition callee_type (S : Sema) (callee : Expr) : M Ty :=
  let t := Type_.strip_pointers_and_references (type_of S callee) in
  if Type_.is_function t then ret t
  else abort (AssertFailed "callee_type: not a function").

(** Lines 348-445.  The subscript [c->args()[0]] of [BuiltinInline] is
    unchecked in the source; analysis leaves such a call with one
    argument. *)
Fixpoint HasSideEffects (S : Sema) (expr : Expr) {struct expr} : bool :=
  match expr with
  (* These always have side effects. *)
  | WhileExpr _ _ _ | ForExpr _ _ _ _ _ | ReturnExpr _ _ | Decl _ => true
  (* These never have side effects. *)
  | IntegerLiteral _ _ | StringLiteral _ _ | OverloadSet _ _ | NameRefExpr _ _ _ _
  | ModuleExpr _ _ | TypeExpr _ | SizeofExpr _ _ | AlignofExpr _ _ => false
  (* For these, it depends. *)
  | CastExpr _ _ operand => HasSideEffects S operand
  | UnaryExpr _ _ _ operand => HasSideEffects S operand
  | MemberAccessExpr _ object _ _ => HasSideEffects S object
  | CompoundLiteral _ _ values => existsb (HasSideEffects S) values
  | BlockExpr _ children => existsb (HasSideEffects S) children
  | ConstantExpr _ c _ =>
      match c with Some c => HasSideEffects S c | None => false end
  | BinaryExpr _ op lhs rhs =>
      if HasSideEffects S lhs || HasSideEffects S rhs then true
      else match op with TColonEq => true | _ => false end
  | IfExpr _ condition then_ otherwise =>
      if HasSideEffects S condition then true
      else if HasSideEffects S then_ then true
      else match otherwise with Some o => HasSideEffects S o | None => false end
  | CallExpr _ callee args =>
      if HasSideEffects S callee then true
      else if existsb (HasSideEffects S) args then true
      else
        let callee_ty := Type_.strip_pointers_and_references (type_of S callee) in
        if Type_.is_function callee_ty
        then negb (Type_.has_attr callee_ty APure) && negb (Type_.has_attr callee_ty AConst)
        else false
  | IntrinsicCallExpr a k args =>
      match k with
      | BuiltinDebugtrap | BuiltinMemCopy | BuiltinMemSet | BuiltinSyscall => true
      | BuiltinFilename | BuiltinLine => false
      | BuiltinInline =>
          if State_eqb (sema a) Errored then true
          else match args with x :: _ => HasSideEffects S x | [] => false end
      end
  end.

(** Lines 284-311. *)
Definition Discard (e : Expr) : M Expr :=
  S <- get ;;
  let expr := e in
  (* If the expression returns void, or has an error, ignore it. *)
  if negb (ok S expr) || Type_.is_void (type_of S expr) then ret e else
  (* If the expression is a call to a function not marked as discardable,
     issue an error. *)
  match expr with
  | CallExpr _ callee _ =>
      ftype <- callee_type S callee ;;
      when (negb (Type_.has_attr ftype ADiscardable))
           (Error (location S expr)
                  "Discarding return value of function not marked as 'discardable'")
  | _ => ret tt
  end ;;;
  (* Otherwise, perform deproceduring. *)
  r <- Deproceduring e ;;
  if fst r then ret (snd r) else
  (* Otherwise, issue a warning if this expression does not have side effects. *)
  S <- get ;;
  when (negb (HasSideEffects S expr))
       (Warning (location S expr) "Expression result unused") ;;;
  ret (snd r).

(** Lines 24-28. *)
Definition AnalyseAndDiscard (e : Expr) : M (bool * Expr) :=
  e <- Analyse e None ;;
  S <- get ;;
  if negb (ok S e) then ret (false, e) else
  e <- Discard e ;;
  ret (true, e).

(** *** Scopes

    Modelled from the spec: [Scope::find] (this scope only),
    [Scope::find_recursive] (walks the parents until a scope declares the
    name) and [Scope::all_symbols_recursive] of [glint/ast.hh]. *)

Definition scope_at (S : Sema) (i : nat) : Scope :=
  default {| parent := None; symbols := [] |} (scopes S !! i).

Definition find (S : Sema) (scope : nat) (name : string) : list nat :=
  map snd (List.filter (fun p => String.eqb (fst p) name) (symbols (scope_at S scope))).

Fixpoint find_recursive_from (depth : nat) (S : Sema) (scope : nat) (name : string) : list nat :=
  match find S scope name with
  | [] =>
      match depth, parent (scope_at S scope) with
      | S depth, Some p => find_recursive_from depth S p name
      | _, _ => []
      end
  | syms => syms
  end.

Definition find_recursive (S : Sema) (scope : nat) (name : string) : list nat :=
  find_recursive_from (length (scopes S)) S scope name.

Fixpoint all_symbols_recursive_from (depth : nat) (S : Sema) (scope : nat) : list nat :=
  map snd (symbols (scope_at S scope)) ++
  match depth, parent (scope_at S scope) with
  | S depth, Some p => all_symbols_recursive_from depth S p
  | _, _ => []
  end.

Definition all_symbols_recursive (S : Sema) (scope : nat) : list nat :=
  all_symbols_recursive_from (length (scopes S)) S scope.

(** *** The dangling dynamic arrays of the current function *)

Definition curr_dangling (S : Sema) : list nat :=
  dangling_dynarrays (decl_at S (curr_func S)).

(** [std::erase(curr_func->dangling_dynarrays(), target)]: every entry
    that is the pointer [target] goes. *)
Definition same_pointer (target : option Expr) (addr : nat) : bool :=
  match target with
  | Some (Decl a) => Nat.eqb a addr
  | _ => false
  end.

Definition erase_dangling (target : option Expr) : M unit :=
  modify (fun S =>
    map_decl (fun d => set_dangling
                         (List.filter (fun a => negb (same_pointer target a))
                                      (dangling_dynarrays d)) d)
             (curr_func S) S).

(** [curr_func->dangling_dynarrays().push_back(v)]. *)
Definition push_dangling (v : nat) : M unit :=
  modify (fun S =>
    map_decl (fun d => set_dangling (dangling_dynarrays d ++ [v]) d) (curr_func S) S).

(** *** Casts (lines 1845-1908) *)

Definition is_hard_cast (k : CastKind) : bool :=
  match k with HardCast => true | _ => false end.

Definition sema_made_cast (k : CastKind) : bool :=
  match k with
  | ImplicitCast | LValueToRValueConv | LValueToReference | ReferenceToLValue => true
  | SoftCast | HardCast => false
  end.

Definition is_ref_to_lvalue (k : CastKind) : bool :=
  match k with ReferenceToLValue => true | _ => false end.

Definition AnalyseCast (c : Expr) : M Expr :=
  match c with
  | CastExpr a kind operand =>
      (* Implicit casts and lvalue-to-rvalue conversions are only ever
         created by sema, so we know they're fine. *)
      if sema_made_cast kind
      then ret (CastExpr (set_lvalue_flag (is_ref_to_lvalue kind) a) kind operand) else
      (* If analysis of the operand failed, we don't know its type. *)
      operand <- Analyse operand (Some (ty a)) ;;
      S <- get ;;
      if negb (ok S operand) then ret (CastExpr a kind operand) else
      (* If the types are implicitly convertible, then the cast is fine. *)
      r <- Convert operand (ty a) ;;
      let operand := snd r in
      let c := CastExpr a kind operand in
      if fst r then ret c else
      S <- get ;;
      let from := type_of S operand in
      let to := ty a in
      (* The type we're casting to must not be a reference type. *)
      if Type_.is_reference to then
        Error (loc a) "Invalid cast of rvalue to reference type" ;;; ret c
      else
      (* Explicitly casting from enums/integers to integers and
         enums/integers to booleans and booleans to integers is allowed. *)
      if (Type_.is_integer true from || Type_.is_enum from) && Type_.is_integer true to
      then ret c else
      (* Casting from pointers to integers and pointers to booleans is allowed. *)
      if Type_.is_pointer from && Type_.is_integer true to then ret c else
      (* Helper to allow only hard casts. *)
      let HardCast_ :=
        when (negb (is_hard_cast kind))
             (Error (loc a)
                    "Cast from {} to {} is unsafe. If this is intended, use 'as!' instead") in
      (* Hard casts from integers to enums are allowed. *)
      if Type_.is_integer true from && Type_.is_enum to then HardCast_ ;;; ret c else
      (* Hard casts between pointers and from pointers to integers are allowed. *)
      if Type_.is_pointer to && (Type_.is_integer false from || Type_.is_pointer from)
      then HardCast_ ;;; ret c else
      (* Hard casts between types that have the same size are allowed. *)
      if (size from =? size to)%N && is_hard_cast kind then ret c else
      (* Any other casts are currently not allowed. *)
      Error (loc a) "Invalid cast from {} to {}" ;;; ret c
  | _ => abort (AssertFailed "as<CastExpr>")
  end.

(** *** Unary expressions (lines 2253-2393) *)

Definition AnalyseUnary (u : Expr) : M Expr :=
  match u with
  | UnaryExpr a op postfix operand =>
      (* Give up if there is an error in the operand. *)
      operand <- Analyse operand None ;;
      S <- get ;;
      if negb (ok S operand)
      then ret (UnaryExpr (set_sema_state Errored a) op postfix operand) else
      (* We currently don't have postfix operators. *)
      if postfix then abort Unreachable else
      match op with
      (* Get the address of an lvalue or function. *)
      | TAmpersand =>
          if negb (is_lvalue S operand) then
            Error (loc a) "Cannot take address of rvalue" ;;;
            ret (UnaryExpr (set_sema_state Errored a) op postfix operand)
          else
            t <- Ptr (type_of S operand) ;;
            ret (UnaryExpr (set_ty t a) op postfix operand)
      (* Convert a pointer to an lvalue. *)
      | TAt =>
          operand <- LValueToRValue operand true ;;
          S <- get ;;
          let ty := type_of S operand in
          if negb (Type_.is_pointer ty) then
            Error (loc a) "Cannot dereference non-pointer type {}" ;;;
            ret (UnaryExpr (set_sema_state Errored a) op postfix operand)
          else
            ret (UnaryExpr (set_lvalue_flag true (set_ty (Type_.elem ty) a)) op postfix operand)
      (* Negate an integer or free a dynamic array. *)
      | TMinus =>
          if Type_.is_dynamic_array (type_of S operand) then
            let a := set_ty Type_.Void a in
            match operand with
            | NameRefExpr na name scope target =>
                match target with
                | Some t =>
                    (* If referenced again, will cause a
                       used-but-no-longer-viable diagnostic. *)
                    t <- set_sema_no_longer_viable t ;;
                    (* For forget-to-free diagnostics. *)
                    erase_dangling target ;;;
                    ret (UnaryExpr a op postfix (NameRefExpr na name scope (Some t)))
                | None => abort (NullDereference "target->set_sema_no_longer_viable()")
                end
            | _ => abort (AssertFailed
                            "Sorry, only handle NameRefExpr when freeing dynamic arrays")
            end
          else
            operand <- LValueToRValue operand true ;;
            S <- get ;;
            let ty := type_of S operand in
            if negb (Type_.is_integer false ty) then
              Error (loc a)
                    "Operand of unary prefix operator '-' must be an integer type, but was {}" ;;;
              ret (UnaryExpr (set_sema_state Errored a) op postfix operand)
            else ret (UnaryExpr (set_ty ty a) op postfix operand)
      (* Bitwise-not an integer. *)
      | TTilde =>
          operand <- LValueToRValue operand true ;;
          S <- get ;;
          let ty := type_of S operand in
          if negb (Type_.is_integer false ty) then
            Error (loc a) "Operand of operator '~' must be an integer type, but was {}" ;;;
            ret (UnaryExpr (set_sema_state Errored a) op postfix operand)
          else ret (UnaryExpr (set_ty ty a) op postfix operand)
      (* Negate a bool, integer, or pointer. *)
      | TExclam =>
          operand <- LValueToRValue operand true ;;
          S <- get ;;
          let ty := type_of S operand in
          if negb (Type_.is_pointer ty) && negb (Type_.is_integer true ty) then
            Error (loc a)
                  "Operand of operator '!' must be a bool, integer, or pointer type, but was {}" ;;;
            ret (UnaryExpr a op postfix operand)
          else ret (UnaryExpr (set_ty Type_.Bool a) op postfix operand)
      (* Check if a sum type currently stores a given member. *)
      | THas =>
          if negb (Type_.is_sum (type_of S operand)) then
            Error (location S operand) "Operand of 'has' must be a sum type" ;;;
            ret (UnaryExpr (set_sema_state Errored a) op postfix operand)
          else if negb (is_MemberAccessExpr operand) then
            Error (location S operand)
                  "Operand of 'has' must be a member access to a sum type" ;;;
            ret (UnaryExpr (set_sema_state Errored a) op postfix operand)
          else ret (UnaryExpr (set_ty Type_.Bool a) op postfix operand)
      | _ => abort (ICE "Invalid prefix operator '{}'")
      end
  | _ => abort (AssertFailed "as<UnaryExpr>")
  end.

(** *** Name references (lines 2073-2251) *)

(** [size_t(-1)]. *)
Definition size_t_max : N := (2 ^ 64 - 1)%N.

(** The search for the declaration closest to [name] (lines 2097-2111). *)
Fixpoint closest_declaration (S : Sema) (name : string) (decls : list nat)
         (least_distance_decl : option nat) (least_distance : N)
  : M (option nat * N) :=
  match decls with
  | [] => ret (least_distance_decl, least_distance)
  | decl :: decls =>
      let distance :=
        OSA.optimal_string_alignment_distance name (decl_name (decl_at S decl)) in
      if (distance =? 0)%N then
        abort (AssertFailed
                 "If distance was zero, then symbol would have been found")
      else if (distance <? least_distance)%N
      then closest_declaration S name decls (Some decl) distance
      else closest_declaration S name decls least_distance_decl least_distance
  end.

Definition new_node (t : Ty) (l : Location) : Attrs :=
  {| ty := t; lvalue := false; sema := NotAnalysed; loc := l |}.

Definition AnalyseNameRef (expr : Expr) : M Expr :=
  match expr with
  | NameRefExpr a name scope target =>
      S <- get ;;
      (* Look up the thing in its scope, then in its parent scopes. *)
      let syms := find_recursive S scope name in
      match syms with
      | [] =>
          (* Search imported modules here. *)
          if existsb (fun ref => String.eqb name (fst ref)) (imports S) then
            let module_expr := ModuleExpr (new_node Type_.Unknown (loc a)) (global_scope S) in
            ret (NameRefExpr (set_ty Type_.Void a) name scope (Some module_expr))
          else
          (* Find the closest match of an existing declaration. *)
          r <- closest_declaration S name (all_symbols_recursive S scope) None size_t_max ;;
          let least_distance_decl := fst r in
          let least_distance := snd r in
          (* AUTO-SPELLCHECK; the closest declaration exists whenever the
             least distance is not the initial one. *)
          let same_length :=
            match least_distance_decl with
            | Some d => String.length name =? String.length (decl_name (decl_at S d))
            | None => false
            end in
          if (least_distance =? 1)%N && (2 <? String.length name) && same_length then
            match least_distance_decl with
            | Some d =>
                let decl := decl_at S d in
                Warning (loc a)
                        "You typed '{}'; we are treating it as '{}' because it's so close" ;;;
                Note (loc (decl_attrs decl)) "Declared here" ;;;
                let a := set_ty (ty (decl_attrs decl)) a in
                let a := if lvalue (decl_attrs decl) then set_lvalue_flag true a else a in
                ret (NameRefExpr a name scope (Some (Decl d)))
            | None => abort (NullDereference "least_distance_decl")
            end
          else
          Error (loc a) "Unknown symbol '{}'" ;;;
          (* If there is a declaration of this variable in the top-level
             scope, tell the user that they may have forgotten to make it
             static. *)
          match find S (top_level_scope S) name with
          | top :: _ =>
              Note (loc (decl_attrs (decl_at S top)))
                   "A declaration exists at the top-level. Did you mean to make it 'static'?"
          | [] => ret tt
          end ;;;
          match least_distance_decl with
          | Some d =>
              let short_name := String.length (decl_name (decl_at S d)) <? 5 in
              let short_name_distance_max := 1%N in
              when (negb short_name || (least_distance <=? short_name_distance_max)%N)
                   (Note (loc (decl_attrs (decl_at S d)))
                         "Maybe you meant '{}', defined here?")
          | None => ret tt
          end ;;;
          ret (NameRefExpr (set_sema_state Errored a) name scope target)
      | sym0 :: _ =>
          if negb (is_decl_of_kind S FuncDecl (Decl sym0)) then
            (* Resolve to that node. *)
            e <- Analyse (Decl sym0) None ;;
            match e with
            | Decl addr =>
                if negb (addr =? sym0) then abort (AssertFailed "syms.at(0) == e") else
                S <- get ;;
                let no_longer_viable :=
                  "Reference to a name, {}, that is no longer viable; probably a use-after-free thing" in
                when (State_eqb (sema_of S e) NoLongerViable) (Error (loc a) no_longer_viable) ;;;
                (* The declared object is being used in its own initialiser. *)
                if State_eqb (sema_of S e) InProgress then
                  Error (loc a) "Cannot use '{}' in its own initialiser" ;;;
                  ret (NameRefExpr (set_sema_state Errored a) name scope target)
                else
                  S <- get ;;
                  let a := set_ty (type_of S e) a in
                  let a := if is_lvalue S e then set_lvalue_flag true a else a in
                  ret (NameRefExpr a name scope (Some (Decl sym0)))
            | _ => abort (AssertFailed "syms.at(0) == e")
            end
          else
          (* Collect all functions with that name. *)
          if negb (forallb (fun sym => is_decl_of_kind S FuncDecl (Decl sym)) syms)
          then abort (AssertFailed "as<FuncDecl>(sym)") else
          match syms with
          | [overload] =>
              (* If there is only one function, resolve it directly. *)
              ret (NameRefExpr (set_ty (type_of S (Decl overload)) a) name scope
                               (Some (Decl overload)))
          | overloads =>
              (* Create a new overload set and analyse it. *)
              overload_set <-
                Analyse (OverloadSet (new_node Type_.Unknown (loc a)) overloads) None ;;
              S <- get ;;
              let a := if sema_errored S overload_set then set_sema_state Errored a else a in
              ret (NameRefExpr (set_ty Type_.OverloadSet a) name scope (Some overload_set))
          end
      end
  | _ => abort (AssertFailed "as<NameRefExpr>")
  end.

(** *** Calls (lines 1662-1843) *)

(** [Location(Location a, Location b)] ([include/lcc/location.hh]): the
    span of two locations; [pos] is a [u32], [len] a [u16], and [file_id]
    keeps its default. *)
Definition is_valid (l : Location) : bool := negb (len l =? 0)%N.

Definition Location_span (a b : Location) : Location :=
  if negb (file_id a =? file_id b)%N then no_location
  else if negb (is_valid a) || negb (is_valid b) then no_location
  else
    let p := N.min (pos a) (pos b) in
    let e := N.max ((pos a + len a) mod 2 ^ 32) ((pos b + len b) mod 2 ^ 32) in
    {| pos := p; len := ((e + 2 ^ 32 - p) mod 2 ^ 16)%N; file_id := 0 |}.

Definition builtin_names : list (string * IntrinsicKind) :=
  [ ("__builtin_debugtrap", BuiltinDebugtrap);
    ("__builtin_filename", BuiltinFilename);
    ("__builtin_inline", BuiltinInline);
    ("__builtin_line", BuiltinLine);
    ("__builtin_memcpy", BuiltinMemCopy);
    ("__builtin_memset", BuiltinMemSet);
    ("__builtin_syscall", BuiltinSyscall) ].

Definition builtin_named (n : string) : option IntrinsicKind :=
  option_map snd (List.find (fun p => String.eqb (fst p) n) builtin_names).

(** The conversion of the arguments to the parameter types, for the first
    [min(args.size(), params.size())] arguments. *)
Fixpoint convert_arguments (args : list Expr) (params : list (string * Ty * Location))
  : M (list Expr) :=
  match args, params with
  | arg :: args, (_, param_type, _) :: params =>
      arg <- LValueToRValue arg true ;;
      r <- Convert arg param_type ;;
      S <- get ;;
      when (negb (fst r))
           (Error (location S (snd r))
                  "Type of argument {} is not convertible to parameter type {}") ;;;
      args <- convert_arguments args params ;;
      ret (snd r :: args)
  | args, _ => ret args
  end.

Definition AnalyseCall (expr : Expr) : M Expr :=
  match expr with
  | CallExpr a callee args =>
      (* If the callee is a name ref, check for builtins first. *)
      let builtin :=
        match callee with
        | NameRefExpr _ n _ _ => builtin_named n
        | _ => None
        end in
      match builtin with
      | Some kind =>
          let intrinsic := IntrinsicCallExpr (new_node Type_.Unknown no_location) kind args in
          Analyse intrinsic None
      | None =>
      (* Analyse the callee and the arguments. *)
      args <- mapM (fun arg => Analyse arg None) args ;;
      callee <- Analyse callee None ;;
      S <- get ;;
      (* If analysing the callee fails, we can't do anything else. *)
      if negb (ok S callee)
      then ret (CallExpr (set_sema_state Errored a) callee args) else
      (* If the callee is an overload set, perform overload resolution. *)
      if is_OverloadSet callee then
        if existsb (sema_errored S) args
        then ret (CallExpr (set_sema_state Errored a) callee args)
        else abort (ICE "Sorry, overload resolution is currently not implemented.")
      else
      (* If the callee is a type expression, this is a type instantiation. *)
      let names_type :=
        match callee with
        | NameRefExpr _ _ _ (Some target) => is_decl_of_kind S TypeDecl target
        | _ => false
        end in
      if is_TypeExpr callee || names_type then
        args <- mapM (fun arg => LValueToRValue arg true) args ;;
        S <- get ;;
        match args with
        | [arg] => ret (CastExpr (new_node (type_of S callee) (loc a)) HardCast arg)
        | _ => ret (CompoundLiteral (new_node (type_of S callee) (loc a)) true args)
        end
      else
      let finish (callee : Expr) : M Expr :=
        S <- get ;;
        (* The type of the call is the return type of the function. *)
        let func_type := type_of S callee in
        if negb (Type_.is_function func_type)
        then abort (NullDereference "func_type->return_type()") else
        let a := set_ty (Type_.return_type func_type) a in
        (* Check that there are as many arguments as parameters. *)
        when (negb (length args =? length (Type_.params func_type)))
             (Error (loc a)
                    "Incorrect number of arguments for function. Expected {} instead of {}") ;;;
        args <- convert_arguments args (Type_.params func_type) ;;
        ret (CallExpr a callee args) in
      let callee_ty := type_of S callee in
      (* If the callee is a function pointer, dereference it. *)
      if Type_.is_pointer callee_ty && Type_.is_function (Type_.elem callee_ty) then
        callee <- InsertImplicitCast callee (Type_.elem callee_ty) ;;
        finish callee
      (* If the callee is an integer, multiply all the arguments. *)
      else if Type_.is_integer false callee_ty then
        if bool_decide (args = []) && negb (HasSideEffects S (CallExpr a callee args)) then
          Warning (loc a) "Expression result unused" ;;;
          ret (CallExpr a callee args)
        else
          match rev args with
          | [] => abort (OutOfRange "expr->args().back()")
          | last :: before =>
              let rhs :=
                fold_left
                  (fun rhs lhs =>
                     BinaryExpr (new_node Type_.Unknown
                                          (Location_span (location S lhs) (location S rhs)))
                                TStar lhs rhs)
                  before last in
              Analyse (BinaryExpr (new_node Type_.Unknown (loc a)) TStar callee rhs) None
          end
      (* Otherwise, if the type is not already a function type, we can't
         call this. *)
      else if negb (Type_.is_function callee_ty) then
        Error (location S callee) "Cannot call non-function(-pointer) type {}" ;;;
        ret (CallExpr (set_sema_state Errored a) callee args)
      else finish callee
      end
  | _ => abort (AssertFailed "as<CallExpr>")
  end.

(** *** The dispatch on the expression kind (lines 899-1435) *)

(** The loop part shared by [For] and [While] (lines 920-930). *)
Definition analyse_loop (a : Attrs) (condition body : Expr) : M (Expr * Expr) :=
  condition <- Analyse condition None ;;
  r <- Convert condition Type_.Bool ;;
  when (negb (fst r)) (Error (loc a) "Invalid type for loop condition: {}") ;;;
  condition <- LValueToRValue (snd r) true ;;
  r <- AnalyseAndDiscard body ;;
  ret (condition, snd r).

(** The children of a block (lines 1032-1038); [a] carries the sema state
    of the block. *)
Fixpoint analyse_children (a : Attrs) (children : list Expr) (expected_type : option Ty)
  : M (Attrs * list Expr) :=
  match children with
  | [] => ret (a, [])
  | child :: rest =>
      let last := bool_decide (rest = []) in
      child <- Analyse child (if last then expected_type else None) ;;
      S <- get ;;
      let a := if negb (ok S child) then set_sema_state Errored a else a in
      child <- (if negb last && ok S child then Discard child else ret child) ;;
      r <- analyse_children a rest expected_type ;;
      ret (fst r, child :: snd r)
  end.

Definition analyse_optional (e : option Expr) (expected_type : option Ty) : M (option Expr) :=
  match e with
  | Some e => e <- Analyse e expected_type ;; ret (Some e)
  | None => ret None
  end.

(** [Expr::Kind::Return] (lines 939-968), once [as<FuncType>] has passed on
    the type of the current function (line 938, in the dispatch below). *)
Definition AnalyseReturn (a : Attrs) (value : option Expr) : M Expr :=
  S <- get ;;
  let ret_type := Type_.return_type (type_of S (Decl (curr_func S))) in
  (* if (r->value()) Analyse(&r->value(), ret_type); *)
  value <- analyse_optional value (Some ret_type) ;;
  (* If returned value is a dynamic array, remove that dynamic array's
     declaration from the list of dangling dynamic arrays:
     if (r->value()->type()->is_dynamic_array()) ... *)
  match value with
  | None => abort (NullDereference "r->value()->type()")
  | Some v =>
      S <- get ;;
      when (Type_.is_dynamic_array (type_of S v))
           match v with
           | NameRefExpr _ _ _ target => erase_dangling target
           | _ => ret tt
           end ;;;
      (* Make sure that it matches the return type. *)
      if Type_.is_void ret_type then
        S <- get ;;
        when (ok S v && negb (Type_.is_void (type_of S v)))
             (Error (loc a) "Function returning void must not return a value") ;;;
        ret (ReturnExpr a (Some v))
      else
        r <- Convert v ret_type ;;
        when (negb (fst r))
             (Error (loc a) "Type of return expression is not convertible to return type {}") ;;;
        v <- LValueToRValue (snd r) true ;;
        ret (ReturnExpr a (Some v))
  end.

(** [Expr::Kind::If] (lines 972-1021). *)
Definition AnalyseIf (a : Attrs) (condition then_ : Expr) (otherwise : option Expr) : M Expr :=
  condition <- Analyse condition None ;;
  r <- Convert condition Type_.Bool ;;
  S <- get ;;
  when (negb (fst r)) (Error (location S (snd r)) "Invalid type for if condition: {}") ;;;
  condition <- LValueToRValue (snd r) true ;;
  (* Analyse the branches. *)
  then_ <- Analyse then_ None ;;
  otherwise <- analyse_optional otherwise None ;;
  S <- get ;;
  let a :=
    if negb (ok S then_) || match otherwise with Some o => negb (ok S o) | None => false end
    then set_sema_state Errored a else a in
  let a := set_ty Type_.Void a in
  r <- match otherwise with
       | Some o =>
           if negb (Type_.is_void (type_of S then_)) && negb (Type_.is_void (type_of S o)) then
             c <- ConvertToCommonType then_ o ;;
             let then_ := fst (snd c) in
             let o := snd (snd c) in
             if fst c then
               S <- get ;;
               let a := set_ty (type_of S then_) a in
               if is_lvalue S then_ && is_lvalue S o
               then ret (set_lvalue_flag true a, (then_, Some o))
               else if is_lvalue S then_
               then then_ <- LValueToRValue then_ true ;; ret (a, (then_, Some o))
               else if is_lvalue S o
               then o <- LValueToRValue o true ;; ret (a, (then_, Some o))
               else ret (a, (then_, Some o))
             else ret (a, (then_, Some o))
           else ret (a, (then_, Some o))
       | None => ret (a, (then_, None))
       end ;;
  let a := fst r in
  let then_ := fst (snd r) in
  let otherwise := snd (snd r) in
  if Type_.is_void (ty a) then
    then_ <- Discard then_ ;;
    otherwise <- match otherwise with
                 | Some o => o <- Discard o ;; ret (Some o)
                 | None => ret None
                 end ;;
    ret (IfExpr a condition then_ otherwise)
  else ret (IfExpr a condition then_ otherwise).

(** [Expr::Kind::Block] (lines 1025-1044). *)
Definition AnalyseBlock (a : Attrs) (children : list Expr) (expected_type : option Ty) : M Expr :=
  match children with
  | [] => ret (BlockExpr (set_ty Type_.Void a) [])
  | _ =>
      r <- analyse_children a children expected_type ;;
      let a := fst r in
      let children := snd r in
      S <- get ;;
      match State_eqb (sema a) Errored, last children with
      | false, Some back =>
          ret (BlockExpr (set_ty (type_of S back) (set_lvalue_flag (is_lvalue S back) a)) children)
      | _, _ => ret (BlockExpr a children)
      end
  end.

(** [Expr::Kind::VarDecl] (lines 1069-1114): the initialiser and the type
    of the declaration at address [v]; the result tells whether the case
    goes on, that is, did not [break]. *)
Definition analyse_declared_variable (v : nat) : M bool :=
  S <- get ;;
  (* If this has an initialiser, analyse it. *)
  proceed <-
    match init (decl_at S v) with
    | Some i =>
        let infer_type := Type_.is_unknown (type_of S (Decl v)) in
        expected <- (if infer_type then ret None
                     else t <- DeclTypeDecay (type_of S (Decl v)) ;; ret (Some t)) ;;
        i <- Analyse i expected ;;
        modify (map_decl (set_init (Some i)) v) ;;;
        S <- get ;;
        if infer_type then
          if ok S i then set_type (type_of S i) (Decl v) ;;; ret true
          else set_sema_errored (Decl v) ;;; ret false
        else ret true
    | None => ret true
    end ;;
  if negb proceed then ret false else
  (* Check that the type makes sense. *)
  S <- get ;;
  t <- DeclTypeDecay (type_of S (Decl v)) ;;
  set_type t (Decl v) ;;;
  (* Make sure the initialiser is convertible to that type. *)
  S <- get ;;
  match init (decl_at S v) with
  | Some i =>
      r <- Convert i (type_of S (Decl v)) ;;
      S <- get ;;
      when (negb (fst r))
           (Error (location S (snd r))
                  "Type of initialiser, {}, is not convertible to variable type {}") ;;;
      i <- LValueToRValue (snd r) true ;;
      modify (map_decl (set_init (Some i)) v)
  | None => ret tt
  end ;;;
  ret true.

(** [Expr::Kind::VarDecl] (lines 1069-1120). *)
Definition AnalyseVarDecl (v : nat) : M Expr :=
  proceed <- analyse_declared_variable v ;;
  if negb proceed then ret (Decl v) else
  S <- get ;;
  when (Type_.is_dynamic_array (type_of S (Decl v))) (push_dangling v) ;;;
  set_lvalue true (Decl v).

(** ** Overload sets ([sema.cc], lines 1363-1397) *)

(** Modelled from the spec: [FuncDecl::param_types] ([glint/ast.hh], not
    among the sources), the types of the parameters of the function type of
    the declaration, in order. *)
Definition param_types (S : Sema) (f : nat) : list Ty :=
  map (fun p => snd (fst p)) (Type_.params (type_of S (Decl f))).

(** The loop over [k] (lines 1381-1384), on two lists of the same length:
    the index it stops at. *)
Fixpoint compare_parameters (oi_params oj_params : list Ty) (k : nat) : nat :=
  match oi_params, oj_params with
  | x :: xs, y :: ys =>
      if negb (Type_.Equal x y) then k else compare_parameters xs ys (S k)
  | _, _ => k
  end.

(** The loop over [j] (lines 1373-1395), with the attributes of the
    overload set. *)
Fixpoint validate_against (oi : nat) (later : list nat) (a : Attrs) : M Attrs :=
  match later with
  | [] => ret a
  | oj :: later =>
      S <- get ;;
      let oi_params := param_types S oi in
      let oj_params := param_types S oj in
      (* Different number of parameters means these two can't be the same. *)
      if negb (length oi_params =? length oj_params) then validate_against oi later a else
      (* Compare the parameters. *)
      let k := compare_parameters oi_params oj_params 0 in
      (* If all of them are equal, then we have a problem. *)
      if negb (k =? length oi_params) then
        Error (location S (Decl oi))
              "Overload set contains two overloads with the same parameter types" ;;;
        Note (location S (Decl oj)) "Conflicting overload is here" ;;;
        validate_against oi later (set_sema_state Errored a)
      else validate_against oi later a
  end.

(** The loop over [i] (lines 1370-1396). *)
Fixpoint validate_overloads (os : list nat) (a : Attrs) : M Attrs :=
  match os with
  | [] => ret a
  | oi :: later =>
      a <- validate_against oi later a ;;
      validate_overloads later a
  end.

(** [Expr::Kind::OverloadSet]. *)
Definition AnalyseOverloadSet (expr : Expr) : M Expr :=
  match expr with
  | OverloadSet a os =>
      a <- validate_overloads os a ;;
      ret (OverloadSet a os)
  | _ => abort (AssertFailed "as<OverloadSet>")
  end.

(** ** Binding a reference ([sema.cc], lines 447-459)

    [as<TypeWithOneElement>] asserts that the type has one element. *)
Definition ImplicitDe_Reference (e : Expr) : M (bool * Expr) :=
  S <- get ;;
  e <- (if Type_.is_reference (type_of S e) then
          (* Don't strip reference here since we want an lvalue. *)
          e <- LValueToRValue e false ;;
          S <- get ;;
          match type_of S e with
          | Pointer _ element_type | Reference _ element_type
          | Array _ element_type _ | DynamicArray _ element_type _ =>
              WrapWithCast e element_type ReferenceToLValue
          | _ => abort (AssertFailed "as<TypeWithOneElement>")
          end
        else ret e) ;;
  S <- get ;;
  ret (is_lvalue S e, e).

(** ** Binary expressions ([sema.cc], lines 1437-1660) *)
Definition AnalyseBinary (b : Expr) : M Expr :=
  match b with
  | BinaryExpr a op lhs rhs =>
      let errored (a : Attrs) (lhs rhs : Expr) : M Expr :=
        ret (BinaryExpr (set_sema_state Errored a) op lhs rhs) in
      (* Give up if there is an error in either operand. *)
      lhs <- Analyse lhs None ;;
      S <- get ;;
      if negb (ok S lhs) then errored a lhs rhs else
      rhs <- Analyse rhs None ;;
      S <- get ;;
      if negb (ok S rhs) then errored a lhs rhs else
      match op with
      | TAnd | TOr =>
          lhs <- LValueToRValue lhs true ;;
          rhs <- LValueToRValue rhs true ;;
          S <- get ;;
          (* Both types must be integers or booleans. *)
          if negb (Type_.is_integer true (type_of S lhs))
             || negb (Type_.is_integer true (type_of S rhs)) then
            Error (loc a) "Cannot perform arithmetic on {} and {}" ;;;
            errored a lhs rhs
          else
          (* Convert both operands to booleans. *)
          r <- Convert lhs Type_.Bool ;;
          let lhs := snd r in
          if negb (fst r) then
            Error (loc a)
                  "Binary logical operator {} on {} and {}: cannot convert lhs, of type {}, to {}" ;;;
            errored a lhs rhs
          else
          r <- Convert rhs Type_.Bool ;;
          let rhs := snd r in
          if negb (fst r) then
            Error (loc a)
                  "Binary logical operator {} on {} and {}: cannot convert rhs, of type {}, to {}" ;;;
            errored a lhs rhs
          else
          (* The result type is bool. *)
          ret (BinaryExpr (set_ty Type_.Bool a) op lhs rhs)
      (* Pointer or array subscript. *)
      | TLBrack =>
          r <- ImplicitDe_Reference lhs ;;
          let lhs := snd r in
          S <- get ;;
          let ty := type_of S lhs in
          if negb (Type_.is_pointer ty || Type_.is_array ty) then
            Error (loc a) "LHS of subscript must be a pointer or array, but was {}" ;;;
            errored a lhs rhs
          else
          (* Result type is the pointer type or a pointer to the array element. *)
          t <- (if Type_.is_pointer ty then ret ty else Ptr (Type_.elem ty)) ;;
          let a := set_ty t a in
          (* The RHS must be an integer. *)
          rhs <- LValueToRValue rhs true ;;
          r <- Convert rhs Type_.Int ;;
          let rhs := snd r in
          if negb (fst r) then
            S <- get ;;
            Error (location S rhs) "RHS of subscript must be an integer" ;;;
            ret (BinaryExpr a op lhs rhs)
          else
          (* If it is an integer, try to evaluate it for bounds checking. *)
          S <- get ;;
          match ty with
          | Array _ _ (ConstantExpr size_attrs _ size_value) =>
              if negb (State_eqb (sema size_attrs) Done) then ret (BinaryExpr a op lhs rhs) else
              match evaluate S rhs with
              | Some res =>
                  index <- as_int res ;;
                  dimension <- as_int size_value ;;
                  when (slt index 0 || (dimension <=? index)%Z)
                       (Error (loc a) "Array subscript out of bounds") ;;;
                  (* Since we already have the result, store it for later. *)
                  ret (BinaryExpr a op lhs
                                  (constant (type_of S rhs) (location S rhs) (Some rhs) res))
              | None => ret (BinaryExpr a op lhs rhs)
              end
          | _ => ret (BinaryExpr a op lhs rhs)
          end
      (* Pointer arithmetic is handled by the subscript operator, so these
         are all just regular arithmetic. *)
      | TStar | TSlash | TPercent | TPlus | TMinus | TShl | TShr
      | TAmpersand | TPipe | TCaret =>
          lhs <- LValueToRValue lhs true ;;
          rhs <- LValueToRValue rhs true ;;
          S <- get ;;
          (* Both types must be integers. *)
          if negb (Type_.is_integer false (type_of S lhs))
             || negb (Type_.is_integer false (type_of S rhs)) then
            Error (loc a) "Cannot perform arithmetic on {} and {}" ;;;
            errored a lhs rhs
          else
          (* Convert both operands to their common type. *)
          c <- ConvertToCommonType lhs rhs ;;
          let lhs := fst (snd c) in
          let rhs := snd (snd c) in
          if negb (fst c) then
            Error (loc a) "Cannot perform arithmetic on {} and {}" ;;;
            errored a lhs rhs
          else
          (* The result type is the common type. *)
          S <- get ;;
          ret (BinaryExpr (set_ty (type_of S lhs) a) op lhs rhs)
      (* Comparisons are all handled the same. *)
      | TEq | TNe | TLt | TGt | TLe | TGe =>
          lhs <- LValueToRValue lhs true ;;
          rhs <- LValueToRValue rhs true ;;
          S <- get ;;
          let lhs_type := type_of S lhs in
          let rhs_type := type_of S rhs in
          (* If both operands are integers, convert them to their common type. *)
          if Type_.is_integer false lhs_type && Type_.is_integer false rhs_type then
            c <- ConvertToCommonType lhs rhs ;;
            let lhs := fst (snd c) in
            let rhs := snd (snd c) in
            if negb (fst c) then
              Error (loc a) "Cannot compare {} and {}" ;;;
              errored a lhs rhs
            else
            (* Comparisons return bool. *)
            ret (BinaryExpr (set_ty Type_.Bool a) op lhs rhs)
          else
          (* Bool can only be compared with bool. *)
          (if Type_.is_bool lhs_type && Type_.is_bool rhs_type then ret tt
           (* If both operands are pointers, they must be the same type. *)
           else if Type_.is_pointer lhs_type && Type_.is_pointer rhs_type then
             when (negb (Type_.Equal lhs_type rhs_type))
                  (Error (loc a) "Cannot compare unrelated pointer types {} and {}")
           (* Other comparisons are not allowed. *)
           else Error (loc a) "Cannot compare {} and {}") ;;;
          (* Comparisons return bool. *)
          ret (BinaryExpr (set_ty Type_.Bool a) op lhs rhs)
      (* Assignment. *)
      | TColonEq =>
          rhs <- LValueToRValue rhs true ;;
          r <- ImplicitDe_Reference lhs ;;
          let lhs := snd r in
          S <- get ;;
          if negb (is_lvalue S lhs) then
            Error (loc a) "LHS of assignment must be an lvalue" ;;;
            errored a lhs rhs
          else
          (* The type of the assignment is the same lvalue; assignment
             always yields an lvalue. *)
          let a := set_lvalue_flag true (set_ty (type_of S lhs) a) in
          (* The RHS must be assignable to the LHS. *)
          let assign (lhs_type : Ty) : M Expr :=
            r <- Convert rhs lhs_type ;;
            let rhs := snd r in
            S <- get ;;
            when (negb (fst r))
                 (Error (location S rhs)
                        "Type of expression {} is not convertible to variable type {}") ;;;
            ret (BinaryExpr a op lhs rhs) in
          (* Disallow assigning to a sum type directly. *)
          match type_of S lhs with
          | Sum _ members _ _ =>
              match lhs with
              | MemberAccessExpr _ _ _ member =>
                  (* Use member access to fetch type from sum type. *)
                  match members !! member with
                  | Some (_, member_type) => assign member_type
                  | None => abort (OutOfRange "sum_type->members().at(m->member())")
                  end
              | _ =>
                  Error (location S lhs)
                        "Cannot assign to a sum type; access one of it's members using ``.''" ;;;
                  errored a lhs rhs
              end
          | lhs_type => assign lhs_type
          end
      | TAt | TTilde | TExclam | THas => abort (ICE "Invalid binary operator '{}'")
      end
  | _ => abort (AssertFailed "as<BinaryExpr>")
  end.

(** ** Intrinsics ([sema.cc], lines 1910-2018)

    [args()[i]] and [args().front()] are unchecked: reading an argument
    that is not there is a fatal path of the model. *)

(** [f(&expr->args()[i])]. *)
Definition on_argument (i : nat) (f : Expr -> M Expr) (args : list Expr) : M (list Expr) :=
  match args !! i with
  | Some arg => arg <- f arg ;; ret (<[i := arg]> args)
  | None => abort (OutOfRange "expr->args()[i]")
  end.

(** The body shared by [__builtin_memcpy] and [__builtin_memset], that
    differ in the type of the second argument. *)
Definition analyse_memory_intrinsic (a : Attrs) (kind : IntrinsicKind) (second : Ty)
           (message : string) (args : list Expr) : M Expr :=
  (* This takes two pointer and a size argument. *)
  when (negb (length args =? 3)) (Error (loc a) message) ;;;
  (* Analyse the arguments. *)
  args <- mapM (fun arg => Analyse arg None) args ;;
  args <- on_argument 0 (fun arg => ConvertOrError arg Type_.VoidPtr) args ;;
  args <- on_argument 1 (fun arg => ConvertOrError arg second) args ;;
  args <- on_argument 2 (fun arg => ConvertOrError arg Type_.Int) args ;;
  args <- on_argument 0 (fun arg => LValueToRValue arg true) args ;;
  args <- on_argument 1 (fun arg => LValueToRValue arg true) args ;;
  args <- on_argument 2 (fun arg => LValueToRValue arg true) args ;;
  (* Unlike C's memcpy()/memmove(), this returns nothing. *)
  ret (IntrinsicCallExpr (set_ty Type_.Void a) kind args).

Definition AnalyseIntrinsicCall (expr : Expr) : M Expr :=
  match expr with
  | IntrinsicCallExpr a kind args =>
      match kind with
      | BuiltinDebugtrap =>
          when (negb (bool_decide (args = [])))
               (Error (loc a) "__builtin_debugtrap() takes no arguments") ;;;
          ret (IntrinsicCallExpr (set_ty Type_.Void a) kind args)
      | BuiltinFilename =>
          when (negb (bool_decide (args = [])))
               (Error (loc a) "__builtin_filename() takes no arguments") ;;;
          (* Get the name of the file containing this call. *)
          S <- get ;;
          let filename := match seek (externals S) (loc a) with
                          | Some (name, _) => name
                          | None => "<unknown>"
                          end in
          (* Create a string literal containing the filename. *)
          let str := StringLiteral (new_node (string_literal_type (externals S) filename)
                                             (loc a)) filename in
          let a := set_sema_state Done (set_ty (type_of S str) a) in
          ret (constant (ty a) (loc a) (Some (IntrinsicCallExpr a kind args))
                        (ResString filename))
      | BuiltinInline =>
          (* This takes one argument, and it must be a call expression. *)
          when (negb (length args =? 1))
               (Error (loc a) "__builtin_inline() takes exactly one argument") ;;;
          (* Analyse the call. *)
          match args with
          | [] => abort (OutOfRange "expr->args().front()")
          | call :: rest =>
              call <- Analyse call None ;;
              S <- get ;;
              let a := if negb (ok S call) then set_sema_state Errored a else a in
              when (negb (is_CallExpr call))
                   (Error (location S call)
                          "Argument to __builtin_inline() must be a (non-builtin) function call") ;;;
              (* Return type is the type of the callee. *)
              let a := if ok S call then set_ty (type_of S call) a else a in
              ret (IntrinsicCallExpr a kind (call :: rest))
          end
      | BuiltinLine =>
          when (negb (bool_decide (args = [])))
               (Error (loc a) "__builtin_line() takes no arguments") ;;;
          let a := set_sema_state Done (set_ty Type_.Int a) in
          (* If possible, seek to the location, if not we just insert 0. *)
          S <- get ;;
          let line := match seek (externals S) (loc a) with
                      | Some (_, line) => line
                      | None => 0%Z
                      end in
          ret (constant (ty a) (loc a) (Some (IntrinsicCallExpr a kind args))
                        (ResInt (line mod 2 ^ 64)))
      | BuiltinMemCopy =>
          analyse_memory_intrinsic a kind Type_.VoidPtr
                                   "__builtin_memcpy() takes exactly three arguments" args
      | BuiltinMemSet =>
          analyse_memory_intrinsic a kind Type_.Byte
                                   "__builtin_memset() takes exactly three arguments" args
      | BuiltinSyscall =>
          (* This has 1-7 integer-sized arguments and returns an integer. *)
          when (bool_decide (args = []) || (7 <? length args))
               (Error (loc a) "__builtin_syscall() takes between 1 and 7 arguments") ;;;
          (* Arguments must be integers or pointers. *)
          args <- mapM (fun arg =>
                          arg <- Analyse arg None ;;
                          arg <- InsertPointerToIntegerCast arg ;;
                          arg <- ConvertOrError arg Type_.Int ;;
                          LValueToRValue arg true)
                       args ;;
          (* Syscalls all return integer. *)
          ret (IntrinsicCallExpr (set_ty Type_.Int a) kind args)
      end
  | _ => abort (AssertFailed "as<IntrinsicCallExpr>")
  end.

(** ** Dereferencing ([sema.cc], lines 461-484)

    The loop takes one pointer off the type per round. *)
Fixpoint dereference_pointers (rounds : nat) (e : Expr) : M Expr :=
  S <- get ;;
  if Type_.is_pointer (type_of S e) then
    match rounds with
    | 0 => abort OutOfFuel
    | S rounds =>
        e <- Analyse (UnaryExpr (new_node Type_.Unknown (location S e)) TAt false e) None ;;
        S <- get ;;
        if negb (ok S e) then abort (AssertFailed "Analyse(expr)") else
        dereference_pointers rounds e
    end
  else ret e.

Definition ImplicitDereference (e : Expr) : M (bool * Expr) :=
  S <- get ;;
  e <- (if Type_.is_reference (type_of S e) then
          (* Don't strip reference here since we want an lvalue. *)
          e <- LValueToRValue e false ;;
          S <- get ;;
          match type_of S e with
          | Pointer _ element_type | Reference _ element_type
          | Array _ element_type _ | DynamicArray _ element_type _ =>
              WrapWithCast e element_type ReferenceToLValue
          | _ => abort (AssertFailed "as<TypeWithOneElement>")
          end
        else ret e) ;;
  S <- get ;;
  e <- dereference_pointers (pointer_depth (type_of S e)) e ;;
  S <- get ;;
  ret (is_lvalue S e, e).

(** ** Compound literals ([sema.cc], lines 1125-1141) *)

(** The loop over the values, with the attributes of the literal. *)
Fixpoint analyse_values (a : Attrs) (values : list Expr) : M (Attrs * list Expr) :=
  match values with
  | [] => ret (a, [])
  | child :: rest =>
      child <- Analyse child None ;;
      S <- get ;;
      r <- (if ok S child
            then child <- LValueToRValue child true ;; ret (a, child)
            else ret (set_sema_state Errored a, child)) ;;
      r' <- analyse_values (fst r) rest ;;
      ret (fst r', snd r :: snd r')
  end.

Definition AnalyseCompoundLiteral (expr : Expr) (expected_type : option Ty) : M Expr :=
  match expr with
  | CompoundLiteral a typed values =>
      (* Analyse all subexpressions. *)
      r <- analyse_values a values ;;
      let a := fst r in
      let values := snd r in
      when (negb typed && negb (bool_decide (is_Some expected_type)))
           (Error (loc a) "Cannot infer type of Untyped Compound Literal") ;;;
      (* LCC_ASSERT(Analyse(c->type_ref())); *)
      if negb typed then abort (NullDereference "Analyse(c->type_ref())") else
      t <- AnalyseType (ty a) ;;
      if negb (Type_.ok t) then abort (AssertFailed "Analyse(c->type_ref())") else
      ret (CompoundLiteral (set_ty t a) typed values)
  | _ => abort (AssertFailed "as<CompoundLiteral>")
  end.

(** ** Member accesses ([sema.cc], lines 1146-1337)

    [m->finalise(struct, index)] records the index of the member. *)

(** Modelled from the spec: [EnumeratorDecl::value] ([glint/ast.hh], not
    among the sources), the value that the analysis of the enum has stored
    as the initialiser of the enumerator. *)
Definition enumerator_value (S : Sema) (enumerator : nat) : M EvalResult :=
  match init (decl_at S enumerator) with
  | Some (ConstantExpr _ _ value) => ret value
  | _ => abort (AssertFailed "EnumeratorDecl::value")
  end.

Definition AnalyseMemberAccess (expr : Expr) : M Expr :=
  match expr with
  | MemberAccessExpr a object name member =>
      let errored (a : Attrs) (object : Expr) : M Expr :=
        ret (MemberAccessExpr (set_sema_state Errored a) object name member) in
      (* If there is an error analysing the object, we don't know its type
         and can thus not continue checking this. *)
      object <- Analyse object None ;;
      S <- get ;;
      if negb (ok S object) then errored a object else
      match object with
      (* Accessing members of modules. *)
      | NameRefExpr _ _ _ (Some (ModuleExpr _ scope)) =>
          (* Replace member access with a name ref *)
          AnalyseNameRef (NameRefExpr (new_node Type_.Unknown (loc a)) name scope None)
      | _ =>
      (* object is actually a type name. *)
      let type_named :=
        match object with
        | NameRefExpr _ _ _ (Some (Decl t)) =>
            if is_decl_of_kind S TypeDecl (Decl t) then Some t else None
        | _ => None
        end in
      match type_named with
      | Some t =>
          match type_of S (Decl t) with
          | Struct _ _ _ _ => abort (Todo "Type introspection for {}")
          (* Handle accessing enumerators. *)
          | Enum _ _ enumerators _ =>
              match List.find (fun en => String.eqb (decl_name (decl_at S en)) name)
                              enumerators with
              | None =>
                  Error (loc a) "Type {} has no enumerator named '{}'" ;;;
                  errored a object
              | Some enumerator =>
                  if sema_errored S (Decl enumerator) then errored a object else
                  if negb (ok S (Decl enumerator)) then
                    Error (loc a) "Enumerator {} cannot be used before it is defined" ;;;
                    errored a object
                  else
                    let a := set_sema_state Done (set_ty (type_of S (Decl enumerator)) a) in
                    value <- enumerator_value S enumerator ;;
                    ret (constant (ty a) (loc a)
                                  (Some (MemberAccessExpr a object name member)) value)
              end
          | _ => abort Unreachable
          end
      | None =>
      (* Type must be a struct type (or something that represents one). *)
      let stripped_object_type := Type_.strip_pointers_and_references (type_of S object) in
      match stripped_object_type with
      (* Access to union member *)
      | Union _ members _ _ =>
          match List.find (fun m => String.eqb (fst m) name) members with
          | None =>
              Error (loc a) "Union {} has no member named '{}'" ;;;
              errored a object
          | Some it =>
              ret (CastExpr (set_lvalue_flag (is_lvalue S object) (new_node (snd it) (loc a)))
                            HardCast object)
          end
      (* Access to sum type member *)
      | Sum _ members _ _ =>
          match find_index (fun m => String.eqb (fst m) name) members 0 with
          | None =>
              Error (loc a) "Sum type {} has no member named '{}'" ;;;
              errored a object
          | Some (index, _) =>
              ret (MemberAccessExpr (set_lvalue_flag true (set_ty stripped_object_type a))
                                    object name index)
          end
      | _ =>
          let struct_members :=
            match stripped_object_type with
            | Struct _ members _ _ => Some members
            | DynamicArray _ _ _ =>
                Some (dynamic_array_struct (externals S) stripped_object_type)
            | _ => None
            end in
          match struct_members with
          | None =>
              Error (location S object) "LHS of member access must be a struct, but was {}" ;;;
              errored a object
          | Some members =>
              (* The struct type must contain the member. *)
              match find_index (fun m => String.eqb (fst (fst m)) name) members 0 with
              | None =>
                  Error (loc a) "Struct {} has no member named '{}'" ;;;
                  errored a object
              | Some (index, it) =>
                  (* Dereference pointers until we have an lvalue to struct.
                     The member access is an lvalue, iff the struct is an
                     lvalue. *)
                  r <- ImplicitDereference object ;;
                  ret (MemberAccessExpr (set_ty (snd (fst it)) (set_lvalue_flag (fst r) a))
                                        (snd r) name index)
              end
          end
      end
      end
      end
  | _ => abort (AssertFailed "as<MemberAccessExpr>")
  end.

(** The dispatch on the kind of the expression (lines 918-1425). *)
Definition Analyse_kind (expr : Expr) (expected_type : option Ty) : M Expr :=
  S <- get ;;
  match expr with
  | ForExpr a init condition increment body =>
      r <- AnalyseAndDiscard init ;;
      let init := snd r in
      r <- AnalyseAndDiscard increment ;;
      let increment := snd r in
      r <- analyse_loop a condition body ;;
      ret (ForExpr a init (fst r) increment (snd r))
  | WhileExpr a condition body =>
      r <- analyse_loop a condition body ;;
      ret (WhileExpr a (fst r) (snd r))
  | ReturnExpr a value =>
      (* as<FuncType>(curr_func->type())->return_type() *)
      if negb (Type_.is_function (type_of S (Decl (curr_func S))))
      then abort (AssertFailed "as<FuncType>(curr_func->type())")
      else AnalyseReturn a value
  | IfExpr a condition then_ otherwise => AnalyseIf a condition then_ otherwise
  | BlockExpr a children => AnalyseBlock a children expected_type
  | CastExpr _ _ _ => AnalyseCast expr
  | CallExpr _ _ _ => AnalyseCall expr
  | Decl addr =>
      match decl_kind (decl_at S addr) with
      | VarDecl => AnalyseVarDecl addr
      (* These are handled by the code that also handles enums. *)
      | EnumeratorDecl => abort Unreachable
      (* Functions are analysed separately. *)
      | FuncDecl =>
          if Type_.is_function (type_of S expr) then ret expr
          else abort (AssertFailed "expr->type()->is_function()")
      | TypeDecl | TypeAliasDecl => ret expr
      end
  | SizeofExpr a x =>
      x <- Analyse x None ;;
      S <- get ;;
      value <- (if is_TypedExpr x then ret (Z.of_N (size (type_of S x)))
                else Error (loc a) "Unhandled expression in sizeof" ;;; ret 0%Z) ;;
      ret (IntegerLiteral (new_node Type_.Int (loc a)) value)
  | AlignofExpr a x =>
      x <- Analyse x None ;;
      S <- get ;;
      value <- (if is_TypedExpr x then ret (Z.of_N (align (type_of S x)))
                else Error (loc a) "Unhandled expression in alignof" ;;; ret 0%Z) ;;
      ret (IntegerLiteral (new_node Type_.Int (loc a)) value)
  | UnaryExpr _ _ _ _ => AnalyseUnary expr
  | NameRefExpr _ _ _ _ => AnalyseNameRef expr
  (* No-ops. *)
  | TypeExpr _ | IntegerLiteral _ _ | StringLiteral _ _ | ModuleExpr _ _
  | ConstantExpr _ _ _ => ret expr
  | IntrinsicCallExpr _ _ _ => AnalyseIntrinsicCall expr
  | CompoundLiteral _ _ _ => AnalyseCompoundLiteral expr expected_type
  | MemberAccessExpr _ _ _ _ => AnalyseMemberAccess expr
  | OverloadSet _ _ => AnalyseOverloadSet expr
  | BinaryExpr _ _ _ _ => AnalyseBinary expr
  end.

Definition Analyse_body (e : Expr) (expected_type : option Ty) : M Expr :=
  S <- get ;;
  let expr := e in
  (* Don't analyse the same expression twice. *)
  if negb (State_eqb (sema_of S expr) NotAnalysed) then ret e else
  expr <- set_sema_in_progress expr ;;
  (* Analyse the type if there is one. *)
  expr <- (if is_TypedExpr expr then
             if negb (has_type expr) then abort (NullDereference "Analyse(tc->type_ref())") else
             S <- get ;;
             t <- AnalyseType (type_of S expr) ;;
             set_type t expr
           else ret expr) ;;
  (* Analyse the expression itself. *)
  e <- Analyse_kind expr expected_type ;;
  (* Do not use `expr` here, as it may have been replaced by something else. *)
  S <- get ;;
  if negb (sema_done_or_errored S e) then set_sema_done e else ret e.

(** ** The type analyser (lines 2398-2840) *)

(** Modelled from the spec: [Scope::declare] ([glint/ast.hh]) fails on a
    conflict unless both the old and the new declaration are functions. *)
Definition declare (scope : nat) (name : string) (decl : nat) : M bool :=
  S <- get ;;
  let is_func (d : nat) := is_decl_of_kind S FuncDecl (Decl d) in
  let existing := find S scope name in
  if negb (bool_decide (existing = [])) && negb (is_func decl && forallb is_func existing)
  then ret false
  else
    let sc := scope_at S scope in
    modify (set_scopes (<[scope := {| parent := parent sc;
                                      symbols := symbols sc ++ [(name, decl)] |}]> (scopes S))) ;;;
    ret true.

(** [Type::Kind::Named] (lines 2413-2461): the walk up the scopes.  The
    result is the resolved type, if any, and whether the node errored. *)
Fixpoint resolve_named (depth : nat) (st : TyInfo) (name : string) (scope : nat)
  : M (option Ty * bool) :=
  S <- get ;;
  let next : M (option Ty * bool) :=
    match depth, parent (scope_at S scope) with
    | S depth, Some p => resolve_named depth st name p
    | _, _ => ret (None, false)
    end in
  match find S scope name with
  | [] => next
  | sym0 :: _ =>
      if is_decl_of_kind S TypeDecl (Decl sym0) || is_decl_of_kind S TypeAliasDecl (Decl sym0)
      then
        Analyse (Decl sym0) None ;;;
        S <- get ;;
        ret (Some (type_of S (Decl sym0)), false)
      else
        Error (t_loc st) "'{}' is not a type" ;;;
        Note (location S (Decl sym0)) "Because of declaration here" ;;;
        ret (None, true)
  end.

Fixpoint collapse_references (elem : Ty) : Ty :=
  match elem with
  | Reference _ e => collapse_references e
  | _ => elem
  end.

Definition errored (st : TyInfo) : TyInfo := {| t_sema := Errored; t_loc := t_loc st |}.

(** [Type::Kind::Function] (lines 2632-2636): the parameters. *)
Fixpoint analyse_params (params : list (string * Ty * Location))
  : M (list (string * Ty * Location)) :=
  match params with
  | [] => ret []
  | (name, type, l) :: rest =>
      type <- DeclTypeDecay type ;;
      type <- AnalyseType type ;;
      rest <- analyse_params rest ;;
      ret ((name, type, l) :: rest)
  end.

(** [usz] arithmetic. *)
Definition usz (x : N) : N := (x mod 2 ^ 64)%N.

(** Modelled from the spec: [utils::AlignTo] ([lcc/utils.hh], not among
    the sources) aligns [value] up to [align], that is, to the least
    multiple of [align] that is not below it.  The spec does not say what
    it does for an alignment of 0. *)
Definition AlignTo (value align : N) : N :=
  usz (((value + align - 1) / align) * align)%N.

(** [Type::Kind::Struct] (lines 2680-2695): the loop over the members,
    with the running [byte_size] and [alignment] and whether the struct
    has been marked as errored. *)
Fixpoint finalise_members (members : list (string * Ty * N))
         (is_errored : bool) (byte_size alignment : N)
  : M (bool * (N * N) * list (string * Ty * N)) :=
  match members with
  | [] => ret (is_errored, (byte_size, alignment), [])
  | (name, type, byte_offset) :: rest =>
      (* Analyse the member type. *)
      type <- AnalyseType type ;;
      type <- DeclTypeDecay type ;;
      if Type_.sema_errored type then
        r <- finalise_members rest true byte_size alignment ;;
        ret (fst r, (name, type, byte_offset) :: snd r)
      else
        (* Align the member to its alignment. *)
        let msize := (size type / 8)%N in
        let malign := (align type / 8)%N in
        let byte_offset := AlignTo byte_size malign in
        let byte_size := usz (byte_offset + msize) in
        let alignment := N.max alignment malign in
        r <- finalise_members rest is_errored byte_size alignment ;;
        ret (fst r, (name, type, byte_offset) :: snd r)
  end.

Definition AnalyseStruct (st : TyInfo) (members : list (string * Ty * N)) : M Ty :=
  r <- finalise_members members false 0 1 ;;
  let is_errored := fst (fst r) in
  let byte_size := fst (snd (fst r)) in
  let alignment := snd (snd (fst r)) in
  (* Align the struct to its alignment.  Empty structs have a size of 0. *)
  ret (Struct (if is_errored then errored st else st) (snd r)
              (if (byte_size =? 0)%N then 0%N else AlignTo byte_size alignment)
              alignment).

(** [Type::Kind::Union] (lines 2598-2624) and [Type::Kind::Sum] (lines
    2576-2591): the loop over the members, with the running [byte_size] and
    [alignment] and whether the type has been marked as errored. *)
Fixpoint finalise_union_members (members : list (string * Ty))
         (is_errored : bool) (byte_size alignment : N)
  : M (bool * (N * N) * list (string * Ty)) :=
  match members with
  | [] => ret (is_errored, (byte_size, alignment), [])
  | (name, type) :: rest =>
      type <- AnalyseType type ;;
      type <- DeclTypeDecay type ;;
      if Type_.sema_errored type then
        r <- finalise_union_members rest true byte_size alignment ;;
        ret (fst r, (name, type) :: snd r)
      else
        let msize := (size type / 8)%N in
        let malign := (align type / 8)%N in
        r <- finalise_union_members rest is_errored
               (N.max byte_size msize) (N.max alignment malign) ;;
        ret (fst r, (name, type) :: snd r)
  end.

(** [Type::Kind::Enum] (lines 2726-2735): the first enumerator whose name
    an earlier one already has. *)
Fixpoint duplicate_enumerator (S : Sema) (names : list string) (enumerators : list nat)
  : option nat :=
  match enumerators with
  | [] => None
  | val :: rest =>
      let name := decl_name (decl_at S val) in
      if existsb (String.eqb name) names then Some val
      else duplicate_enumerator S (name :: names) rest
  end.

(** [isz] is a 64-bit two's complement integer. *)
Definition isz (z : Z) : Z := as_signed (z mod 2 ^ 64).
Definition u64 (z : Z) : Z := (z mod 2 ^ 64)%Z.

(** [Type::Kind::Enum] (lines 2737-2833): the loop that assigns the
    enumerator values; the result tells whether it ran to its end. *)
Fixpoint assign_enumerator_values (e : Ty) (underlying : Ty) (info : EnumInfo)
         (enumerators : list nat) (next_val : Z) : M bool :=
  match enumerators with
  | [] => ret true
  | val :: rest =>
      set_type e (Decl val) ;;;
      S <- get ;;
      match init (decl_at S val) with
      | None =>
          (* For enums with integer underlying type, set the value if there
             is none. *)
          if Type_.is_integer true underlying then
            (* ++next_val *)
            let next_val := isz (next_val + 1) in
            modify (map_decl (set_init (Some (constant e (location S (Decl val)) None
                                                       (ResInt (u64 next_val))))) val) ;;;
            set_sema_done (Decl val) ;;;
            assign_enumerator_values e underlying info rest next_val
          else
            Error (location S (Decl val))
                  "Unhandled underlying type given no init expression provided." ;;;
            set_sema_errored (Decl val) ;;;
            ret false
      | Some i =>
          (* Make sure the expression is well-formed, and has a type. *)
          i <- Analyse i None ;;
          modify (map_decl (set_init (Some i)) val) ;;;
          S <- get ;;
          if negb (ok S i) then
            Error (location S i)
                  "Invalid init expression for {} within enumerator declaration" ;;;
            set_sema_errored (Decl val) ;;;
            ret false
          else
          (* Convert the expression to the underlying type of the enum. *)
          r <- Convert i underlying ;;
          let i := snd r in
          modify (map_decl (set_init (Some i)) val) ;;;
          S <- get ;;
          if negb (fst r) then
            match enum_decl info with
            | Some d =>
                Error (location S i)
                      "Init expression for {} within enumerator declaration {}" ;;;
                Note (location S (Decl d)) "Declared here"
            | None =>
                Error (location S i)
                      "Init expression for {} within enumerator definition" ;;;
                Note (Type_.location e) "Defined here"
            end ;;;
            set_sema_errored (Decl val) ;;;
            ret false
          else
          (* Evaluate the expression at compile-time. *)
          match evaluate S i with
          | None =>
              Error (location S i)
                    "Init expression for {} within enumerator is not a constant expression" ;;;
              set_sema_errored (Decl val) ;;;
              ret false
          | Some res =>
              (* Replace init expression with the constant expression that
                 represents it. *)
              modify (map_decl (set_init (Some (constant (type_of S i) (location S i)
                                                         (Some i) res))) val) ;;;
              set_sema_done (Decl val) ;;;
              (* Set the next value the compiler will assign automatically
                 if no init expression is provided. *)
              next_val <- (if Type_.is_integer true underlying
                           then v <- as_int res ;; ret (isz (as_signed v + 1))
                           else ret next_val) ;;
              (* Declare the enumerator member in the enum's scope. *)
              d <- declare (enum_scope info) (decl_name (decl_at S val)) val ;;
              if negb d then abort (AssertFailed "Failed to declare enumerator member") else
              assign_enumerator_values e underlying info rest next_val
          end
      end
  end.

(** The enumerators point to the enum: once it is marked as done, they
    see it so. *)
Definition retype_enumerators (e : Ty) (enumerators : list nat) : M unit :=
  modify (fun S =>
    fold_left (fun S val =>
                 if Type_.is_enum (type_of S (Decl val))
                 then map_decl (map_decl_attrs (set_ty e)) val S else S)
              enumerators S).

(** [Type::Kind::Enum] (lines 2704-2834); the result tells whether the
    case ran to its [break]. *)
Definition AnalyseEnum (st : TyInfo) (underlying : Ty) (enumerators : list nat)
           (info : EnumInfo) : M (bool * Ty) :=
  underlying <- AnalyseType underlying ;;
  if negb (Type_.ok underlying)
  then ret (false, Enum (errored st) underlying enumerators info) else
  if negb (Type_.is_integer true underlying) then
    Error (t_loc st) "Disallowed underlying type of enum (sorry!)." ;;;
    ret (false, Enum (errored st) underlying enumerators info)
  else
  S <- get ;;
  (* Error on duplicate enumerators. *)
  match duplicate_enumerator S [] enumerators with
  | Some val =>
      Error (location S (Decl val)) "Duplicate enumerator '{}'" ;;;
      ret (false, Enum (errored st) underlying enumerators info)
  | None =>
      (* Assign enumerator values to all enumerators. *)
      let e := Enum st underlying enumerators info in
      completed <- assign_enumerator_values e underlying info enumerators (-1) ;;
      ret (completed, e)
  end.

Definition AnalyseType_body (t : Ty) : M Ty :=
  let type := t in
  (* Don't analyse the same type twice. *)
  if negb (State_eqb (Type_.sema type) NotAnalysed) then ret t else
  let type := Type_.set_sema InProgress type in
  r <- match type with
       (* These are marked as done in the constructor. *)
       | Builtin _ => abort Unreachable
       (* These are no-ops. *)
       | FFIType _ => ret (true, type)
       (* Named types need to be resolved to a type. *)
       | Named st name scope =>
           if bool_decide (name = "") then abort (AssertFailed "NamedType has empty name") else
           S <- get ;;
           r <- resolve_named (length (scopes S)) st name scope ;;
           match fst r with
           | Some ty => ret (true, ty)
           | None =>
               Error (t_loc st) "'{}' does not name a type" ;;;
               ret (true, Named (errored st) name scope)
           end
       (* Pointers to any non-reference types are fine. *)
       | Pointer st elem =>
           elem <- AnalyseType elem ;;
           if Type_.is_reference elem then
             when (Type_.ok elem)
                  (Error (t_loc st) "Cannot create pointer to reference type {}") ;;;
             ret (true, Pointer (errored st) elem)
           else ret (true, Pointer st elem)
       (* References to references are collapsed to a single reference. *)
       | Reference st elem =>
           elem <- AnalyseType elem ;;
           ret (true, Reference st (collapse_references elem))
       (* Apply decltype decay to the element type and prohibit arrays of
          references.  Also check the size. *)
       | Array st elem size =>
           elem <- AnalyseType elem ;;
           elem <- DeclTypeDecay elem ;;
           st <- (if Type_.is_reference elem then
                    when (Type_.ok elem)
                         (Error (t_loc st) "Cannot create array of reference type {}") ;;;
                    ret (errored st)
                  else ret st) ;;
           size <- Analyse size None ;;
           S <- get ;;
           if ok S size then
             match evaluate S size with
             | Some res =>
                 value <- as_int res ;;
                 st <- (if slt value 1 then
                          Error (t_loc st) "Array size must be greater than 0" ;;;
                          ret (errored st)
                        else ret st) ;;
                 ret (true, Array st elem
                                  (constant (type_of S size) (location S size) (Some size)
                                            (ResInt value)))
             | None =>
                 (* Should be an ICE *)
                 Error (t_loc st) "Array with variable size should have been made a dynamic array by the parser" ;;;
                 ret (true, Array (errored st) elem size)
             end
           else ret (true, Array st elem size)
       (* Apply decltype decay to the element type, prohibit arrays of
          references, and, if there is an initial size expression, analyse
          that.  The struct type cached for IRGen is not read here. *)
       | DynamicArray st elem initial_size =>
           elem <- AnalyseType elem ;;
           elem <- DeclTypeDecay elem ;;
           st <- (if Type_.is_reference elem then
                    when (Type_.ok elem)
                         (Error (t_loc st) "Cannot create dynamic array of reference type {}") ;;;
                    ret (errored st)
                  else ret st) ;;
           initial_size <- analyse_optional initial_size None ;;
           ret (true, DynamicArray st elem initial_size)
       | Sum st members byte_size alignment =>
           if length members =? 0 then
             Error (t_loc st)
                   ("Sum type empty!" +:+ newline +:+ "A sum type must have more than one member (otherwise, use a struct, or something)") ;;;
             ret (false, type)
           else if length members =? 1 then
             Error (t_loc st)
                   ("Sum type has a single member." +:+ newline +:+ "A sum type must have more than one member (otherwise, use a struct, or something)") ;;;
             ret (false, type)
           else
           (* Finalise members *)
           r <- finalise_union_members members false byte_size alignment ;;
           ret (true, Sum (if fst (fst r) then errored st else st) (snd r)
                          (fst (snd (fst r))) (snd (snd (fst r))))
       | Union st members _ _ =>
           r <- finalise_union_members members false 0 1 ;;
           ret (true, Union (if fst (fst r) then errored st else st) (snd r)
                            (fst (snd (fst r))) (snd (snd (fst r))))
       (* Analyse the parameters, the return type, and attributes. *)
       | Function st ret_type params attrs =>
           ret_type <- AnalyseType ret_type ;;
           params <- analyse_params params ;;
           let ty := Function st ret_type params attrs in
           (* If the function returns void, it must not be marked discardable. *)
           when (Type_.ok ret_type && Type_.is_void ret_type && Type_.has_attr ty ADiscardable)
                (Error (t_loc st) "Function returning void cannot be 'discardable'") ;;;
           (* Noreturn functions always have side effects. *)
           when (Type_.has_attr ty ANoReturn && Type_.has_attr ty AConst)
                (Error (t_loc st) "'noreturn' function cannot be 'const'") ;;;
           when (Type_.has_attr ty ANoReturn && Type_.has_attr ty APure)
                (Error (t_loc st) "'noreturn' function cannot be 'pure'") ;;;
           (* Check for conflicting inline/noinline attributes. *)
           when (Type_.has_attr ty AInline && Type_.has_attr ty ANoInline)
                (Error (t_loc st) "Function cannot be both 'inline' and 'noinline'") ;;;
           ret (true, ty)
       (* Bit width may not be 0. *)
       | Integer st is_signed bit_width =>
           if (bit_width =? 0)%N then
             Error (t_loc st) "Bit width of integer type cannot be 0" ;;;
             ret (true, Integer (errored st) is_signed bit_width)
           else ret (true, type)
       (* Calculate size, alignment, and member offsets. *)
       | Struct st members _ _ =>
           s <- AnalyseStruct st members ;;
           ret (true, s)
       (* Calculate enumerator values. *)
       | Enum st underlying enumerators info => AnalyseEnum st underlying enumerators info
       end ;;
  let type := snd r in
  if negb (fst r) then ret type else
  (* Do not use `type` here, as it may have been replaced by something else. *)
  if negb (Type_.sema_done_or_errored type) then
    let type := Type_.set_sema Done type in
    match type with
    | Enum _ _ enumerators _ => retype_enumerators type enumerators
    | _ => ret tt
    end ;;;
    ret type
  else ret type.

(** ** Functions (lines 746-879) *)

(** [new (mod) VarDecl(...)]: a fresh declaration in the arena. *)
Definition new_VarDecl (name : string) (type : Ty) (l : Location) : M nat :=
  S <- get ;;
  let addr := length (arena S) in
  modify (set_arena (arena S ++
    [{| decl_kind := VarDecl; decl_name := name; decl_attrs := new_node type l;
        linkage := LocalVar; init := None; dangling_dynarrays := []; decl_scope := 0;
        param_decls := [] |}])) ;;;
  ret addr.

(** Lines 754-779: variable declarations for the parameters. *)
Fixpoint declare_parameters (decl : nat) (params : list (string * Ty * Location)) : M unit :=
  match params with
  | [] => ret tt
  | (name, type, l) :: rest =>
      S <- get ;;
      if bool_decide (name = "") then declare_parameters decl rest else
      (* Check that we don't already have a declaration with that name in
         the function scope. *)
      match find S (decl_scope (decl_at S decl)) name with
      | conflict :: _ =>
          Error (location S (Decl conflict)) "Declaration conflicts with parameter name" ;;;
          Note l "Parameter declared here" ;;;
          declare_parameters decl rest
      | [] =>
          (* Declare the parameter. *)
          d <- new_VarDecl name type l ;;
          declared <- declare (decl_scope (decl_at S decl)) name d ;;
          if negb declared then abort (AssertFailed "decl->scope()->declare(...)") else
          Analyse (Decl d) None ;;;
          modify (fun S => map_decl (fun f => set_param_decls (param_decls f ++ [d]) f) decl S) ;;;
          declare_parameters decl rest
      end
  end.

(** Lines 793-799. *)
Fixpoint report_dangling (dynarrays : list nat) : M unit :=
  match dynarrays with
  | [] => ret tt
  | dynarray :: rest =>
      S <- get ;;
      Error (location S (Decl dynarray)) "You forgot to free this dynamic array" ;;;
      report_dangling rest
  end.

Definition set_body (decl : nat) (body : Expr) : M unit :=
  modify (map_decl (set_init (Some body)) decl).

Definition new_ReturnExpr (value : option Expr) : Expr :=
  ReturnExpr (new_node Type_.Unknown no_location) value.

(** Lines 801-860: the last expression of the body. *)
Definition return_last_expression (decl : nat) (ty : Ty) (body : Expr) : M unit :=
  S <- get ;;
  if negb (Type_.is_void (Type_.return_type ty)) then
    let convert_last (last : Expr) (put : Expr -> Expr) : M unit :=
      if is_ReturnExpr last then set_body decl (put last) else
      r <- Convert last (Type_.return_type ty) ;;
      set_body decl (put (snd r)) ;;;
      if negb (fst r) then
        S <- get ;;
        Error (location S (snd r))
              "Type of last expression {} is not convertible to return type {}" ;;;
        set_error
      else
        last <- LValueToRValue (snd r) true ;;
        (* Insert a `ReturnExpr` which returns `last`. *)
        set_body decl (put (new_ReturnExpr (Some last))) in
    match body with
    | BlockExpr a children =>
        match children with
        | [] =>
            (* For anything except the top-level function, if there is an
               expected return value, there has to be one. *)
            if negb (String.eqb (decl_name (decl_at S decl)) "main") then
              Error (location S (Decl decl))
                    "Function `{}` has non-void return type, and must return a value"
            else
              let inserted_return_value := IntegerLiteral (new_node Type_.Int no_location) 0 in
              convert_last (new_ReturnExpr (Some inserted_return_value))
                           (fun last => BlockExpr a [last])
        | _ =>
            match last children with
            | Some l => convert_last l (fun l => BlockExpr a (removelast children ++ [l]))
            | None => ret tt
            end
        end
    | _ => convert_last body (fun last => last)
    end
  else
    body <- match body with
            | BlockExpr a children =>
                if match last children with
                   | Some l => negb (is_ReturnExpr l)
                   | None => true
                   end
                then ret (BlockExpr a (children ++ [new_ReturnExpr None]))
                else ret body
            | _ => ret body
            end ;;
    body <- Discard body ;;
    set_body decl body.

(** Lines 753-786: the parameters, then the body. *)
Definition analyse_parameters_and_body (decl : nat) (ty : Ty) (body : Expr) : M Expr :=
  (* Create variable declarations for the parameters. *)
  declare_parameters decl (Type_.params ty) ;;;
  (* Gets rid of parameter dynamic array declarations that were falsely
     recorded as dangling (parameters owned by caller). *)
  modify (map_decl (set_dangling []) decl) ;;;
  (* Analyse the body. *)
  body <- Analyse body (Some (Type_.return_type ty)) ;;
  set_body decl body ;;;
  ret body.

(** Lines 788-860: the dangling dynamic arrays, then the last expression. *)
Definition finish_function_body (decl : nat) (ty : Ty) (body : Expr) : M unit :=
  S <- get ;;
  if error_flag S then ret tt else
  (* Report every dynamic array declared in this function (and that is not
     returned) which doesn't have NoLongerViable status. *)
  report_dangling (dangling_dynarrays (decl_at S decl)) ;;;
  return_last_expression decl ty body.

(** Lines 746-861, between the set and the reset of [curr_func]. *)
Definition analyse_function_body (decl : nat) : M unit :=
  S <- get ;;
  let ty := type_of S (Decl decl) in
  if negb (Type_.is_function ty) then abort (AssertFailed "as<FuncType>(decl->type())") else
  (* If the function has no body, then we're done. *)
  match init (decl_at S decl) with
  | None => ret tt
  | Some body =>
      body <- analyse_parameters_and_body decl ty body ;;
      finish_function_body decl ty body
  end.

Definition AnalyseFunctionBody (decl : nat) : M unit :=
  S <- get ;;
  (* tempset curr_func = decl; *)
  let saved := curr_func S in
  modify (set_curr_func decl) ;;;
  analyse_function_body decl ;;;
  modify (set_curr_func saved).

End Analyser.

(** ** Tying the knot

    [Sema_Analyse] and [Sema_AnalyseType] are the two entry points, each
    calling back into both; [fuel] bounds the depth of the calls. *)

Section Knot.

Variable evaluate : Sema -> Expr -> option EvalResult.
Variable size : Ty -> N.
Variable align : Ty -> N.

Fixpoint Sema_Analyse (fuel : nat) (e : Expr) (expected_type : option Ty) {struct fuel}
  : M Expr :=
  match fuel with
  | 0 => abort OutOfFuel
  | S fuel =>
      Analyse_body (Sema_Analyse fuel) (Sema_AnalyseType fuel) evaluate size align
                   e expected_type
  end
with Sema_AnalyseType (fuel : nat) (t : Ty) {struct fuel} : M Ty :=
  match fuel with
  | 0 => abort OutOfFuel
  | S fuel =>
      AnalyseType_body (Sema_Analyse fuel) (Sema_AnalyseType fuel) evaluate size align t
  end.

End Knot.

(** ** Loading imported modules and analysing a module (lines 569-744) *)

(** Modelled from the spec: the constants of [glint/module_description.hh]
    (not among the sources): the header of a metadata blob is the version
    byte 1 followed by [0xC0 0xFF 0xEE]; metadata files end in [.gmeta]; the
    object-file section is [.glint_metadata]. *)
Module ModuleDescription.
Definition default_version : byte := x01.
Definition magic_byte0 : byte := xc0.
Definition magic_byte1 : byte := xff.
Definition magic_byte2 : byte := xee.
End ModuleDescription.

Definition metadata_file_extension : string := ".gmeta".
Definition metadata_section_name : string := ".glint_metadata".

Definition set_linkage (l : Linkage) (d : DeclObj) : DeclObj :=
  {| decl_kind := decl_kind d; decl_name := decl_name d; decl_attrs := decl_attrs d;
     linkage := l; init := init d; dangling_dynarrays := dangling_dynarrays d;
     decl_scope := decl_scope d; param_decls := param_decls d |}.

Definition set_name (n : string) (d : DeclObj) : DeclObj :=
  {| decl_kind := decl_kind d; decl_name := n; decl_attrs := decl_attrs d;
     linkage := linkage d; init := init d; dangling_dynarrays := dangling_dynarrays d;
     decl_scope := decl_scope d; param_decls := param_decls d |}.

Section ModuleAnalysis.

(** [std::filesystem::path::preferred_separator]. *)
Variable preferred_separator : string.
(** The file system: [file p] is the content [File::Read(p)] of the file
    at [p] when [std::filesystem::exists(p)]. *)
Variable file : string -> option (list byte).
(** [sizeof(elf64_header)] and the contents of the section that
    [elf::get_section_from_blob] extracts ([object/elf.hh]). *)
Variable sizeof_elf64_header : nat.
Variable get_section_from_blob : list byte -> string -> list byte.
(** [mod.deserialise(context, blob)]: populates the module and tells
    whether it succeeded. *)
Variable deserialise : list byte -> M bool.
(** [mod.unique_function_name()]. *)
Variable unique_function_name : Sema -> string.

Variable evaluate : Sema -> Expr -> option EvalResult.
Variable size : Ty -> N.
Variable align : Ty -> N.

(** [blob.at(i) == b]; [at] throws when [i] is out of range. *)
Definition byte_at_is (blob : list byte) (i : nat) (b : byte) : M bool :=
  match blob !! i with
  | Some x => ret (Byte.eqb x b)
  | None => abort (OutOfRange "std::vector::at")
  end.

(** The conjunction of [at(i) == b] over [expected], left to right, with
    the short circuit of [and]. *)
Fixpoint bytes_at_are (blob : list byte) (i : nat) (expected : list byte) : M bool :=
  match expected with
  | [] => ret true
  | b :: rest =>
      same <- byte_at_is blob i b ;;
      if same then bytes_at_are blob (S i) rest else ret false
  end.

Definition magic : list byte :=
  [ ModuleDescription.default_version; ModuleDescription.magic_byte0;
    ModuleDescription.magic_byte1; ModuleDescription.magic_byte2 ].

(** The "very basic validation pass" both loaders run on a blob (lines
    621-635 and 662-676). *)
Definition validate (metadata_blob : list byte) : M unit :=
  if bool_decide (metadata_blob = [])
  then abort (AssertFailed "Didn't properly get metadata (it's empty)") else
  good <- bytes_at_are metadata_blob 0 magic ;;
  if good then ret tt
  else abort (AssertFailed "Metadata for module {} at {} has invalid magic bytes").

(** Lines 590-640: the loop over the object-file paths. *)
Fixpoint try_object_paths (paths : list string) (paths_tried : list string)
  : M (bool * list string) :=
  match paths with
  | [] => ret (false, paths_tried)
  | p :: rest =>
      let paths_tried := paths_tried ++ [p] in
      match file p with
      | Some object_file =>
          if bool_decide (object_file = [])
          then abort (AssertFailed "Found object file for module, but the file is empty") else
          (* Determine file-type via magic bytes or extension *)
          is_elf <- (if sizeof_elf64_header <=? length object_file
                     then bytes_at_are object_file 0 [x7f; x45; x4c; x46]
                     else ret false) ;;
          if negb is_elf then abort (AssertFailed "Unrecognized file format of module") else
          let metadata_blob := get_section_from_blob object_file metadata_section_name in
          (* Very basic validation pass *)
          validate metadata_blob ;;;
          (* Deserialise metadata blob into a module *)
          loaded <- deserialise metadata_blob ;;
          ret (loaded, paths_tried)
      | None => try_object_paths rest paths_tried
      end
  end.

Definition object_paths (import_name include_dir : string) : list string :=
  let path_base0 := include_dir +:+ preferred_separator +:+ import_name in
  let path_base1 := include_dir +:+ preferred_separator +:+ "lib" +:+ import_name in
  [ path_base0 +:+ ".o"; path_base0 +:+ ".obj"; path_base0 +:+ ".a";
    path_base1 +:+ ".o"; path_base1 +:+ ".obj"; path_base1 +:+ ".a" ].

(** Lines 575-642. *)
Definition try_get_metadata_blob_from_object
           (import_name include_dir : string) (paths_tried : list string)
  : M (bool * list string) :=
  try_object_paths (object_paths import_name include_dir) paths_tried.

Definition gmeta_path (import_name include_dir : string) : string :=
  include_dir +:+ preferred_separator +:+ import_name +:+ metadata_file_extension.

(** Lines 644-681. *)
Definition try_get_metadata_blob_from_gmeta
           (import_name include_dir : string) (paths_tried : list string)
  : M (bool * list string) :=
  let path := gmeta_path import_name include_dir in
  let paths_tried := paths_tried ++ [path] in
  match file path with
  | Some gmeta_file =>
      let metadata_blob := gmeta_file in
      validate metadata_blob ;;;
      loaded <- deserialise metadata_blob ;;
      ret (loaded, paths_tried)
  | None => ret (false, paths_tried)
  end.

Definition assembly_path (import_name include_dir : string) : string :=
  include_dir +:+ preferred_separator +:+ import_name +:+ ".s".

(** Lines 683-700. *)
Definition try_get_metadata_blob_from_assembly
           (import_name include_dir : string) (paths_tried : list string)
  : M (bool * list string) :=
  let path := assembly_path import_name include_dir in
  let paths_tried := paths_tried ++ [path] in
  match file path with
  | Some _ => abort (Todo "Parse Glint module metadata from assembly file")
  | None => ret (false, paths_tried)
  end.

(** Lines 708-713: the loop over the include directories, with the local
    variables [loaded] and [paths_tried] it leaves behind. *)
Fixpoint search_include_directories (import_name : string) (dirs : list string)
         (paths_tried : list string) : M (bool * list string) :=
  match dirs with
  | [] => ret (false, paths_tried)
  | include_dir :: rest =>
      r <- try_get_metadata_blob_from_gmeta import_name include_dir paths_tried ;;
      r <- (if fst r then ret r
            else try_get_metadata_blob_from_object import_name include_dir (snd r)) ;;
      r <- (if fst r then ret r
            else try_get_metadata_blob_from_assembly import_name include_dir (snd r)) ;;
      if fst r then ret r
      else search_include_directories import_name rest (snd r)
  end.

(** Lines 704-733, for one import. *)
Definition load_import (import : string * Location) : M unit :=
  S <- get ;;
  r <- search_include_directories (fst import) (include_directories S) [] ;;
  if negb (fst r) then
    Error no_location "Could not find imported module {} in any include directory." ;;;
    Note (snd import) "Imported here" ;;;
    abort (Exit 1)
  else ret tt.

Fixpoint for_each {A} (f : A -> M unit) (xs : list A) : M unit :=
  match xs with
  | [] => ret tt
  | x :: xs => f x ;;; for_each f xs
  end.

(** Lines 863-879. *)
Definition AnalyseFunctionSignature (fuel : nat) (decl : nat) : M unit :=
  S <- get ;;
  (* Set a name for the decl if it's empty. *)
  when (bool_decide (decl_name (decl_at S decl) = ""))
       (modify (map_decl (set_name (unique_function_name S)) decl)) ;;;
  (* Typecheck the function type. *)
  S <- get ;;
  t <- Sema_AnalyseType evaluate size align fuel (type_of S (Decl decl)) ;;
  set_type t (Decl decl) ;;;
  S <- get ;;
  let ty := type_of S (Decl decl) in
  if negb (Type_.is_function ty) then abort (AssertFailed "as<FuncType>(decl->type())") else
  if Type_.has_attr ty AUsed then
    match linkage (decl_at S decl) with
    | Internal => modify (map_decl (set_linkage Used) decl)
    | _ => Warning (location S (Decl decl)) "'used' has no effect on this function"
    end
  else ret tt.

(** Lines 702-744. *)
Definition AnalyseModule (fuel : nat) : M unit :=
  (* Load imported modules. *)
  S <- get ;;
  for_each load_import (imports S) ;;;
  (* Analyse the signatures of all functions. *)
  S <- get ;;
  for_each (AnalyseFunctionSignature fuel) (functions S) ;;;
  (* Analyse function bodies. *)
  S <- get ;;
  for_each (AnalyseFunctionBody (Sema_Analyse evaluate size align fuel) evaluate size)
           (functions S).

End ModuleAnalysis.


(** ** A target and a constant evaluator to run the analyser on

    The sizes and alignments of types and the constant evaluator are
    parameters of the analyser.  The examples run it on a 64-bit target,
    with an evaluator that knows integer literals, constants that have been
    evaluated before, and the casts sema wraps around them. *)

Module Example.

Definition size (t : Ty) : N :=
  match t with
  | Builtin BBool | Builtin BByte => 8
  | Builtin BInt | Builtin BUInt => 64
  | Builtin _ => 0
  | FFIType (CChar | CSChar | CUChar) => 8
  | FFIType (CShort | CUShort) => 16
  | FFIType (CInt | CUInt) => 32
  | FFIType _ => 64
  | Integer _ _ bit_width => bit_width
  | Struct _ _ byte_size _ | Union _ _ byte_size _ => byte_size * 8
  | _ => 64
  end%N.

Definition align (t : Ty) : N :=
  match t with
  | Struct _ _ _ alignment | Union _ _ _ alignment => alignment * 8
  | _ => size t
  end%N.

Fixpoint evaluate (S : Sema) (e : Expr) : option EvalResult :=
  match e with
  | IntegerLiteral _ v => Some (ResInt (v mod 2 ^ 64)%Z)
  | ConstantExpr _ _ v => Some v
  | CastExpr _ _ operand => evaluate S operand
  | _ => None
  end.

Definition Analyse (fuel : nat) : Expr -> option Ty -> M Expr :=
  Sema_Analyse evaluate size align fuel.

Definition AnalyseType (fuel : nat) : Ty -> M Ty :=
  Sema_AnalyseType evaluate size align fuel.

(** No location can be sought; a string literal is an array of bytes, one
    more than the string is long; the struct of a dynamic array holds the
    pointer to the data, the size and the capacity. *)
Definition external : Externals :=
  {| seek := fun _ => None;
     string_literal_type := fun s =>
       Array analysed Type_.Byte
             (constant Type_.Int no_location None
                       (ResInt (Z.of_nat (String.length s) + 1)));
     dynamic_array_struct := fun t =>
       [ ("data", Pointer analysed (Type_.elem t), 0%N);
         ("size", Type_.Int, 8%N); ("capacity", Type_.Int, 16%N) ] |}.

(** A module with one scope and nothing in it. *)
Definition empty : Sema :=
  {| error_flag := false; include_directories := []; diags := []; arena := [];
     scopes := [ {| parent := None; symbols := [] |} ]; top_level_scope := 0;
     imports := []; functions := []; curr_func := 0;
     global_scope := 0; externals := Example.external |}.

Definition at_ (p : N) : Location := {| pos := p; len := 1; file_id := 0 |}.

(** An analysed node of type [t]. *)
Definition done (t : Ty) (l : Location) : Attrs :=
  {| ty := t; lvalue := false; sema := Done; loc := l |}.

(** [f : int()], that is, a function without parameters that returns
    [int], and an analysed reference to it. *)
Definition int_function : Ty := Function analysed Type_.Int [] [].
Definition f_ref : Expr := NameRefExpr (done int_function (at_ 10)) "f" 0 None.

(** The unsigned 8-bit integer type and the literal [300], of type [int]. *)
Definition u8 : Ty := Integer analysed false 8.
Definition literal_300 : Expr := IntegerLiteral (done Type_.Int (at_ 20)) 300.

End Example.

Module ExampleEnum.

(** An enumerator declaration, not yet analysed. *)
Definition enumerator (name : string) (init : option Expr) (l : Location) : DeclObj :=
  {| decl_kind := EnumeratorDecl; decl_name := name;
     decl_attrs := new_node Type_.Unknown l; linkage := LocalVar; init := init;
     dangling_dynarrays := []; decl_scope := 0; param_decls := [] |}.

(** [enum { a := 5, b }] over [int]: [a] at address 0, [b] at address 1;
    scope 1 is the scope of the enum. *)
Definition five : Expr := IntegerLiteral (new_node Type_.Int (Example.at_ 31)) 5.

Definition module_ : Sema :=
  {| error_flag := false; include_directories := []; diags := [];
     arena := [ enumerator "a" (Some five) (Example.at_ 30);
                enumerator "b" None (Example.at_ 40) ];
     scopes := [ {| parent := None; symbols := [] |};
                 {| parent := Some 0; symbols := [] |} ];
     top_level_scope := 0; imports := []; functions := []; curr_func := 0;
     global_scope := 0; externals := Example.external |}.

Definition enum_type : Ty :=
  Enum {| t_sema := NotAnalysed; t_loc := Example.at_ 29 |} Type_.Int [0; 1]
       {| enum_scope := 1; enum_decl := None |}.

(** The value an analysed enumerator holds. *)
Definition value_of (S : Sema) (enumerator : nat) : option EvalResult :=
  match init (decl_at S enumerator) with
  | Some (ConstantExpr _ _ v) => Some v
  | _ => None
  end.

End ExampleEnum.

Module ExampleCast.

(** An analysed reference [p] to a variable of type [@int], and the soft
    cast [p as int]. *)
Definition int_ptr : Ty := Pointer analysed Type_.Int.
Definition p_ref : Expr := NameRefExpr (Example.done int_ptr (Example.at_ 50)) "p" 0 None.
Definition soft_cast : Expr := CastExpr (new_node Type_.Int (Example.at_ 51)) SoftCast p_ref.

(** A reference [g] to a variable of the struct type [{ x : int }], of 64
    bits like [int]: the casts [g as int] and [g as! int] reinterpret. *)
Definition wrapper : Ty := Struct analysed [("x", Type_.Int, 0%N)] 8 8.
Definition g_ref : Expr := NameRefExpr (Example.done wrapper (Example.at_ 60)) "g" 0 None.

End ExampleCast.

Module ExampleNameRef.

(** [abcd : int = 1; acbd;]: the variable [abcd], analysed, at address 0
    and declared in scope 0; [acbd] is typed where [abcd] is meant. *)
Definition abcd : DeclObj :=
  {| decl_kind := VarDecl; decl_name := "abcd";
     decl_attrs := {| ty := Type_.Int; lvalue := true; sema := Done;
                      loc := Example.at_ 70 |};
     linkage := LocalVar;
     init := Some (IntegerLiteral (Example.done Type_.Int (Example.at_ 71)) 1);
     dangling_dynarrays := []; decl_scope := 0; param_decls := [] |}.

Definition module_ : Sema :=
  {| error_flag := false; include_directories := []; diags := [];
     arena := [abcd]; scopes := [ {| parent := None; symbols := [("abcd", 0)] |} ];
     top_level_scope := 0; imports := []; functions := []; curr_func := 0;
     global_scope := 0; externals := Example.external |}.

Definition acbd : Expr := NameRefExpr (new_node Type_.Unknown (Example.at_ 80)) "acbd" 0 None.

End ExampleNameRef.

Module ExampleLoader.

(** Two include directories, [a] and [b]; the only file is [b/m.gmeta],
    a header followed by one byte, which deserialises. *)
Definition file (path : string) : option (list byte) :=
  if String.eqb path "b/m.gmeta" then Some (magic ++ [x2a]) else None.

Definition get_section_from_blob (object_file : list byte) (section : string) : list byte :=
  [].

Definition deserialise (blob : list byte) : M bool := ret true.

Definition paths_tried : list string :=
  [ "a/m.gmeta"; "a/m.o"; "a/m.obj"; "a/m.a"; "a/libm.o"; "a/libm.obj"; "a/libm.a";
    "a/m.s"; "b/m.gmeta" ].

End ExampleLoader.

Module ExampleStruct.

(** [struct { a : byte; b : int; c : byte }], not yet analysed. *)
Definition not_analysed (p : N) : TyInfo := {| t_sema := NotAnalysed; t_loc := Example.at_ p |}.

Definition s : Ty :=
  Struct (not_analysed 90)
         [("a", Type_.Byte, 0%N); ("b", Type_.Int, 0%N); ("c", Type_.Byte, 0%N)] 0 0.

(** Analysed: [a] at 0, [b] at 8, [c] at 16; 24 bytes, aligned to 8. *)
Definition s_analysed : Ty :=
  Struct {| t_sema := Done; t_loc := Example.at_ 90 |}
         [("a", Type_.Byte, 0%N); ("b", Type_.Int, 8%N); ("c", Type_.Byte, 16%N)] 24 8.

End ExampleStruct.

Module ExampleDiscard.

(** [g : int()], declared at the top level and analysed; [g(); 1] is the
    body of a block: the call, not yet analysed, and a literal. *)
Definition g : DeclObj :=
  {| decl_kind := FuncDecl; decl_name := "g";
     decl_attrs := {| ty := Example.int_function; lvalue := false; sema := Done;
                      loc := Example.at_ 100 |};
     linkage := Internal; init := None; dangling_dynarrays := []; decl_scope := 0;
     param_decls := [] |}.

Definition module_ : Sema :=
  {| error_flag := false; include_directories := []; diags := []; arena := [g];
     scopes := [ {| parent := None; symbols := [("g", 0)] |} ]; top_level_scope := 0;
     imports := []; functions := [0]; curr_func := 0;
     global_scope := 0; externals := Example.external |}.

Definition g_ref : Expr := NameRefExpr (new_node Type_.Unknown (Example.at_ 110)) "g" 0 None.
Definition call_g : Expr := CallExpr (new_node Type_.Unknown (Example.at_ 111)) g_ref [].
Definition one : Expr := IntegerLiteral (new_node Type_.Int (Example.at_ 120)) 1.
Definition block_attrs : Attrs := new_node Type_.Unknown (Example.at_ 109).

(** The call and the literal once analysed. *)
Definition g_ref_analysed : Expr :=
  NameRefExpr (Example.done Example.int_function (Example.at_ 110)) "g" 0 (Some (Decl 0)).
Definition call_g_analysed : Expr :=
  CallExpr (Example.done Type_.Int (Example.at_ 111)) g_ref_analysed [].
Definition one_analysed : Expr := IntegerLiteral (Example.done Type_.Int (Example.at_ 120)) 1.

End ExampleDiscard.

Module ExampleDangling.

(** The dynamic array type [[int]]. *)
Definition int_array (p : N) : Ty :=
  DynamicArray {| t_sema := NotAnalysed; t_loc := Example.at_ p |} Type_.Int None.

Definition void_function : Ty := Function analysed Type_.Void [] [].

(** A function declaration at address 0, with its scope at 1, and the
    variable [a : [int]] at address 1, declared in that scope. *)
Definition function (type : Ty) (body : Expr) : DeclObj :=
  {| decl_kind := FuncDecl; decl_name := "f";
     decl_attrs := {| ty := type; lvalue := false; sema := Done; loc := Example.at_ 200 |};
     linkage := Internal; init := Some body; dangling_dynarrays := []; decl_scope := 1;
     param_decls := [] |}.

Definition a : DeclObj :=
  {| decl_kind := VarDecl; decl_name := "a";
     decl_attrs := new_node (int_array 211) (Example.at_ 210);
     linkage := LocalVar; init := None; dangling_dynarrays := []; decl_scope := 1;
     param_decls := [] |}.

Definition module_ (type : Ty) (body : Expr) : Sema :=
  {| error_flag := false; include_directories := []; diags := [];
     arena := [function type body; a];
     scopes := [ {| parent := None; symbols := [("f", 0)] |};
                 {| parent := Some 0; symbols := [("a", 1)] |} ];
     top_level_scope := 0; imports := []; functions := [0]; curr_func := 0;
     global_scope := 0; externals := Example.external |}.

Definition block (children : list Expr) : Expr :=
  BlockExpr (new_node Type_.Unknown (Example.at_ 201)) children.

Definition a_ref (p : N) : Expr := NameRefExpr (new_node Type_.Unknown (Example.at_ p)) "a" 1 None.

(** [f : void() { a : [int]; }]: the array is never freed. *)
Definition leaking : Sema := module_ void_function (block [Decl 1]).

(** [f : void() { a : [int]; zzz; }]: never freed either, and [zzz] is not
    declared. *)
Definition zzz : Expr := NameRefExpr (new_node Type_.Unknown (Example.at_ 220)) "zzz" 1 None.
Definition leaking_and_wrong : Sema := module_ void_function (block [Decl 1; zzz]).

(** [f : void() { a : [int]; -a; }]: freed. *)
Definition free_a : Expr :=
  UnaryExpr (new_node Type_.Unknown (Example.at_ 230)) TMinus false (a_ref 231).
Definition freeing : Sema := module_ void_function (block [Decl 1; free_a]).

(** [f : [int]() { a : [int]; return a; }]: returned. *)
Definition array_function : Ty :=
  Function analysed (DynamicArray analysed Type_.Int None) [] [].
Definition return_a : Expr :=
  ReturnExpr (new_node Type_.Unknown (Example.at_ 240)) (Some (a_ref 241)).
Definition returning : Sema := module_ array_function (block [Decl 1; return_a]).

(** [f : void(p : [int]) { a : [int]; -a; }]: the parameter is the caller's. *)
Definition with_parameter : Ty :=
  Function analysed Type_.Void [("p", int_array 251, Example.at_ 250)] [].
Definition taking : Sema := module_ with_parameter (block [Decl 1; free_a]).

(** The state in which the declaration of [a] is entered: [a] is in
    progress. *)
Definition entering (S : Sema) : Sema :=
  map_decl (map_decl_attrs (set_sema_state InProgress)) 1 S.

(** The state once [a] is declared. *)
Definition declared (S : Sema) : Sema :=
  match Example.Analyse 8 (Decl 1) None S with
  | Ok (_, S') => S'
  | Abort _ => S
  end.

End ExampleDangling.
(** * The vocabulary of the properties

    The predicates and the diagnostics in terms of which the properties
    below are stated. *)

(** ** Optimal string alignment *)

Module OSAMatrix.

(** All diagonal cells below [K] of the matrix of a string of length [n]
    against itself hold 0. *)
Definition diag_zero (n K : nat) (d : list N) : Prop :=
  length d = (n + 1) * (n + 1)
  /\ forall k, k < K -> k <= n -> d !! OSA.ref_index n k k = Some 0%N.

End OSAMatrix.

(** ** Conversions *)

(** Whether [Deproceduring] replaces the expression by a call to it: the
    conditions of lines 265-276. *)
Definition deprocedured (S : Sema) (e : Expr) : bool :=
  let ty := type_of S e in
  (Type_.is_function ty || (Type_.is_pointer ty && Type_.is_function (Type_.elem ty)))
  && negb (is_Decl e) && negb (is_BlockExpr e)
  && bool_decide (Type_.params (if Type_.is_function ty then ty else Type_.elem ty) = []).

(** ** Explicit casts *)

Module Casts.

(** The conversions that C2 names, between the type [from] of the
    operand (after [Convert] has had its go) and the type [to] of the
    cast. *)
Definition integer_to_enum (from to : Ty) : bool :=
  Type_.is_integer true from && Type_.is_enum to.
Definition enum_to_integer (from to : Ty) : bool :=
  Type_.is_enum from && Type_.is_integer true to.
Definition pointer_to_integer (from to : Ty) : bool :=
  Type_.is_pointer from && Type_.is_integer true to.
Definition integer_to_pointer (from to : Ty) : bool :=
  Type_.is_integer false from && Type_.is_pointer to.
Definition pointer_to_pointer (from to : Ty) : bool :=
  Type_.is_pointer from && Type_.is_pointer to.

(** A reinterpretation between types of equal size: a cast to a type
    that is not a reference, between types of equal size, that is none of
    the conversions above nor one between integer-like types. *)
Definition reinterpretation (size : Ty -> N) (from to : Ty) : bool :=
  (size from =? size to)%N
  && negb (Type_.is_reference to)
  && negb (Type_.is_integer true from && Type_.is_integer true to)
  && negb (integer_to_enum from to) && negb (enum_to_integer from to)
  && negb (pointer_to_integer from to) && negb (integer_to_pointer from to)
  && negb (pointer_to_pointer from to).

Definition unsafe_cast (l : Location) : Diag :=
  {| kind := DError; where_ := l;
     msg := "Cast from {} to {} is unsafe. If this is intended, use 'as!' instead" |}.

Definition invalid_cast (l : Location) : Diag :=
  {| kind := DError; where_ := l; msg := "Invalid cast from {} to {}" |}.

End Casts.

(** ** Name references *)

Module NameRefs.

(** The distance from the name typed to the name of a declaration. *)
Definition distance (S : Sema) (name : string) (decl : nat) : N :=
  OSA.optimal_string_alignment_distance name (decl_name (decl_at S decl)).

Definition treating_as (l : Location) : Diag :=
  {| kind := DWarning; where_ := l;
     msg := "You typed '{}'; we are treating it as '{}' because it's so close" |}.

Definition declared_here (l : Location) : Diag :=
  {| kind := DNote; where_ := l; msg := "Declared here" |}.

End NameRefs.

(** ** Enumerators *)

Module Enumerators.

Definition name_of (S : Sema) (val : nat) : string := decl_name (decl_at S val).

End Enumerators.

(** ** How a run of the analyser changes the state *)

Definition dangling_of (S : Sema) (f : nat) : list nat := dangling_dynarrays (decl_at S f).

Definition not_yet_analysed (S : Sema) (v : nat) : Prop :=
  decl_kind (decl_at S v) = VarDecl /\ sema_of S (Decl v) = NotAnalysed.

Record evolves (X : nat -> Prop) (S S' : Sema) : Prop := Evolves {
  ev_diags : exists l, diags S' = diags S ++ l;
  ev_error : error_flag S = true -> error_flag S' = true;
  ev_curr : curr_func S' = curr_func S;
  ev_length : length (arena S) <= length (arena S');
  ev_kind : forall v, decl_kind (decl_at S' v) = decl_kind (decl_at S v);
  ev_params : forall f, param_decls (decl_at S' f) = param_decls (decl_at S f);
  ev_sema : forall v, sema_of S (Decl v) <> NotAnalysed -> sema_of S' (Decl v) <> NotAnalysed;
  ev_dangling : forall f v,
      In v (dangling_of S' f) -> In v (dangling_of S f) \/ X v \/ not_yet_analysed S v
}.

Definition nothing : nat -> Prop := fun _ => False.

(** A change of one declaration that keeps what [evolves] speaks of. *)
Definition benign (f : DeclObj -> DeclObj) : Prop :=
  forall d,
    decl_kind (f d) = decl_kind d
    /\ param_decls (f d) = param_decls d
    /\ (sema (decl_attrs d) <> NotAnalysed -> sema (decl_attrs (f d)) <> NotAnalysed)
    /\ (forall v, In v (dangling_dynarrays (f d)) -> In v (dangling_dynarrays d)).

(** A computation all of whose successful runs change the state that way. *)
Definition respects {A : Type} (X : nat -> Prop) (m : M A) : Prop :=
  forall S r S', m S = Ok (r, S') -> evolves X S S'.

(** What the analysis of the parameters keeps from [evolves]: it adds to
    the parameter declarations of the function. *)
Definition advances (S S' : Sema) : Prop :=
  (forall v, sema_of S (Decl v) <> NotAnalysed -> sema_of S' (Decl v) <> NotAnalysed)
  /\ length (arena S) <= length (arena S')
  /\ curr_func S' = curr_func S.

(** ** Discarding the value of an expression *)

Definition not_discardable_error (l : Location) : Diag :=
  {| kind := DError; where_ := l;
     msg := "Discarding return value of function not marked as 'discardable'" |}.

Definition result_unused_warning (l : Location) : Diag :=
  {| kind := DWarning; where_ := l; msg := "Expression result unused" |}.

(** The function type of the callee of a call. *)
Definition function_called (S : Sema) (e : Expr) : option Ty :=
  match e with
  | CallExpr _ callee _ =>
      let t := Type_.strip_pointers_and_references (type_of S callee) in
      if Type_.is_function t then Some t else None
  | _ => None
  end.

(** A call of a function whose type does not carry [discardable]. *)
Definition undiscardable_call (S : Sema) (e : Expr) : bool :=
  match function_called S e with
  | Some t => negb (Type_.has_attr t ADiscardable)
  | None => false
  end.

(** Any other expression: one that is not a call, or a call of a function
    whose type carries [discardable]. *)
Definition other_expression (S : Sema) (e : Expr) : bool :=
  match e with
  | CallExpr _ _ _ =>
      match function_called S e with
      | Some t => Type_.has_attr t ADiscardable
      | None => false
      end
  | _ => true
  end.

(** An expression that has a value to discard: analysed without error, and
    not of type void. *)
Definition has_value (S : Sema) (e : Expr) : bool :=
  ok S e && negb (Type_.is_void (type_of S e)).

(** [discarded_in Analyse children S c S1]: the loop over the children of a
    block (lines 1032-1038), entered in state [S], analyses a child that is
    not the last one to [c], which is ok, reaching state [S1], and goes on
    to discard it. *)
Inductive discarded_in (Analyse : Expr -> option Ty -> M Expr)
  : list Expr -> Sema -> Expr -> Sema -> Prop :=
| discarded_here child rest S c S1 :
    rest <> [] ->
    Analyse child None S = Ok (c, S1) ->
    ok S1 c = true ->
    discarded_in Analyse (child :: rest) S c S1
| discarded_later child rest S c1 S1 c2 S2 c S' :
    rest <> [] ->
    Analyse child None S = Ok (c1, S1) ->
    (if ok S1 c1 then Discard Analyse c1 else ret c1) S1 = Ok (c2, S2) ->
    discarded_in Analyse rest S2 c S' ->
    discarded_in Analyse (child :: rest) S c S'.

(** ** The dangling dynamic arrays of a function *)

Definition forgot_to_free (l : Location) : Diag :=
  {| kind := DError; where_ := l; msg := "You forgot to free this dynamic array" |}.

(** The state after [std::erase(curr_func->dangling_dynarrays(), target)]. *)
Definition erased (target : option Expr) (S : Sema) : Sema :=
  map_decl (fun d => set_dangling (List.filter (fun a => negb (same_pointer target a))
                                               (dangling_dynarrays d)) d)
           (curr_func S) S.

(** The state after [curr_func->dangling_dynarrays().push_back(v)]. *)
Definition pushed (v : nat) (S : Sema) : Sema :=
  map_decl (fun d => set_dangling (dangling_dynarrays d ++ [v]) d) (curr_func S) S.

(** ** Loading imported modules *)

Module Loader.

(** What one attempt at a path came to: there is no file, or the blob of
    the file was handed to the deserialiser, which succeeded or not. *)
Inductive Attempt :=
| Missing (path : string)
| Load (path : string) (metadata_blob : list byte) (loaded : bool).

Definition path_of (a : Attempt) : string :=
  match a with Missing p | Load p _ _ => p end.

Definition failed (a : Attempt) : Prop :=
  match a with Missing _ => True | Load _ _ loaded => loaded = false end.

Definition begins_with_magic (blob : list byte) : Prop :=
  exists rest, blob = magic ++ rest.

Section Search.
Variable preferred_separator : string.
Variable file : string -> option (list byte).
Variable get_section_from_blob : list byte -> string -> list byte.
Variable deserialise : list byte -> M bool.

(** The paths of an include directory, in the order of the search. *)
Definition candidates (import_name include_dir : string) : list string :=
  gmeta_path preferred_separator import_name include_dir
  :: object_paths preferred_separator import_name include_dir
  ++ [assembly_path preferred_separator import_name include_dir].

(** An attempt that took place: a missing file is missing; a blob that
    was loaded is the content of the file or the metadata section of it,
    begins with the magic bytes, and went through the deserialiser. *)
Definition took_place (a : Attempt) : Prop :=
  match a with
  | Missing p => file p = None
  | Load p blob loaded =>
      (exists content,
          file p = Some content
          /\ (blob = content
              \/ blob = get_section_from_blob content metadata_section_name))
      /\ begins_with_magic blob
      /\ exists S S', deserialise blob S = Ok (loaded, S')
  end.

(** The outcome of a run of attempts: when something was loaded, it was
    at the last attempt, and every attempt before failed. *)
Definition outcome (loaded : bool) (attempts : list Attempt) : Prop :=
  if loaded
  then exists earlier p blob,
      attempts = earlier ++ [Load p blob true] /\ Forall failed earlier
  else Forall failed attempts.

(** A search over the candidate paths [among], that started with
    [paths_tried] and came to [r]. *)
Definition searched (paths_tried : list string) (r : bool * list string)
           (among : list string) : Prop :=
  exists attempts,
    snd r = paths_tried ++ map path_of attempts
    /\ map path_of attempts `sublist_of` among
    /\ Forall took_place attempts
    /\ outcome (fst r) attempts.

Definition is_loaded (a : Attempt) : bool :=
  match a with Load _ _ loaded => loaded | Missing _ => false end.

End Search.

End Loader.

(** ** The layout of a struct *)

Module StructLayout.

Section Members.
Variable size : Ty -> N.
Variable align : Ty -> N.

Definition msize (m : string * Ty * N) : N := (size (snd (fst m)) / 8)%N.
Definition malign (m : string * Ty * N) : N := (align (snd (fst m)) / 8)%N.
Definition byte_offset (m : string * Ty * N) : N := snd m.

(** The running size after the members [ms]: the end of the last of
    them, and 0 when there is none. *)
Definition running_size (ms : list (string * Ty * N)) : N :=
  match last ms with
  | Some m => usz (byte_offset m + msize m)
  | None => 0%N
  end.

(** The greatest alignment among the members, and 1 at least. *)
Definition max_alignment (ms : list (string * Ty * N)) : N :=
  fold_left (fun a m => N.max a (malign m)) ms 1%N.

(** Members laid out from the running size [running] on. *)
Fixpoint laid_out (running : N) (ms : list (string * Ty * N)) : Prop :=
  match ms with
  | [] => True
  | m :: rest =>
      byte_offset m = AlignTo running (malign m)
      /\ laid_out (usz (byte_offset m + msize m)) rest
  end.

Definition end_from (running : N) (ms : list (string * Ty * N)) : N :=
  match last ms with
  | Some m => usz (byte_offset m + msize m)
  | None => running
  end.

(** What the members take at most: their sizes and the padding before
    each. *)
Definition extent (ms : list (string * Ty * N)) : N :=
  fold_right (fun m acc => (msize m + malign m + acc)%N) 0%N ms.

Definition fold_alignment (al : N) (ms : list (string * Ty * N)) : N :=
  fold_left (fun a m => N.max a (malign m)) ms al.

End Members.

End StructLayout.


(** * Further parts of the analyser

    The cases of [Sema::Analyse] that the dispatch above leaves out, each
    written against the entry points it calls back into, and the comparison
    of locations. *)

(** ** Comparing locations ([include/lcc/location.hh], lines 43-51) *)

(** [Location::equal_position]: the other location is valid and points to
    the same file position. *)
Definition equal_position (l other : Location) : bool :=
  is_valid other && (file_id l =? file_id other)%N && (pos l =? pos other)%N.

(** [Location::operator==]. *)
Definition Location_eqb (l other : Location) : bool :=
  equal_position l other && (len l =? len other)%N.


(** * The vocabulary of the further properties *)

(** ** Overload sets *)

Module Overloads.

(** Two overloads take as many parameters. *)
Definition same_arity (S : Sema) (oi oj : nat) : bool :=
  length (param_types S oi) =? length (param_types S oj).

(** Two overloads take as many parameters, of equal types one by one. *)
Definition same_parameter_types (S : Sema) (oi oj : nat) : bool :=
  same_arity S oi oj
  && forallb (fun p => Type_.Equal (fst p) (snd p))
             (combine (param_types S oi) (param_types S oj)).

(** Two overloads take as many parameters, and not of equal types. *)
Definition differ (S : Sema) (oi oj : nat) : bool :=
  same_arity S oi oj && negb (same_parameter_types S oi oj).

(** Some overload differs that way from a later one. *)
Fixpoint some_differ (S : Sema) (os : list nat) : bool :=
  match os with
  | [] => false
  | oi :: later => existsb (differ S oi) later || some_differ S later
  end.

Definition same_parameter_types_error (l : Location) : Diag :=
  {| kind := DError; where_ := l;
     msg := "Overload set contains two overloads with the same parameter types" |}.

End Overloads.

(** ** Function types *)

Module Attributes.

Definition has (a : FuncAttr) (attrs : list FuncAttr) : bool :=
  existsb (FuncAttr_eqb a) attrs.

(** The attribute sets that lines 2644-2659 report: [noreturn] with
    [const] or [pure], and [inline] with [noinline]. *)
Definition conflict (attrs : list FuncAttr) : bool :=
  (has ANoReturn attrs && (has AConst attrs || has APure attrs))
  || (has AInline attrs && has ANoInline attrs).

End Attributes.

(** ** The layout of a union *)

Module UnionLayout.

Section Members.
Variable size : Ty -> N.
Variable align : Ty -> N.

Definition msize (m : string * Ty) : N := (size (snd m) / 8)%N.
Definition malign (m : string * Ty) : N := (align (snd m) / 8)%N.

(** The members whose type is not marked as errored. *)
Definition sound (m : string * Ty) : bool := negb (Type_.sema_errored (snd m)).

(** [bound] is the greatest of [least] and the values of [f] at the
    sound members. *)
Definition greatest (f : string * Ty -> N) (least : N) (ms : list (string * Ty)) (bound : N)
  : Prop :=
  (least <= bound)%N
  /\ (forall m, In m ms -> sound m = true -> (f m <= bound)%N)
  /\ (bound = least \/ exists m, In m ms /\ sound m = true /\ bound = f m).

End Members.

End UnionLayout.

(** ** Name references *)

Module Names.

Definition no_longer_viable_error (l : Location) : Diag :=
  {| kind := DError; where_ := l;
     msg := "Reference to a name, {}, that is no longer viable; probably a use-after-free thing" |}.

Definition own_initialiser_error (l : Location) : Diag :=
  {| kind := DError; where_ := l; msg := "Cannot use '{}' in its own initialiser" |}.

(** The attributes of a reference that has been resolved to the
    declaration at [d]: its type and, when it is an lvalue, that flag. *)
Definition resolved_to (S : Sema) (d : nat) (a : Attrs) : Attrs :=
  let a := set_ty (type_of S (Decl d)) a in
  if is_lvalue S (Decl d) then set_lvalue_flag true a else a.

End Names.

(** ** Relations that every step of the analyser keeps *)

(** The declaration of an enumerator of the enum [e] that the loop over
    the enumerators has given the value [v]. *)
Definition assigned (e : Ty) (v : Z) (d : DeclObj) : DeclObj :=
  map_decl_attrs (set_sema_state Done)
    (set_init (Some (constant e (loc (decl_attrs d)) None (ResInt (u64 v))))
              (map_decl_attrs (set_ty e) d)).

(** A change of one declaration that leaves its kind, its name, its
    linkage and its scope alone: the analyser of expressions and types makes
    no other. *)
Definition harmless (f : DeclObj -> DeclObj) : Prop :=
  forall d,
    decl_kind (f d) = decl_kind d /\ decl_name (f d) = decl_name d
    /\ linkage (f d) = linkage d /\ decl_scope (f d) = decl_scope d.

(** The steps by which the analyser of expressions and types changes the
    state: it issues an error, which sets the error flag, a warning or a
    note; it changes a declaration that way; it appends a symbol to a
    scope. *)
Record kept_by_steps (R : Sema -> Sema -> Prop) : Prop := {
  kept_refl : forall S, R S S;
  kept_trans : forall S1 S2 S3, R S1 S2 -> R S2 S3 -> R S1 S3;
  kept_error :
    forall l m S, R S (issue {| kind := DError; where_ := l; msg := m |} true S);
  kept_warning :
    forall l m S, R S (issue {| kind := DWarning; where_ := l; msg := m |} false S);
  kept_note :
    forall l m S, R S (issue {| kind := DNote; where_ := l; msg := m |} false S);
  kept_decl : forall f addr S, harmless f -> R S (map_decl f addr S);
  kept_declare :
    forall scope name decl S,
      R S (set_scopes (<[scope := {| parent := parent (scope_at S scope);
                                      symbols := symbols (scope_at S scope) ++ [(name, decl)] |}]>
                         (scopes S)) S)
}.

(** A computation all of whose successful runs relate the state before
    and the state after by [R]. *)
Definition keeps {A : Type} (R : Sema -> Sema -> Prop) (m : M A) : Prop :=
  forall S r S', m S = Ok (r, S') -> R S S'.

(** The error flag after is the error flag before, or else an error is
    among the diagnostics issued in between. *)
Definition flag_follows_errors (S S' : Sema) : Prop :=
  exists issued,
    diags S' = diags S ++ issued
    /\ error_flag S' = error_flag S || existsb is_error issued.

(** The module is the same, and the declarations that existed are where
    they were, under their name, with their kind, their linkage and their
    scope. *)
Definition same_declarations (S S' : Sema) : Prop :=
  imports S' = imports S /\ functions S' = functions S
  /\ include_directories S' = include_directories S
  /\ top_level_scope S' = top_level_scope S
  /\ length (arena S) <= length (arena S')
  /\ forall v,
      decl_kind (decl_at S' v) = decl_kind (decl_at S v)
      /\ decl_name (decl_at S' v) = decl_name (decl_at S v)
      /\ linkage (decl_at S' v) = linkage (decl_at S v)
      /\ decl_scope (decl_at S' v) = decl_scope (decl_at S v).

(** The scopes are the same in number and keep their parent; the symbols
    of each are those it had, in their order, followed by those declared in
    between. *)
Definition scopes_grow (S S' : Sema) : Prop :=
  length (scopes S') = length (scopes S)
  /\ forall i,
      parent (scope_at S' i) = parent (scope_at S i)
      /\ exists declared, symbols (scope_at S' i) = symbols (scope_at S i) ++ declared.

(** ** Further example programs *)

Module ExampleNames.

(** A variable without a name at address 0, declared in scope 0, and a
    reference to [x], which is not declared. *)
Definition nameless : DeclObj :=
  {| decl_kind := VarDecl; decl_name := "";
     decl_attrs := Example.done Type_.Int (Example.at_ 300);
     linkage := LocalVar; init := None; dangling_dynarrays := []; decl_scope := 0;
     param_decls := [] |}.

Definition with_nameless : Sema :=
  {| error_flag := false; include_directories := []; diags := [];
     arena := [nameless]; scopes := [ {| parent := None; symbols := [("", 0)] |} ];
     top_level_scope := 0; imports := []; functions := []; curr_func := 0;
     global_scope := 0; externals := Example.external |}.

Definition x_ref : Expr := NameRefExpr (new_node Type_.Unknown (Example.at_ 310)) "x" 0 None.

(** [x :: x;]: the variable [x], of inferred type, at address 0, not yet
    analysed, is initialised with itself. *)
Definition x : DeclObj :=
  {| decl_kind := VarDecl; decl_name := "x";
     decl_attrs := new_node Type_.Unknown (Example.at_ 320);
     linkage := LocalVar; init := Some x_ref; dangling_dynarrays := []; decl_scope := 0;
     param_decls := [] |}.

Definition self_initialised : Sema :=
  {| error_flag := false; include_directories := []; diags := [];
     arena := [x]; scopes := [ {| parent := None; symbols := [("x", 0)] |} ];
     top_level_scope := 0; imports := []; functions := []; curr_func := 0;
     global_scope := 0; externals := Example.external |}.

(** An analysed reference to the variable [r], an lvalue of type [&int]. *)
Definition r_ref : Expr :=
  NameRefExpr {| ty := Reference analysed Type_.Int; lvalue := true; sema := Done;
                 loc := Example.at_ 330 |} "r" 0 None.

(** An analysed reference to the dynamic array [a] of [ExampleDangling]. *)
Definition a_attrs : Attrs :=
  {| ty := DynamicArray analysed Type_.Int None; lvalue := true; sema := Done;
     loc := Example.at_ 231 |}.

End ExampleNames.

Module ExampleLocation.

(** Two tokens of the file 1: 3 bytes at 10 and 5 bytes at 20. *)
Definition first : Location := {| pos := 10; len := 3; file_id := 1 |}.
Definition second : Location := {| pos := 20; len := 5; file_id := 1 |}.

End ExampleLocation.

Module ExampleTypes.

(** [@&int], [inline noinline int()] and [union { a : int; b : byte }],
    not yet analysed. *)
Definition pointer_to_reference : Ty :=
  Pointer (ExampleStruct.not_analysed 340) (Reference analysed Type_.Int).

Definition inline_noinline : Ty :=
  Function (ExampleStruct.not_analysed 350) Type_.Int [] [AInline; ANoInline].

Definition u : Ty :=
  Union (ExampleStruct.not_analysed 360) [("a", Type_.Int); ("b", Type_.Byte)] 0 0.

(** [enum { a, b }] and [enum { a, a }] over [int]: the enumerators at
    the addresses 0 and 1; scope 1 is the scope of the enum. *)
Definition enumerators (second : string) : Sema :=
  {| error_flag := false; include_directories := []; diags := [];
     arena := [ ExampleEnum.enumerator "a" None (Example.at_ 370);
                ExampleEnum.enumerator second None (Example.at_ 380) ];
     scopes := [ {| parent := None; symbols := [] |};
                 {| parent := Some 0; symbols := [] |} ];
     top_level_scope := 0; imports := []; functions := []; curr_func := 0;
     global_scope := 0; externals := Example.external |}.

(** [h : used int()] at address 0, not yet analysed. *)
Definition used_function : Ty :=
  Function (ExampleStruct.not_analysed 390) Type_.Int [] [AUsed].

Definition h : DeclObj :=
  {| decl_kind := FuncDecl; decl_name := "h";
     decl_attrs := new_node used_function (Example.at_ 391);
     linkage := Internal; init := None; dangling_dynarrays := []; decl_scope := 0;
     param_decls := [] |}.

Definition with_used : Sema :=
  {| error_flag := false; include_directories := []; diags := []; arena := [h];
     scopes := [ {| parent := None; symbols := [("h", 0)] |} ]; top_level_scope := 0;
     imports := []; functions := [0]; curr_func := 0;
     global_scope := 0; externals := Example.external |}.

Definition unique_function_name (S : Sema) : string := "_XGlint__lambda_0".

End ExampleTypes.

Module ExampleOperators.

(** [1 + 2], [g(1)] for [g : int()], and the
    intrinsic calls [__builtin_memcpy()] and [__builtin_syscall()]. *)
Definition two : Expr := IntegerLiteral (new_node Type_.Int (Example.at_ 400)) 2.

Definition sum : Expr :=
  BinaryExpr (new_node Type_.Unknown (Example.at_ 401)) TPlus ExampleDiscard.one two.

Definition call_attrs : Attrs := new_node Type_.Unknown (Example.at_ 404).
Definition callee_attrs : Attrs := Example.done Example.int_function (Example.at_ 110).

Definition intrinsic_attrs : Attrs := new_node Type_.Unknown (Example.at_ 405).

(** [g : int() { 1 }]: the body of [g], analysed, is yet to return its
    last expression. *)
Definition body : Expr :=
  BlockExpr (Example.done Type_.Int (Example.at_ 406)) [ExampleDiscard.one_analysed].

End ExampleOperators.
(** * Properties *)

Lemma State_eqb_eq a b : State_eqb a b = true <-> a = b.
Proof. destruct a, b; simpl; split; congruence. Qed.

(** ** Generic loop lemma

    A C++ counting loop [for (i = a; i < a + len; ++i) body] is rendered as
    [fold_left body (seq a len)]; the lemma carries a loop invariant indexed
    by the loop counter across it. *)

Lemma fold_left_seq_inv {A : Type} (P : nat -> A -> Prop) (f : A -> nat -> A) :
  forall (count start : nat) (a : A),
    P start a ->
    (forall i x, start <= i < start + count -> P i x -> P (S i) (f x i)) ->
    P (start + count) (fold_left f (seq start count) a).
Proof.
  induction count as [|count IH]; intros start a H0 Hstep; simpl.
  - now rewrite Nat.add_0_r.
  - replace (start + S count) with (S start + count) by lia.
    apply IH.
    + apply Hstep; [lia | exact H0].
    + intros i x Hi. apply Hstep. lia.
Qed.

(** ** The distance of an identifier to itself *)

Module OSAFacts.
Import OSA.

(** *** Frame lemmas for the flat array *)

Lemma length_set_ref n d i j v : length (set_ref n d i j v) = length d.
Proof. apply length_insert. Qed.

Lemma ref_set_ref_eq n (d : list N) i j v :
  ref_index n i j < length d -> ref n (set_ref n d i j v) i j = v.
Proof.
  intros H. unfold ref, set_ref. now rewrite list_lookup_insert_eq.
Qed.

Lemma lookup_set_ref_ne n (d : list N) i j v k :
  ref_index n i j <> k -> set_ref n d i j v !! k = d !! k.
Proof. intros H. unfold set_ref. now apply list_lookup_insert_ne. Qed.

Lemma length_cell s t n d j i : length (cell s t n d j i) = length d.
Proof.
  unfold cell.
  destruct (_ && _); now rewrite ?length_set_ref.
Qed.

(** A cell [(i, j)] of the loop nest ([1 <= j <= n]) shares its slot with a
    diagonal cell [(k, k)] only when it is that cell. *)
Lemma diagonal_slot n i j k :
  1 <= j <= n -> k <= n -> ref_index n i j = ref_index n k k -> i = k /\ j = k.
Proof.
  unfold ref_index. intros Hj Hk H.
  destruct (Nat.lt_trichotomy i k) as [Hlt | [-> | Hgt]].
  - exfalso. assert (i * n + n <= k * n) by nia. lia.
  - lia.
  - exfalso. assert (k * n + n <= i * n) by nia. lia.
Qed.

Lemma cell_other s t n (d : list N) j i k :
  ref_index n i j <> k -> cell s t n d j i !! k = d !! k.
Proof.
  intros H. unfold cell.
  destruct (_ && _); now rewrite ?lookup_set_ref_ne.
Qed.

Lemma size_t_add_0_0 : size_t_add 0 0 = 0%N.
Proof. reflexivity. Qed.

(** Writing the diagonal cell [(j, j)] of equal strings stores 0 as soon as
    its upper-left neighbour holds 0. *)
Lemma cell_diagonal s n (d : list N) j :
  1 <= j -> ref_index n j j < length d ->
  d !! ref_index n (j - 1) (j - 1) = Some 0%N ->
  cell s s n d j j !! ref_index n j j = Some 0%N.
Proof.
  intros Hj Hlen Hprev. unfold cell.
  assert (Hcost : (if decide (at_ s (j - 1) <> at_ s (j - 1)) then 1%N else 0%N) = 0%N).
  { destruct (decide _) as [Hne|]; [now destruct Hne | reflexivity]. }
  rewrite Hcost.
  assert (Hdiag : ref n d (j - 1) (j - 1) = 0%N) by (unfold ref; now rewrite Hprev).
  rewrite Hdiag, size_t_add_0_0.
  assert (Hmin : forall a b, min3 a b 0 = 0%N) by (intros; unfold min3; lia).
  rewrite Hmin.
  destruct (_ && _).
  - rewrite ref_set_ref_eq by exact Hlen.
    unfold set_ref. rewrite list_lookup_insert_eq by now rewrite length_insert.
    f_equal. lia.
  - unfold set_ref. now rewrite list_lookup_insert_eq.
Qed.

(** *** The diagonal of equal strings *)

Section Diagonal.
Variable s : string.
Let n := String.length s.

#[local] Abbreviation diag_zero := (OSAMatrix.diag_zero n).

Lemma ref_index_in_range i j : i <= n -> j <= n -> ref_index n i j < (n + 1) * (n + 1).
Proof. unfold ref_index. intros. nia. Qed.

Lemma init_diag_zero :
  diag_zero 1 (init_first_row n (init_first_column n n (replicate ((n + 1) * (n + 1)) 0%N))).
Proof.
  assert (Hinv : forall (f : nat -> nat) count (d : list N),
    length d = (n + 1) * (n + 1) /\ d !! 0 = Some 0%N ->
    (forall i, f i = 0 -> i = 0) ->
    let d' := fold_left (fun d i => <[f i := N.of_nat i]> d) (seq 0 count) d in
    length d' = (n + 1) * (n + 1) /\ d' !! 0 = Some 0%N).
  { intros f count d Hd Hf.
    apply (fold_left_seq_inv
             (fun _ d => length d = (n + 1) * (n + 1) /\ d !! 0 = Some 0%N)
             (fun d i => <[f i := N.of_nat i]> d) count 0 d Hd).
    intros i x _ [Hlen H0]. split; [now rewrite length_insert|].
    destruct (decide (f i = 0)) as [Hz|Hnz].
    - rewrite Hz, (Hf i Hz). apply list_lookup_insert_eq. rewrite Hlen. lia.
    - now rewrite list_lookup_insert_ne. }
  unfold diag_zero, init_first_row, init_first_column, set_ref, ref_index.
  assert (H1 : let d := fold_left (fun d i => <[i * n + 0 := N.of_nat i]> d) (seq 0 (S n))
                          (replicate ((n + 1) * (n + 1)) 0%N) in
               length d = (n + 1) * (n + 1) /\ d !! 0 = Some 0%N).
  { destruct (decide (n = 0)) as [Hn0|Hn0].
    - rewrite Hn0. simpl. split; reflexivity.
    - apply (Hinv (fun i => i * n + 0)).
      + split; [apply length_replicate | apply lookup_replicate_2; lia].
      + intros i Hi. nia. }
  destruct (Hinv (fun j => 0 * n + j) (S n) _ H1) as [Hlen H0]; [intros i Hi; lia|].
  split; [exact Hlen|].
  intros k Hk _. assert (k = 0) as -> by lia. exact H0.
Qed.

Lemma column_diag_zero j d :
  1 <= j <= n -> diag_zero j d -> diag_zero (S j) (column s s n n d j).
Proof.
  intros Hj Hd.
  pose (P := fun (i : nat) (d : list N) =>
               diag_zero j d /\ (j < i -> d !! ref_index n j j = Some 0%N)).
  assert (HP : P (1 + n) (column s s n n d j)).
  { unfold column. apply fold_left_seq_inv.
    - split; [exact Hd | lia].
    - intros i x Hi [[Hlen Hz] Hjj]. split; [split|].
      + now rewrite length_cell.
      + intros k Hk Hkn. rewrite cell_other; [now apply Hz|].
        intros Heq. apply diagonal_slot in Heq; lia.
      + intros Hlt. destruct (decide (i = j)) as [->|Hne].
        * apply cell_diagonal; [lia | rewrite Hlen; apply ref_index_in_range; lia |].
          apply Hz; lia.
        * rewrite cell_other; [apply Hjj; lia|].
          intros Heq. apply diagonal_slot in Heq; lia. }
  destruct HP as [[Hlen Hz] Hjj]. split; [exact Hlen|].
  intros k Hk Hkn. destruct (decide (k = j)) as [->|Hne].
  - apply Hjj. lia.
  - apply Hz; lia.
Qed.

Lemma fill_diag_zero d : diag_zero 1 d -> diag_zero (1 + n) (fill s s n n d).
Proof.
  intros Hd. unfold fill. apply fold_left_seq_inv; [exact Hd|].
  intros j x Hj Hx. apply column_diag_zero; [lia | exact Hx].
Qed.

(** The distance from an identifier to itself is 0. *)
Lemma osa_self : optimal_string_alignment_distance s s = 0%N.
Proof.
  unfold optimal_string_alignment_distance. fold n.
  destruct (fill_diag_zero _ init_diag_zero) as [_ Hz].
  unfold ref. now rewrite (Hz n) by lia.
Qed.
End Diagonal.

Example osa_abcd_acbd : optimal_string_alignment_distance "acbd" "abcd" = 1%N.
Proof. vm_compute. reflexivity. Qed.

Example osa_bas_fas : optimal_string_alignment_distance "bas" "fas" = 1%N.
Proof. vm_compute. reflexivity. Qed.

End OSAFacts.

(** ** Reasoning about the analysis monad *)

Lemma bind_Ok {A B} (m : M A) (k : A -> M B) (S S' : Sema) (r : B) :
  bind m k S = Ok (r, S') ->
  exists x S1, m S = Ok (x, S1) /\ k x S1 = Ok (r, S').
Proof.
  unfold bind. destruct (m S) as [[x S1]|f]; [|discriminate].
  intros H. now exists x, S1.
Qed.

Lemma ret_Ok {A} (a r : A) (S S' : Sema) : ret a S = Ok (r, S') -> r = a /\ S' = S.
Proof. unfold ret. intros H. now inversion H. Qed.

Lemma get_Ok (S S' r : Sema) : get S = Ok (r, S') -> r = S /\ S' = S.
Proof. unfold get. intros H. now inversion H. Qed.

Lemma modify_Ok (f : Sema -> Sema) (S S' : Sema) (r : unit) :
  modify f S = Ok (r, S') -> S' = f S.
Proof. unfold modify. intros H. now inversion H. Qed.

Lemma abort_Ok {A} (f : Fatal) (S S' : Sema) (r : A) : abort f S = Ok (r, S') -> False.
Proof. discriminate. Qed.

(** One step of inversion of a successful run. *)
Ltac inv_run H :=
  lazymatch type of H with
  | bind _ _ _ = Ok _ =>
      let x := fresh "x" in let S1 := fresh "S" in
      let H1 := fresh "Hrun" in let H2 := fresh "Hrun" in
      apply bind_Ok in H; destruct H as (x & S1 & H1 & H2)
  | ret _ _ = Ok _ => apply ret_Ok in H; destruct H; subst
  | get _ = Ok _ => apply get_Ok in H; destruct H; subst
  | modify _ _ = Ok _ => apply modify_Ok in H; subst
  | abort _ _ = Ok _ => now apply abort_Ok in H
  | Abort _ = Ok _ => discriminate H
  | Ok _ = Ok _ => inversion H; clear H; subst
  end.

(** Inversion of a successful [bind], naming the intermediate result, the
    intermediate state and the two runs. *)
Tactic Notation "inv_bind" hyp(H) "as" ident(x) ident(S1) ident(H1) ident(H2) :=
  apply bind_Ok in H; destruct H as (x & S1 & H1 & H2).

(** The run of [Sema::Analyse] on an expression that is not analysed yet,
    step by step. *)
Lemma Analyse_body_Ok Analyse AnalyseType evaluate size align e t S r S' :
  Analyse_body Analyse AnalyseType evaluate size align e t S = Ok (r, S') ->
  sema_of S e = NotAnalysed ->
  exists expr1 S1 ty S2 expr2 S3 e' S4,
    set_sema_in_progress e S = Ok (expr1, S1)
    /\ has_type expr1 = true
    /\ AnalyseType (type_of S1 expr1) S1 = Ok (ty, S2)
    /\ set_type ty expr1 S2 = Ok (expr2, S3)
    /\ Analyse_kind Analyse AnalyseType evaluate size align expr2 t S3 = Ok (e', S4)
    /\ (if negb (sema_done_or_errored S4 e') then set_sema_done e' else ret e') S4
       = Ok (r, S').
Proof.
  intros H Hna. unfold Analyse_body in H.
  inv_bind H as S0 S0' Hg H. inv_run Hg. rewrite Hna in H. cbn [State_eqb negb] in H.
  inv_bind H as expr1 S1 H1 H. inv_bind H as expr2 S3 H3 H.
  unfold is_TypedExpr in H3. destruct (has_type expr1) eqn:Ht; [|discriminate H3].
  cbn [negb] in H3. inv_bind H3 as S0 S0' Hg H3. inv_run Hg.
  inv_bind H3 as ty S2 H2 H3.
  inv_bind H as e' S4 H4 H. inv_bind H as S0 S0' Hg H. inv_run Hg.
  exists expr1, S1, ty, S2, expr2, S3, e', S4. auto 10.
Qed.

(** The same run, forwards, on an expression that has a type. *)
Lemma Analyse_body_typed Analyse AnalyseType evaluate size align e t S :
  has_type e = true ->
  Analyse_body Analyse AnalyseType evaluate size align e t S
  = (S0 <- get ;;
     if negb (State_eqb (sema_of S0 e) NotAnalysed) then ret e else
     expr <- set_sema_in_progress e ;;
     S1 <- get ;;
     t0 <- AnalyseType (type_of S1 expr) ;;
     expr <- set_type t0 expr ;;
     e' <- Analyse_kind Analyse AnalyseType evaluate size align expr t ;;
     S4 <- get ;;
     if negb (sema_done_or_errored S4 e') then set_sema_done e' else ret e') S.
Proof.
  intros Ht.
  assert (Hp : forall expr1 S1,
             set_sema_in_progress e S = Ok (expr1, S1) -> has_type expr1 = true).
  { intros expr1 S1 H. destruct e; cbn in H; inv_run H; try reflexivity; exact Ht. }
  unfold Analyse_body, is_TypedExpr, bind, get.
  destruct (negb (State_eqb (sema_of S e) NotAnalysed)); [reflexivity|].
  destruct (set_sema_in_progress e S) as [[expr1 S1]|f] eqn:H1; [|reflexivity].
  rewrite (Hp _ _ eq_refl). cbn [negb].
  destruct (AnalyseType (type_of S1 expr1) S1) as [[t0 S2]|f]; reflexivity.
Qed.

(** ** A return without operand (C4) *)

(** C4.  Analysing a return expression that has no operand reads the type
    of the operand all the same: whatever the analyser state and the return
    type of the enclosing function, the analysis ends in the dereference of
    the null operand at line 944 and issues neither the error "Non-void
    function must return a value" nor a successful result. *)
Theorem AnalyseReturn_without_operand :
  forall (Analyse : Expr -> option Ty -> M Expr)
         (evaluate : Sema -> Expr -> option EvalResult) (size : Ty -> N)
         (a : Attrs) (S : Sema),
    AnalyseReturn Analyse evaluate size a None S
    = Abort (NullDereference "r->value()->type()").
Proof. reflexivity. Qed.

(** The same through the entry point: [return;] in a function that returns
    [void], and in one that returns [int]. *)
Example return_without_operand_in_void_function :
  let f := {| decl_kind := FuncDecl; decl_name := "f";
              decl_attrs := Example.done (Function analysed Type_.Void [] []) (Example.at_ 1);
              linkage := Internal; init := None; dangling_dynarrays := [];
              decl_scope := 0; param_decls := [] |} in
  Example.Analyse 5 (ReturnExpr (new_node Type_.Void (Example.at_ 2)) None) None
                  (set_arena [f] Example.empty)
  = Abort (NullDereference "r->value()->type()").
Proof. reflexivity. Qed.

Example return_without_operand_in_int_function :
  let f := {| decl_kind := FuncDecl; decl_name := "f";
              decl_attrs := Example.done Example.int_function (Example.at_ 1);
              linkage := Internal; init := None; dangling_dynarrays := [];
              decl_scope := 0; param_decls := [] |} in
  Example.Analyse 5 (ReturnExpr (new_node Type_.Void (Example.at_ 2)) None) None
                  (set_arena [f] Example.empty)
  = Abort (NullDereference "r->value()->type()").
Proof. reflexivity. Qed.

(** ** Scoring a conversion (C1) *)

Lemma Deproceduring_not_deprocedured Analyse S e :
  deprocedured S e = false -> Deproceduring Analyse e S = Ok ((false, e), S).
Proof.
  unfold deprocedured, Deproceduring, bind, get, ret.
  destruct (Type_.is_function (type_of S e)) eqn:Hf; simpl.
  - destruct (is_Decl e); simpl; [reflexivity|].
    destruct (is_BlockExpr e); simpl; [reflexivity|].
    destruct (bool_decide _); simpl; [discriminate | reflexivity].
  - destruct (Type_.is_pointer (type_of S e)); simpl; [|reflexivity].
    destruct (Type_.is_function (Type_.elem (type_of S e))); simpl; [|reflexivity].
    destruct (is_Decl e); simpl; [reflexivity|].
    destruct (is_BlockExpr e); simpl; [reflexivity|].
    destruct (bool_decide _); simpl; [discriminate | reflexivity].
Qed.

(** Apart from deproceduring, [TryConvert] is a pure score: it leaves the
    slot and the analyser alone. *)
Lemma TryConvert_frame Analyse evaluate size e to S r S' :
  deprocedured S e = false ->
  TryConvert Analyse evaluate size e to S = Ok (r, S') ->
  snd r = e /\ S' = S.
Proof.
  intros Hd. unfold TryConvert, ConvertImpl.
  unfold bind at 1. unfold get at 1.
  repeat match goal with
         | |- context [Deproceduring Analyse e S] =>
             rewrite (Deproceduring_not_deprocedured Analyse S e Hd)
         | |- (if ?b then _ else _) _ = _ -> _ => destruct b
         | |- (match ?x with _ => _ end) _ = _ -> _ => destruct x
         | |- ret _ _ = Ok _ -> _ => intros H; apply ret_Ok in H; destruct H; subst; auto
         | |- abort _ _ = Ok _ -> _ => discriminate
         | |- bind (ret _) _ _ = _ -> _ => unfold bind at 1; unfold ret at 1
         | |- bind get _ _ = _ -> _ => unfold bind at 1; unfold get at 1
         | |- bind (Ok _) _ = _ -> _ => idtac
         | |- bind (as_int ?r) _ _ = _ -> _ =>
             destruct r; unfold bind at 1; unfold as_int; unfold ret at 1; try discriminate
         | |- bind (abort _) _ _ = _ -> _ => discriminate
         | |- bind (if ?b then _ else _) _ _ = _ -> _ => destruct b
         | |- bind (Deproceduring _ _) _ _ = _ -> _ => unfold bind at 1
         | _ => progress cbv beta iota zeta
         | _ => progress simpl fst
         | _ => progress simpl snd
         end.
Qed.

(** C1.  [TryConvert] does not only score: asked whether a reference to
    the parameterless function [f] converts to [int], it answers with score
    1 and leaves a call [f()] in the slot, analysed, where the reference
    was. *)
Theorem TryConvert_replaces_function_reference :
  forall S : Sema,
    let call := CallExpr (Example.done Type_.Int (Example.at_ 10)) Example.f_ref [] in
    TryConvert (Example.Analyse 2) Example.evaluate Example.size Example.f_ref Type_.Int S
    = Ok ((1%Z, call), S)
    /\ call <> Example.f_ref
    /\ type_of S call <> type_of S Example.f_ref.
Proof.
  intros S call. split; [reflexivity|]. split; discriminate.
Qed.

(** ** Integer constants (C3) *)

(** C3.  The literal [300], of type [int], is converted to the unsigned
    8-bit integer type although it is above [2^8 - 1 = 255]: the range check
    of line 203 asks whether the source type is unsigned, and [int] is not.
    The conversion succeeds with score 1 and the slot holds a [ConstantExpr]
    of value 300 and type [u8]. *)
Theorem Convert_constant_out_of_range :
  forall S : Sema,
    let cast := CastExpr (Example.done Example.u8 (Example.at_ 20)) ImplicitCast
                         Example.literal_300 in
    Example.evaluate S Example.literal_300 = Some (ResInt 300)
    /\ (MaxBitValue (Example.size Example.u8) < 300)%Z
    /\ Type_.is_unsigned_int Example.u8 = true
    /\ TryConvert (Example.Analyse 2) Example.evaluate Example.size
                  Example.literal_300 Example.u8 S
       = Ok ((1%Z, Example.literal_300), S)
    /\ Convert (Example.Analyse 2) Example.evaluate Example.size
               Example.literal_300 Example.u8 S
       = Ok ((true, ConstantExpr (Example.done Example.u8 (Example.at_ 20))
                                 (Some cast) (ResInt 300)), S).
Proof.
  intros S cast. repeat split; reflexivity.
Qed.

(** ** Explicit casts (C2) *)

Module CastFacts.

Import Casts.

Lemma enum_is_not_integer t : Type_.is_enum t = true -> Type_.is_integer true t = false.
Proof. destruct t; simpl; congruence. Qed.

Lemma pointer_is_not_integer t : Type_.is_pointer t = true -> Type_.is_integer true t = false.
Proof. destruct t; simpl; congruence. Qed.

Lemma pointer_is_not_enum t : Type_.is_pointer t = true -> Type_.is_enum t = false.
Proof. destruct t; simpl; congruence. Qed.

Lemma pointer_is_not_reference t : Type_.is_pointer t = true -> Type_.is_reference t = false.
Proof. destruct t; simpl; congruence. Qed.

Lemma enum_is_not_reference t : Type_.is_enum t = true -> Type_.is_reference t = false.
Proof. destruct t; simpl; congruence. Qed.

Lemma integer_is_not_reference t :
  Type_.is_integer true t = true -> Type_.is_reference t = false.
Proof. destruct t; simpl; congruence. Qed.

Lemma integer_without_bool t :
  Type_.is_integer false t = true -> Type_.is_integer true t = true.
Proof. destruct t as [[]| | | | | | | | | | | |]; simpl; congruence. Qed.

Section Verdict.
Variable Analyse : Expr -> option Ty -> M Expr.
Variable evaluate : Sema -> Expr -> option EvalResult.
Variable size : Ty -> N.

(** What is left of [AnalyseCast] for an explicit cast once the operand
    has analysed fine and [Convert] has refused: lines 1870-1907. *)
Lemma AnalyseCast_refused a kind operand S operand1 S1 operand2 S2 :
  sema_made_cast kind = false ->
  Analyse operand (Some (ty a)) S = Ok (operand1, S1) ->
  ok S1 operand1 = true ->
  Convert Analyse evaluate size operand1 (ty a) S1 = Ok ((false, operand2), S2) ->
  let from := type_of S2 operand2 in
  let to := ty a in
  let c := CastExpr a kind operand2 in
  AnalyseCast Analyse evaluate size (CastExpr a kind operand) S =
  (if Type_.is_reference to then
     Ok (c, issue {| kind := DError; where_ := loc a;
                     msg := "Invalid cast of rvalue to reference type" |} true S2)
   else if (Type_.is_integer true from || Type_.is_enum from) && Type_.is_integer true to
   then Ok (c, S2)
   else if Type_.is_pointer from && Type_.is_integer true to then Ok (c, S2)
   else if (Type_.is_integer true from && Type_.is_enum to)
           || (Type_.is_pointer to && (Type_.is_integer false from || Type_.is_pointer from))
   then Ok (c, if is_hard_cast kind then S2 else issue (unsafe_cast (loc a)) true S2)
   else if (size from =? size to)%N && is_hard_cast kind then Ok (c, S2)
   else Ok (c, issue (invalid_cast (loc a)) true S2)).
Proof.
  intros Hk Ha Hok Hc from to c.
  unfold AnalyseCast. rewrite Hk.
  unfold bind at 1. rewrite Ha.
  unfold bind at 1. unfold get at 1. rewrite Hok.
  change (negb true) with false. cbv iota.
  unfold bind at 1. rewrite Hc. cbn [fst snd].
  unfold bind at 1. unfold get at 1.
  fold from. fold to. fold c.
  destruct (Type_.is_reference to); [reflexivity|].
  destruct ((Type_.is_integer true from || Type_.is_enum from) && Type_.is_integer true to);
    [reflexivity|].
  destruct (Type_.is_pointer from && Type_.is_integer true to); [reflexivity|].
  destruct (Type_.is_integer true from && Type_.is_enum to); simpl orb; cbv iota.
  - destruct kind; try discriminate; reflexivity.
  - destruct (Type_.is_pointer to && (Type_.is_integer false from || Type_.is_pointer from)).
    + destruct kind; try discriminate; reflexivity.
    + destruct ((size from =? size to)%N); destruct kind; try discriminate; reflexivity.
Qed.
End Verdict.

End CastFacts.

(** C2, as amended.  For an explicit cast whose operand analysed fine and
    that [Convert] refused: integer-to-enum, integer-to-pointer and
    pointer-to-pointer casts are accepted only in the hard form, and the soft
    form issues the error "... is unsafe"; so is a reinterpretation between
    types of equal size, whose soft form issues the error "Invalid cast";
    enum-to-integer and pointer-to-integer casts are accepted in both forms,
    without a diagnostic. *)
Theorem explicit_cast_hard_form :
  forall (Analyse : Expr -> option Ty -> M Expr)
         (evaluate : Sema -> Expr -> option EvalResult) (size : Ty -> N)
         (a : Attrs) (kind : CastKind) (operand operand1 operand2 : Expr) (S S1 S2 : Sema),
    sema_made_cast kind = false ->
    Analyse operand (Some (ty a)) S = Ok (operand1, S1) ->
    ok S1 operand1 = true ->
    Convert Analyse evaluate size operand1 (ty a) S1 = Ok ((false, operand2), S2) ->
    let from := type_of S2 operand2 in
    let to := ty a in
    exists S3,
      AnalyseCast Analyse evaluate size (CastExpr a kind operand) S
      = Ok (CastExpr a kind operand2, S3)
      /\ (Casts.enum_to_integer from to || Casts.pointer_to_integer from to = true ->
          S3 = S2)
      /\ (Casts.integer_to_enum from to || Casts.integer_to_pointer from to
          || Casts.pointer_to_pointer from to = true ->
          (is_hard_cast kind = true -> S3 = S2)
          /\ (is_hard_cast kind = false ->
              S3 = issue (Casts.unsafe_cast (loc a)) true S2))
      /\ (Casts.reinterpretation size from to = true ->
          (is_hard_cast kind = true -> S3 = S2)
          /\ (is_hard_cast kind = false ->
              S3 = issue (Casts.invalid_cast (loc a)) true S2)).
Proof.
  intros Analyse evaluate size a kind operand operand1 operand2 S S1 S2 Hk Ha Hok Hc from to.
  pose proof (CastFacts.AnalyseCast_refused Analyse evaluate size a kind operand S
                operand1 S1 operand2 S2 Hk Ha Hok Hc) as H.
  cbv zeta in H. fold from in H. fold to in H. rewrite H. clear H.
  unfold Casts.reinterpretation, Casts.enum_to_integer, Casts.pointer_to_integer,
    Casts.integer_to_enum, Casts.integer_to_pointer, Casts.pointer_to_pointer.
  pose proof (CastFacts.enum_is_not_integer to) as F1.
  pose proof (CastFacts.pointer_is_not_integer to) as F2.
  pose proof (CastFacts.pointer_is_not_enum to) as F3.
  pose proof (CastFacts.pointer_is_not_reference to) as F4.
  pose proof (CastFacts.enum_is_not_reference to) as F5.
  pose proof (CastFacts.integer_is_not_reference to) as F6.
  pose proof (CastFacts.integer_without_bool from) as F7.
  pose proof (CastFacts.enum_is_not_integer from) as F8.
  pose proof (CastFacts.pointer_is_not_integer from) as F9.
  pose proof (CastFacts.pointer_is_not_enum from) as F10.
  destruct kind; try discriminate Hk;
    destruct (Type_.is_reference to), (Type_.is_integer true to), (Type_.is_enum to),
      (Type_.is_pointer to);
    try (exfalso; intuition congruence);
    destruct (Type_.is_integer true from), (Type_.is_integer false from),
      (Type_.is_enum from), (Type_.is_pointer from);
    try (exfalso; intuition congruence);
    destruct ((size from =? size to)%N); cbn;
    (eexists; split; [reflexivity|]);
    repeat split; intros; try discriminate; reflexivity.
Qed.

(** The soft cast [p as int] of a pointer, from end to end. *)
Lemma explicit_cast_hard_form_witness :
  exists S3,
    AnalyseCast (Example.Analyse 3) Example.evaluate Example.size
                ExampleCast.soft_cast Example.empty
    = Ok (CastExpr (new_node Type_.Int (Example.at_ 51)) SoftCast ExampleCast.p_ref, S3)
    /\ S3 = Example.empty.
Proof.
  destruct (explicit_cast_hard_form (Example.Analyse 3) Example.evaluate Example.size
              (new_node Type_.Int (Example.at_ 51)) SoftCast
              ExampleCast.p_ref ExampleCast.p_ref ExampleCast.p_ref
              Example.empty Example.empty Example.empty
              eq_refl eq_refl eq_refl eq_refl) as (S3 & Hrun & Haccepted & _).
  exists S3. split; [exact Hrun | apply Haccepted; reflexivity].
Defined.

(** C2 fails as stated: the soft cast [p as int] of a pointer [p] to an
    integer is a pointer-to-integer conversion that [Convert] refuses, and
    its analysis issues no error. *)
Lemma soft_pointer_to_integer_cast_accepted :
  Casts.pointer_to_integer (type_of Example.empty ExampleCast.p_ref) Type_.Int = true
  /\ Convert (Example.Analyse 3) Example.evaluate Example.size
             ExampleCast.p_ref Type_.Int Example.empty
     = Ok ((false, ExampleCast.p_ref), Example.empty)
  /\ ~ (forall c S',
          AnalyseCast (Example.Analyse 3) Example.evaluate Example.size
                      ExampleCast.soft_cast Example.empty = Ok (c, S') ->
          exists d, In d (diags S') /\ is_error d = true).
Proof.
  split; [reflexivity|]. split; [reflexivity|].
  intros H.
  destruct (H _ _ eq_refl) as (d & Hin & _).
  exact Hin.
Qed.

(** ** Spelling correction of name references (C5) *)

Module NameRefFacts.

Import NameRefs.

(** Once a declaration at distance 1 is the closest, it stays so: no
    later declaration is closer, as none is at distance 0. *)
Lemma closest_declaration_settled S name decls d S0 :
  Forall (fun x => distance S name x <> 0%N) decls ->
  closest_declaration S name decls (Some d) 1 S0 = Ok ((Some d, 1%N), S0).
Proof.
  induction decls as [|x decls IH]; intros Hnz; [reflexivity|].
  inversion Hnz as [|? ? Hx Hrest]; subst. simpl.
  fold (distance S name x).
  destruct (N.eqb_spec (distance S name x) 0); [contradiction|].
  destruct (N.ltb_spec (distance S name x) 1); [lia|].
  now apply IH.
Qed.

(** The search returns the first declaration at distance 1 when no
    declaration is at distance 0. *)
Lemma closest_declaration_first S name decls d S0 :
  forall least_distance_decl least_distance,
    (1 < least_distance)%N ->
    Forall (fun x => distance S name x <> 0%N) decls ->
    List.find (fun x => (distance S name x =? 1)%N) decls = Some d ->
    closest_declaration S name decls least_distance_decl least_distance S0
    = Ok ((Some d, 1%N), S0).
Proof.
  induction decls as [|x decls IH]; intros ld l Hl Hnz Hfind; [discriminate|].
  inversion Hnz as [|? ? Hx Hrest]; subst. simpl in *.
  fold (distance S name x).
  destruct (N.eqb_spec (distance S name x) 0); [contradiction|].
  destruct (N.eqb_spec (distance S name x) 1) as [H1|H1].
  - inversion Hfind; subst. rewrite H1.
    destruct (N.ltb_spec 1 l); [|lia].
    now apply closest_declaration_settled.
  - destruct (N.ltb_spec (distance S name x) l).
    + apply IH; [lia | assumption | assumption].
    + apply IH; assumption.
Qed.

End NameRefFacts.



(** ** Loading an imported module (C7) *)

Module LoaderFacts.

Import Loader.

Section Search.
Variable preferred_separator : string.
Variable file : string -> option (list byte).
Variable sizeof_elf64_header : nat.
Variable get_section_from_blob : list byte -> string -> list byte.
Variable deserialise : list byte -> M bool.

#[local] Abbreviation candidates := (Loader.candidates preferred_separator).
#[local] Abbreviation took_place := (Loader.took_place file get_section_from_blob deserialise).
#[local] Abbreviation searched := (Loader.searched file get_section_from_blob deserialise).

Lemma searched_app paths_tried r1 r2 among1 among2 :
  searched paths_tried r1 among1 -> fst r1 = false ->
  searched (snd r1) r2 among2 ->
  searched paths_tried r2 (among1 ++ among2).
Proof.
  intros (at1 & Hp1 & Hs1 & Ht1 & Ho1) Hf (at2 & Hp2 & Hs2 & Ht2 & Ho2).
  exists (at1 ++ at2). rewrite map_app. repeat split.
  - rewrite Hp2, Hp1. now rewrite app_assoc.
  - now apply sublist_app.
  - now apply Forall_app.
  - rewrite Hf in Ho1. unfold outcome in *. destruct (fst r2).
    + destruct Ho2 as (earlier & p & blob & -> & He).
      exists (at1 ++ earlier), p, blob. split; [now rewrite app_assoc|].
      now apply Forall_app.
    + now apply Forall_app.
Qed.

Lemma searched_none paths_tried : searched paths_tried (false, paths_tried) [].
Proof.
  exists []. simpl. rewrite app_nil_r. repeat split; constructor.
Qed.

Lemma searched_weaken paths_tried r among among' :
  searched paths_tried r among -> among `sublist_of` among' ->
  searched paths_tried r among'.
Proof.
  intros (ats & Hp & Hs & Ht & Ho) Hsub. exists ats. repeat split; try assumption.
  now transitivity among.
Qed.

(** [bytes_at_are] holds exactly of the blobs that carry [expected]
    at index [i]. *)
Lemma bytes_at_are_true blob expected : forall i S S',
  bytes_at_are blob i expected S = Ok (true, S') ->
  S' = S /\ take (length expected) (drop i blob) = expected.
Proof.
  induction expected as [|b expected IH]; intros i S S' H; simpl in *.
  - inv_run H. now rewrite take_0.
  - inv_run H. unfold byte_at_is in Hrun.
    destruct (blob !! i) as [y|] eqn:Hx; [|discriminate].
    inv_run Hrun. destruct (Byte.eqb y b) eqn:Hb; [|inv_run Hrun0; discriminate].
    apply byte_dec_bl in Hb. subst y.
    apply IH in Hrun0. destruct Hrun0 as [-> Htake]. split; [reflexivity|].
    rewrite (drop_S _ _ _ Hx). simpl. now rewrite Htake.
Qed.

Lemma bytes_at_are_state blob expected : forall i S r S',
  bytes_at_are blob i expected S = Ok (r, S') -> S' = S.
Proof.
  induction expected as [|b expected IH]; intros i S r S' H; simpl in *.
  - now inv_run H.
  - inv_run H. unfold byte_at_is in Hrun.
    destruct (blob !! i) as [y|]; [|discriminate].
    inv_run Hrun. destruct (Byte.eqb y b); [now apply IH in Hrun0|now inv_run Hrun0].
Qed.

(** A blob passes the validation only if it begins with the magic
    bytes. *)
Lemma validate_Ok blob S r S' :
  validate blob S = Ok (r, S') -> S' = S /\ begins_with_magic blob.
Proof.
  unfold validate. destruct (bool_decide (blob = [])); [discriminate|].
  intros H. inv_run H. destruct x.
  - apply bytes_at_are_true in Hrun. destruct Hrun as [-> Htake].
    inv_run Hrun0. split; [reflexivity|].
    exists (drop (length magic) blob).
    rewrite drop_0 in Htake. now rewrite <- Htake at 1; rewrite take_drop.
  - discriminate.
Qed.

(** Any other blob is a hard error. *)
Lemma validate_hard_error blob S :
  ~ begins_with_magic blob -> exists f, validate blob S = Abort f.
Proof.
  intros Hno. destruct (validate blob S) as [[r S']|f] eqn:H; [|now exists f].
  apply validate_Ok in H. now destruct H.
Qed.

(** One attempt. *)
Lemma searched_one paths_tried a :
  took_place a ->
  searched paths_tried (is_loaded a, paths_tried ++ [path_of a]) [path_of a].
Proof.
  intros Ht. exists [a]. split; [reflexivity|]. split; [reflexivity|].
  split; [now constructor|].
  unfold outcome. cbn [fst].
  destruct a as [p|p blob []]; cbn [is_loaded].
  - now repeat constructor.
  - exists [], p, blob. split; [reflexivity | constructor].
  - now repeat constructor.
Qed.

Lemma gmeta_searched import_name include_dir paths_tried S r S' :
  try_get_metadata_blob_from_gmeta preferred_separator file deserialise
    import_name include_dir paths_tried S = Ok (r, S') ->
  searched paths_tried r [gmeta_path preferred_separator import_name include_dir].
Proof.
  unfold try_get_metadata_blob_from_gmeta.
  set (path := gmeta_path _ _ _).
  destruct (file path) as [content|] eqn:Hfile; intros H.
  - inv_bind H as u S1 Hvalid H.
    apply validate_Ok in Hvalid. destruct Hvalid as [-> Hmagic].
    inv_bind H as x0 S2 Hload H. inv_run H.
    apply (searched_one paths_tried (Load path content x0)).
    split; [exists content; auto|]. split; [assumption|]. eauto.
  - inv_run H. now apply (searched_one paths_tried (Missing path)).
Qed.

Lemma object_paths_searched paths : forall paths_tried S r S',
  try_object_paths file sizeof_elf64_header get_section_from_blob deserialise
    paths paths_tried S = Ok (r, S') ->
  searched paths_tried r paths.
Proof.
  induction paths as [|p paths IH]; intros paths_tried S r S' H;
    cbn [try_object_paths] in H.
  - inv_run H. apply searched_none.
  - change (p :: paths) with ([p] ++ paths).
    destruct (file p) as [content|] eqn:Hfile.
    + destruct (bool_decide (content = [])); [discriminate|].
      inv_bind H as is_elf S1 Helf H.
      destruct is_elf; [|discriminate]. cbn [negb] in H.
      assert (S1 = S) as ->.
      { destruct (sizeof_elf64_header <=? length content).
        - now apply bytes_at_are_state in Helf.
        - now inv_run Helf. }
      inv_bind H as u S2 Hvalid H.
      apply validate_Ok in Hvalid. destruct Hvalid as [-> Hmagic].
      inv_bind H as x0 S3 Hload H. inv_run H.
      eapply searched_weaken; [|apply sublist_inserts_r; reflexivity].
      apply (searched_one paths_tried
               (Load p (get_section_from_blob content metadata_section_name) x0)).
      split; [exists content; auto|]. split; [assumption|]. eauto.
    + apply IH in H.
      apply (searched_app paths_tried (false, paths_tried ++ [p]) r [p] paths);
        [| reflexivity | exact H].
      now apply (searched_one paths_tried (Missing p)).
Qed.

Lemma assembly_searched import_name include_dir paths_tried S r S' :
  try_get_metadata_blob_from_assembly preferred_separator file
    import_name include_dir paths_tried S = Ok (r, S') ->
  searched paths_tried r [assembly_path preferred_separator import_name include_dir].
Proof.
  unfold try_get_metadata_blob_from_assembly.
  set (path := assembly_path _ _ _).
  destruct (file path) eqn:Hfile; intros H; [discriminate|].
  inv_run H. now apply (searched_one paths_tried (Missing path)).
Qed.

(** The loop over the include directories. *)
Lemma directories_searched import_name dirs : forall paths_tried S r S',
  search_include_directories preferred_separator file sizeof_elf64_header
    get_section_from_blob deserialise import_name dirs paths_tried S = Ok (r, S') ->
  searched paths_tried r (flat_map (candidates import_name) dirs).
Proof.
  induction dirs as [|include_dir dirs IH]; intros paths_tried S r S' H;
    cbn [search_include_directories] in H.
  - inv_run H. apply searched_none.
  - cbn [flat_map]. unfold Loader.candidates at 1.
    change (?x :: ?l ++ ?k) with ([x] ++ l ++ k).
    inv_bind H as r1 S1 H1 H. apply gmeta_searched in H1.
    inv_bind H as r2 S2 H2 H.
    inv_bind H as r3 S3 H3 H.
    assert (H123 : searched paths_tried r3
                     ([gmeta_path preferred_separator import_name include_dir]
                      ++ object_paths preferred_separator import_name include_dir
                      ++ [assembly_path preferred_separator import_name include_dir])).
    { destruct (fst r1) eqn:Hr1.
      - inv_run H2. rewrite Hr1 in H3. inv_run H3.
        eapply searched_weaken; [exact H1|]. now apply sublist_inserts_r.
      - apply object_paths_searched in H2.
        pose proof (searched_app _ _ _ _ _ H1 Hr1 H2) as H12.
        destruct (fst r2) eqn:Hr2.
        + inv_run H3.
          eapply searched_weaken; [exact H12|].
          rewrite app_assoc. now apply sublist_inserts_r.
        + apply assembly_searched in H3.
          rewrite app_assoc.
          exact (searched_app _ _ _ _ _ H12 Hr2 H3). }
    destruct (fst r3) eqn:Hr3.
    + inv_run H. eapply searched_weaken; [exact H123|].
      rewrite <- !app_assoc. cbn [app].
      apply sublist_skip.
      apply sublist_app; [reflexivity|].
      apply sublist_skip. apply sublist_nil_l.
    + apply IH in H.
      pose proof (searched_app _ _ _ _ _ H123 Hr3 H) as Hall.
      now rewrite <- !app_assoc in *.
Qed.

End Search.

End LoaderFacts.



(** ** The layout of structs (C8) *)

Module StructFacts.

Section Layout.
Variable size : Ty -> N.
Variable align : Ty -> N.

#[local] Abbreviation msize := (StructLayout.msize size).
#[local] Abbreviation malign := (StructLayout.malign align).
#[local] Abbreviation byte_offset := StructLayout.byte_offset.
#[local] Abbreviation running_size := (StructLayout.running_size size).
#[local] Abbreviation max_alignment := (StructLayout.max_alignment align).
#[local] Abbreviation laid_out := (StructLayout.laid_out size align).
#[local] Abbreviation end_from := (StructLayout.end_from size).
#[local] Abbreviation extent := (StructLayout.extent size align).
#[local] Abbreviation fold_alignment := (StructLayout.fold_alignment align).

Lemma end_from_cons running m ms :
  end_from running (m :: ms) = end_from (usz (byte_offset m + msize m)) ms.
Proof.
  unfold end_from. destruct ms as [|m' ms]; [reflexivity|].
  rewrite last_cons_cons.
  destruct (last (m' :: ms)) eqn:E; [reflexivity|].
  apply last_None in E. discriminate.
Qed.

(** Each member sits at the running size before it, aligned up to the
    alignment of the member. *)
Lemma laid_out_lookup ms : forall running k m,
  laid_out running ms -> ms !! k = Some m ->
  byte_offset m = AlignTo (end_from running (take k ms)) (malign m).
Proof.
  induction ms as [|m0 ms IH]; intros running k m Hl Hk; [discriminate|].
  destruct Hl as [Hoff Hrest]. destruct k as [|k]; simpl in Hk.
  - inversion Hk; subst. exact Hoff.
  - cbn [take]. rewrite end_from_cons. now apply IH.
Qed.

(** Without overflow, aligning up does not go below the value, nor
    as far as [align] above it. *)
Lemma AlignTo_bounds value align_ :
  (1 <= align_)%N -> (value + align_ <= 2 ^ 64)%N ->
  (value <= AlignTo value align_ < value + align_)%N.
Proof.
  intros Ha Hfit. unfold AlignTo, usz.
  set (M := (2 ^ 64)%N) in *.
  assert (Hdiv : ((value + align_ - 1) = align_ * ((value + align_ - 1) / align_)
                                           + (value + align_ - 1) mod align_)%N)
    by (apply N.div_mod; lia).
  assert (Hmod : ((value + align_ - 1) mod align_ < align_)%N)
    by (apply N.mod_lt; lia).
  set (q := ((value + align_ - 1) / align_)%N) in *.
  set (r := ((value + align_ - 1) mod align_)%N) in *.
  assert (Hq : (q * align_ + r = value + align_ - 1)%N) by lia.
  rewrite N.mod_small by lia.
  lia.
Qed.

Lemma AlignTo_0 align_ : (1 <= align_)%N -> AlignTo 0 align_ = 0%N.
Proof.
  intros Ha. unfold AlignTo, usz.
  replace (0 + align_ - 1)%N with (align_ - 1)%N by lia.
  rewrite N.div_small by lia. reflexivity.
Qed.

(** Offsets do not decrease along a layout that fits in 64 bits. *)
Lemma laid_out_monotone ms : forall running,
  laid_out running ms ->
  Forall (fun m => (1 <= malign m)%N) ms ->
  (running + extent ms <= 2 ^ 64)%N ->
  (forall k m, ms !! k = Some m -> (running <= byte_offset m)%N)
  /\ (forall i j mi mj,
         i <= j -> ms !! i = Some mi -> ms !! j = Some mj ->
         (byte_offset mi <= byte_offset mj)%N).
Proof.
  induction ms as [|m0 ms IH]; intros running Hl Ha Hfit.
  - split; intros; discriminate.
  - destruct Hl as [Hoff Hrest]. inversion Ha as [|? ? Ha0 Hrest_a]; subst.
    cbn [extent fold_right] in Hfit. fold (extent ms) in Hfit.
    set (M := (2 ^ 64)%N) in *.
    destruct (AlignTo_bounds running (malign m0) Ha0) as [Hlo Hhi]; [fold M; lia|].
    rewrite <- Hoff in Hlo, Hhi.
    assert (Hend : usz (byte_offset m0 + msize m0) = (byte_offset m0 + msize m0)%N).
    { unfold usz. fold M. apply N.mod_small. lia. }
    rewrite Hend in Hrest.
    destruct (IH _ Hrest Hrest_a) as [IH1 IH2]; [fold M; lia|].
    split.
    + intros [|k] m Hk; simpl in Hk.
      * inversion Hk; subst. exact Hlo.
      * specialize (IH1 k m Hk). lia.
    + intros [|i] [|j] mi mj Hij Hi Hj; simpl in Hi, Hj.
      * inversion Hi; inversion Hj; subst. lia.
      * inversion Hi; subst. specialize (IH1 j mj Hj). lia.
      * lia.
      * apply (IH2 i j); [lia | assumption | assumption].
Qed.

Lemma max_alignment_ge_1 ms : (1 <= max_alignment ms)%N.
Proof.
  unfold max_alignment.
  assert (H : forall a, (1 <= a)%N ->
                        (1 <= fold_left (fun a m => N.max a (malign m)) ms a)%N).
  { induction ms as [|m ms IH]; intros a Ha; simpl; [exact Ha|]. apply IH. lia. }
  apply H. lia.
Qed.

(** It is an upper bound of the alignments of the members. *)
Lemma max_alignment_upper ms m : In m ms -> (malign m <= max_alignment ms)%N.
Proof.
  unfold max_alignment.
  assert (Hmono : forall l a, (a <= fold_left (fun a m => N.max a (malign m)) l a)%N).
  { induction l as [|x l IH]; intros a; simpl; [lia|].
    specialize (IH (N.max a (malign x))). lia. }
  generalize 1%N.
  induction ms as [|x ms IH]; intros a Hin; [destruct Hin|].
  destruct Hin as [->|Hin]; simpl.
  - specialize (Hmono ms (N.max a (malign m))). lia.
  - now apply IH.
Qed.

Variable Analyse : Expr -> option Ty -> M Expr.
Variable AnalyseType : Ty -> M Ty.

(** The loop over the members: when it ends without having marked the
    struct as errored, the members it leaves are laid out from the
    running size it started with. *)
Lemma finalise_members_laid_out members :
  forall is_errored bs al S is_errored' bs' al' ms' S',
    finalise_members AnalyseType size align members is_errored bs al S
    = Ok ((is_errored', (bs', al'), ms'), S') ->
    is_errored' = false ->
    is_errored = false
    /\ laid_out bs ms'
    /\ bs' = end_from bs ms'
    /\ al' = fold_alignment al ms'
    /\ length ms' = length members.
Proof.
  induction members as [|[[name type] off] members IH];
    intros is_errored bs al S is_errored' bs' al' ms' S' H He;
    cbn [finalise_members] in H.
  - apply ret_Ok in H. destruct H as [H _]. inversion H; subst.
    repeat split.
  - inv_bind H as type1 S1 H1 H. inv_bind H as type2 S2 H2 H.
    destruct (Type_.sema_errored type2).
    + inv_bind H as r S3 H3 H. apply ret_Ok in H. destruct H as [H _].
      destruct r as [[e3 [bs3 al3]] ms3]. cbn [fst snd] in H.
      inversion H; subst.
      destruct (IH _ _ _ _ _ _ _ _ _ H3 eq_refl) as [Habs _]. discriminate.
    + inv_bind H as r S3 H3 H. apply ret_Ok in H. destruct H as [H _].
      destruct r as [[e3 [bs3 al3]] ms3]. cbn [fst snd] in H.
      inversion H; subst.
      destruct (IH _ _ _ _ _ _ _ _ _ H3 eq_refl) as (-> & Hl & Hb & Ha & Hlen).
      split; [reflexivity|]. split; [|split; [|split]].
      * cbn [laid_out]. unfold byte_offset, msize, malign. cbn [fst snd].
        split; [reflexivity | exact Hl].
      * rewrite end_from_cons. exact Hb.
      * exact Ha.
      * cbn [length]. now rewrite Hlen.
Qed.

End Layout.

End StructFacts.



(** ** Enumerators *)

Lemma length_map_decl f addr S : length (arena (map_decl f addr S)) = length (arena S).
Proof. unfold map_decl. cbn. apply length_insert. Qed.

Lemma diags_map_decl f addr S : diags (map_decl f addr S) = diags S.
Proof. reflexivity. Qed.

Lemma lookup_map_decl_ne f a addr S :
  a <> addr -> arena (map_decl f a S) !! addr = arena S !! addr.
Proof. intros Hne. unfold map_decl. cbn. now apply list_lookup_insert_ne. Qed.

Lemma decl_at_map_decl_ne f a addr S :
  a <> addr -> decl_at (map_decl f a S) addr = decl_at S addr.
Proof. intros Hne. unfold decl_at. now rewrite lookup_map_decl_ne. Qed.

Lemma decl_at_map_decl_eq f addr S :
  addr < length (arena S) -> decl_at (map_decl f addr S) addr = f (decl_at S addr).
Proof.
  intros Hlt. unfold decl_at at 1. unfold map_decl. cbn.
  rewrite list_lookup_insert_eq by exact Hlt. reflexivity.
Qed.

Module EnumFacts.

Import ExampleEnum Enumerators.

(** The check for duplicates lets through the lists of enumerators whose
    names are pairwise different, and only those. *)
Lemma duplicate_enumerator_None S enumerators :
  forall names,
    duplicate_enumerator S names enumerators = None ->
    NoDup (map (name_of S) enumerators)
    /\ (forall name, In name names -> ~ In name (map (name_of S) enumerators)).
Proof.
  induction enumerators as [|val rest IH]; intros names H; cbn [duplicate_enumerator] in H.
  - split; [constructor | intros name _ []].
  - fold (name_of S val) in H.
    destruct (existsb (String.eqb (name_of S val)) names) eqn:E; [discriminate|].
    destruct (IH _ H) as [Hnd Hout]. cbn [map]. split.
    + apply NoDup_cons. split; [|exact Hnd].
      intros Hin. apply list_elem_of_In in Hin.
      apply (Hout (name_of S val)); [now left | exact Hin].
    + intros name Hin [Heq | Hin'].
      * assert (existsb (String.eqb (name_of S val)) names = true) as Habs.
        { apply existsb_exists. exists name. split; [exact Hin|].
          apply String.eqb_eq. congruence. }
        congruence.
      * apply (Hout name); [now right | exact Hin'].
Qed.

Lemma duplicate_enumerator_Some S enumerators :
  forall names val,
    duplicate_enumerator S names enumerators = Some val ->
    ~ (NoDup (map (name_of S) enumerators)
       /\ forall name, In name names -> ~ In name (map (name_of S) enumerators)).
Proof.
  induction enumerators as [|v rest IH]; intros names val H [Hnd Hout];
    cbn [duplicate_enumerator] in H; [discriminate|].
  fold (name_of S v) in H.
  destruct (existsb (String.eqb (name_of S v)) names) eqn:E.
  - apply existsb_exists in E. destruct E as (name & Hin & Heq).
    apply String.eqb_eq in Heq. apply (Hout name Hin). left. congruence.
  - apply (IH _ _ H). cbn [map] in Hnd. apply NoDup_cons in Hnd.
    destruct Hnd as [Hnotin Hnd]. split; [assumption|].
    intros name [<- | Hin] Hin'; [apply Hnotin; now apply list_elem_of_In|].
    apply (Hout name Hin). now right.
Qed.

(** [isz] and [u64] keep the value modulo [2^64]. *)
Lemma u64_isz_add z k : u64 (isz z + k) = u64 (z + k).
Proof.
  unfold u64, isz, as_signed.
  destruct (z mod 2 ^ 64 <? 2 ^ 63)%Z.
  - now rewrite Zplus_mod_idemp_l.
  - replace (z mod 2 ^ 64 - 2 ^ 64 + k)%Z with (z mod 2 ^ 64 + k + (-1) * 2 ^ 64)%Z by lia.
    rewrite Z_mod_plus_full. now rewrite Zplus_mod_idemp_l.
Qed.

Section Implicit.

Variable Analyse : Expr -> option Ty -> M Expr.
Variable evaluate : Sema -> Expr -> option EvalResult.
Variable size : Ty -> N.
Variables (e underlying : Ty) (info : EnumInfo).
Hypothesis integral : Type_.is_integer true underlying = true.

(** Enumerators without initialiser count up from the value the loop
    holds. *)
Lemma assign_implicit enumerators :
  forall next_val S,
    NoDup enumerators ->
    Forall (fun val => val < length (arena S) /\ init (decl_at S val) = None) enumerators ->
    exists S',
      assign_enumerator_values Analyse evaluate size e underlying info enumerators next_val S
      = Ok (true, S')
      /\ length (arena S') = length (arena S)
      /\ diags S' = diags S
      /\ error_flag S' = error_flag S
      /\ (forall addr, ~ In addr enumerators -> arena S' !! addr = arena S !! addr)
      /\ (forall i val,
             enumerators !! i = Some val ->
             value_of S' val = Some (ResInt (u64 (next_val + 1 + Z.of_nat i)))).
Proof.
  induction enumerators as [|val rest IH]; intros next_val S Hnd Hall.
  - exists S. repeat split. intros i val Hi. discriminate.
  - apply NoDup_cons in Hnd. destruct Hnd as [Hnotin Hnd'].
    rewrite list_elem_of_In in Hnotin.
    inversion Hall as [|? ? [Hlt Hinit] Hall']; subst.
    cbn [assign_enumerator_values set_type update].
    set (S1 := map_decl (map_decl_attrs (set_ty e)) val S).
    assert (Hinit1 : init (decl_at S1 val) = None).
    { unfold S1. rewrite decl_at_map_decl_eq by exact Hlt. exact Hinit. }
    set (c := constant e (location S1 (Decl val)) None (ResInt (u64 (isz (next_val + 1))))).
    set (S2 := map_decl (set_init (Some c)) val S1).
    set (S3 := map_decl (map_decl_attrs (set_sema_state Done)) val S2).
    assert (Hlen : length (arena S3) = length (arena S)).
    { unfold S3, S2, S1. now rewrite !length_map_decl. }
    assert (Hother : forall addr, val <> addr -> arena S3 !! addr = arena S !! addr).
    { intros addr Hne. unfold S3, S2, S1. now rewrite !lookup_map_decl_ne. }
    destruct (IH (isz (next_val + 1)) S3 Hnd') as (S' & Hrun & Hlen' & Hd & He & Hframe & Hvals).
    { rewrite List.Forall_forall in Hall' |- *. intros v Hv.
      destruct (Hall' v Hv) as [Hvlt Hvinit]. rewrite Hlen. split; [exact Hvlt|].
      unfold decl_at. rewrite Hother; [exact Hvinit|]. intros ->. contradiction. }
    exists S'. split; [|split; [|split; [|split; [|split]]]].
    + unfold bind, modify, get, ret. fold S1. rewrite Hinit1. rewrite integral.
      unfold set_sema_done, update, bind, modify, ret. fold c. fold S2. fold S3.
      exact Hrun.
    + congruence.
    + rewrite Hd. reflexivity.
    + rewrite He. reflexivity.
    + intros addr Hout. rewrite Hframe by (intros Hin; apply Hout; now right).
      apply Hother. intros ->. apply Hout. now left.
    + intros [|i] v Hi.
      * cbn in Hi. injection Hi as <-.
        unfold value_of, decl_at. rewrite (Hframe val Hnotin).
        fold (decl_at S3 val). unfold S3.
        rewrite decl_at_map_decl_eq by (unfold S2, S1; now rewrite !length_map_decl).
        unfold S2. rewrite decl_at_map_decl_eq by (unfold S1; now rewrite length_map_decl).
        cbn [map_decl_attrs set_init init c constant].
        change (Z.of_nat 0) with 0%Z.
        rewrite <- (u64_isz_add (next_val + 1) 0). now rewrite !Z.add_0_r.
      * cbn in Hi. rewrite (Hvals i v Hi). rewrite <- Z.add_assoc, u64_isz_add.
        f_equal. f_equal. f_equal. lia.
Qed.

End Implicit.

End EnumFacts.

(** C9.  [enum { a := 5, b }] over [int] is analysed without a diagnostic,
    and [b], that has no initialiser and follows [a], of value 5, receives
    the value 7: after an initialiser of value [v] the loop holds [v + 1],
    and increments it once more before it assigns it. *)
Theorem enumerator_after_initialiser :
  exists t' S',
    Example.AnalyseType 4 ExampleEnum.enum_type ExampleEnum.module_ = Ok (t', S')
    /\ Type_.ok t' = true
    /\ diags S' = []
    /\ ExampleEnum.value_of S' 0 = Some (ResInt 5)
    /\ ExampleEnum.value_of S' 1 = Some (ResInt 7)
    /\ ExampleEnum.value_of S' 1 <> Some (ResInt (5 + 1)).
Proof.
  destruct (Example.AnalyseType 4 ExampleEnum.enum_type ExampleEnum.module_)
    as [[t' S']|f] eqn:E; vm_compute in E; [|discriminate E].
  exists t', S'. injection E as <- <-.
  repeat split; vm_compute; congruence.
Qed.

(** * How a run of the analyser changes the state

    A run of the analyser only adds diagnostics, never clears the error
    flag, keeps the current function, the kinds and the parameter
    declarations of the declarations, never takes a declaration back to
    [NotAnalysed], and adds to a set of dangling dynamic arrays only
    variable declarations that were not analysed before ([X] lists further
    declarations that may be added). *)

Lemma State_eq_dec (s t : State) : {s = t} + {s <> t}.
Proof. decide equality. Qed.

Lemma evolves_refl X S : evolves X S S.
Proof.
  split; auto.
  exists []. now rewrite app_nil_r.
Qed.

Lemma evolves_trans X S1 S2 S3 : evolves X S1 S2 -> evolves X S2 S3 -> evolves X S1 S3.
Proof.
  intros [[l1 D1] E1 C1 L1 K1 P1 A1 G1] [[l2 D2] E2 C2 L2 K2 P2 A2 G2]. split.
  - exists (l1 ++ l2). rewrite D2, D1. now rewrite app_assoc.
  - auto.
  - congruence.
  - lia.
  - intros v. now rewrite K2.
  - intros f. now rewrite P2.
  - auto.
  - intros f v Hin. destruct (G2 f v Hin) as [Hin2 | [HX | (Hk & Hna)]].
    + destruct (G1 f v Hin2) as [Hin1 | [HX | Hnew]]; auto.
    + auto.
    + right. right. split; [now rewrite <- K1|].
      destruct (State_eq_dec (sema_of S1 (Decl v)) NotAnalysed) as [|Hne]; [assumption|].
      now apply A1 in Hne.
Qed.

Lemma evolves_weaken (X Y : nat -> Prop) S S' :
  (forall v, X v -> Y v) -> evolves X S S' -> evolves Y S S'.
Proof.
  intros HXY [D E C L K P A G]. split; auto.
  intros f v Hin. destruct (G f v Hin) as [|[|]]; auto.
Qed.

Lemma decl_at_map_decl f addr S v :
  decl_at (map_decl f addr S) v = decl_at S v
  \/ (v = addr /\ decl_at (map_decl f addr S) v = f (decl_at S addr)).
Proof.
  destruct (Nat.eq_dec addr v) as [<-|Hne].
  - destruct (Nat.lt_ge_cases addr (length (arena S))) as [Hlt|Hge].
    + right. split; [reflexivity|]. now apply decl_at_map_decl_eq.
    + left. unfold decl_at, map_decl. cbn.
      rewrite list_insert_ge by exact Hge. reflexivity.
  - left. now apply decl_at_map_decl_ne.
Qed.

(** A change of one declaration that keeps what [evolves] speaks of, apart
    from the entries [X] it may add to the set of dangling dynamic arrays. *)
Lemma evolves_map_decl_adding X f addr S :
  (forall d,
      decl_kind (f d) = decl_kind d
      /\ param_decls (f d) = param_decls d
      /\ (sema (decl_attrs d) <> NotAnalysed -> sema (decl_attrs (f d)) <> NotAnalysed)
      /\ (forall v, In v (dangling_dynarrays (f d)) -> In v (dangling_dynarrays d) \/ X v)) ->
  evolves X S (map_decl f addr S).
Proof.
  intros Hf. split.
  - exists []. cbn. now rewrite app_nil_r.
  - auto.
  - reflexivity.
  - now rewrite length_map_decl.
  - intros v. destruct (decl_at_map_decl f addr S v) as [->|[-> ->]]; [reflexivity|].
    apply Hf.
  - intros v. destruct (decl_at_map_decl f addr S v) as [->|[-> ->]]; [reflexivity|].
    apply Hf.
  - intros v. unfold sema_of, attrs.
    destruct (decl_at_map_decl f addr S v) as [->|[-> ->]]; [auto|]. apply Hf.
  - intros g v. unfold dangling_of.
    destruct (decl_at_map_decl f addr S g) as [->|[-> ->]]; [auto|].
    intros Hin. destruct (Hf (decl_at S addr)) as (_ & _ & _ & Hd).
    destruct (Hd v Hin); auto.
Qed.

Lemma evolves_map_decl X f addr S : benign f -> evolves X S (map_decl f addr S).
Proof.
  intros Hf. apply evolves_map_decl_adding. intros d.
  destruct (Hf d) as (K & P & A & G). repeat split; auto.
Qed.

Lemma benign_map_decl_attrs g :
  (forall a, sema a <> NotAnalysed -> sema (g a) <> NotAnalysed) -> benign (map_decl_attrs g).
Proof. intros Hg d. cbn. repeat split; auto. Qed.

Lemma benign_set_ty t : benign (map_decl_attrs (set_ty t)).
Proof. apply benign_map_decl_attrs. auto. Qed.

Lemma benign_set_lvalue_flag b : benign (map_decl_attrs (set_lvalue_flag b)).
Proof. apply benign_map_decl_attrs. auto. Qed.

Lemma benign_set_sema_state st : st <> NotAnalysed -> benign (map_decl_attrs (set_sema_state st)).
Proof. intros Hst. apply benign_map_decl_attrs. auto. Qed.

Lemma benign_set_init i : benign (set_init i).
Proof. intros d. cbn. repeat split; auto. Qed.

Lemma benign_set_dangling_filter p :
  benign (fun d => set_dangling (List.filter p (dangling_dynarrays d)) d).
Proof.
  intros d. cbn. repeat split; auto.
  intros v Hin. apply filter_In in Hin. tauto.
Qed.

Lemma benign_set_dangling_nil : benign (set_dangling []).
Proof. intros d. cbn. repeat split; auto. intros v []. Qed.

Lemma evolves_issue X d b S : evolves X S (issue d b S).
Proof.
  split; auto.
  - now exists [d].
  - cbn. intros ->. reflexivity.
Qed.

Lemma evolves_set_scopes X sc S : evolves X S (set_scopes sc S).
Proof. split; auto. exists []. cbn. now rewrite app_nil_r. Qed.

(** A fresh declaration at the end of the arena. *)
Lemma evolves_new_decl X d S :
  decl_kind d = VarDecl -> param_decls d = [] -> dangling_dynarrays d = [] ->
  evolves X S (set_arena (arena S ++ [d]) S).
Proof.
  intros Hk Hp Hd.
  assert (Hat : forall v, decl_at (set_arena (arena S ++ [d]) S) v = decl_at S v
                          \/ (decl_at S v = default_decl
                              /\ decl_at (set_arena (arena S ++ [d]) S) v = d)).
  { intros v. unfold decl_at. cbn.
    destruct (Nat.lt_ge_cases v (length (arena S))) as [Hlt|Hge].
    - left. now rewrite lookup_app_l.
    - rewrite (lookup_ge_None_2 (arena S) v) by lia. rewrite lookup_app_r by lia.
      destruct (v - length (arena S)) as [|k]; cbn; [right; split; reflexivity|].
      left. reflexivity. }
  split.
  - exists []. cbn. now rewrite app_nil_r.
  - auto.
  - reflexivity.
  - cbn. rewrite length_app. lia.
  - intros v. destruct (Hat v) as [->|[-> ->]]; [reflexivity | exact Hk].
  - intros v. destruct (Hat v) as [->|[-> ->]]; [reflexivity | exact Hp].
  - intros v. unfold sema_of, attrs. destruct (Hat v) as [->|[-> ->]]; [auto|].
    intros Habs. now contradiction Habs.
  - intros f v. unfold dangling_of. destruct (Hat f) as [->|[-> ->]]; [auto|].
    rewrite Hd. intros [].
Qed.

Lemma respects_ret {A : Type} X (a : A) : respects X (ret a).
Proof. intros S r S' H. inv_run H. apply evolves_refl. Qed.

Lemma respects_abort {A : Type} X f : respects X (abort f : M A).
Proof. intros S r S' H. discriminate H. Qed.

Lemma respects_get X : respects X get.
Proof. intros S r S' H. inv_run H. apply evolves_refl. Qed.

Lemma respects_modify X f : (forall S, evolves X S (f S)) -> respects X (modify f).
Proof. intros Hf S r S' H. inv_run H. apply Hf. Qed.

Lemma respects_bind {A B : Type} X (m : M A) (k : A -> M B) :
  respects X m -> (forall a, respects X (k a)) -> respects X (bind m k).
Proof.
  intros Hm Hk S r S' H. inv_bind H as a S1 H1 H2.
  eapply evolves_trans; [exact (Hm _ _ _ H1) | exact (Hk _ _ _ _ H2)].
Qed.

Lemma respects_weaken {A : Type} (X Y : nat -> Prop) (m : M A) :
  (forall v, X v -> Y v) -> respects X m -> respects Y m.
Proof. intros HXY Hm S r S' H. eapply evolves_weaken; [exact HXY | exact (Hm _ _ _ H)]. Qed.

Lemma respects_nothing {A : Type} X (m : M A) : respects nothing m -> respects X m.
Proof. apply respects_weaken. intros v []. Qed.

Lemma respects_when X b m : respects X m -> respects X (when b m).
Proof. intros Hm. destruct b; [exact Hm | apply respects_ret]. Qed.

Lemma respects_Error X l msg : respects X (Error l msg).
Proof. apply respects_modify. intros S. apply evolves_issue. Qed.

Lemma respects_Warning X l msg : respects X (Warning l msg).
Proof. apply respects_modify. intros S. apply evolves_issue. Qed.

Lemma respects_Note X l msg : respects X (Note l msg).
Proof. apply respects_modify. intros S. apply evolves_issue. Qed.

Lemma respects_set_error X : respects X set_error.
Proof.
  apply respects_modify. intros S. split; auto.
  exists []. cbn. now rewrite app_nil_r.
Qed.

Lemma respects_update X g e :
  (forall a, sema a <> NotAnalysed -> sema (g a) <> NotAnalysed) -> respects X (update g e).
Proof.
  intros Hg. destruct e; try apply respects_ret.
  cbn [update]. apply respects_bind; [|intros; apply respects_ret].
  apply respects_modify. intros S. apply evolves_map_decl. now apply benign_map_decl_attrs.
Qed.

Lemma respects_set_type X t e : respects X (set_type t e).
Proof. apply respects_update. auto. Qed.

Lemma respects_set_lvalue X b e : respects X (set_lvalue b e).
Proof. apply respects_update. auto. Qed.

Lemma respects_set_sema_errored X e : respects X (set_sema_errored e).
Proof. apply respects_update. cbn. discriminate. Qed.

Lemma respects_set_sema_done X e : respects X (set_sema_done e).
Proof. apply respects_update. cbn. discriminate. Qed.

Lemma respects_set_sema_in_progress X e : respects X (set_sema_in_progress e).
Proof. apply respects_update. cbn. discriminate. Qed.

Lemma respects_set_sema_no_longer_viable X e : respects X (set_sema_no_longer_viable e).
Proof. apply respects_update. cbn. discriminate. Qed.

Lemma respects_set_init X i v : respects X (modify (map_decl (set_init i) v)).
Proof. apply respects_modify. intros S. apply evolves_map_decl, benign_set_init. Qed.

Lemma respects_erase_dangling X target : respects X (erase_dangling target).
Proof.
  apply respects_modify. intros S. apply evolves_map_decl, benign_set_dangling_filter.
Qed.

Lemma respects_push_dangling (X : nat -> Prop) v : X v -> respects X (push_dangling v).
Proof.
  intros HX. apply respects_modify. intros S. apply evolves_map_decl_adding.
  intros d. cbn. repeat split; auto.
  intros w Hin. apply in_app_or in Hin. destruct Hin as [|[<-|[]]]; auto.
Qed.

Lemma respects_mapM {A B : Type} X (f : A -> M B) l :
  (forall a, respects X (f a)) -> respects X (mapM f l).
Proof.
  intros Hf. induction l as [|a l IH]; cbn [mapM].
  - apply respects_ret.
  - apply respects_bind; [apply Hf|]. intros b.
    apply respects_bind; [exact IH|]. intros bs. apply respects_ret.
Qed.

Lemma respects_as_int X r : respects X (as_int r).
Proof. destruct r; first [apply respects_ret | apply respects_abort]. Qed.

Create HintDb respects discriminated.

#[export] Hint Resolve
  respects_ret respects_abort respects_get respects_Error respects_Warning respects_Note
  respects_set_error respects_set_type respects_set_lvalue respects_set_sema_errored
  respects_set_sema_done respects_set_sema_in_progress respects_set_sema_no_longer_viable
  respects_set_init respects_erase_dangling respects_as_int : respects.

(** The computations of the analyser are built from [bind], [ret], [get],
    tests and calls: [respects_step] goes through them. *)
Ltac respects_step :=
  lazymatch goal with
  | |- respects _ (bind _ _) => apply respects_bind; [|intros ?]
  | |- respects _ (when _ _) => apply respects_when
  | |- respects _ (mapM _ _) => apply respects_mapM; intros ?
  | |- respects _ (if ?b then _ else _) => destruct b
  | |- respects _ (match ?x with _ => _ end) => destruct x
  | |- respects _ (let _ := _ in _) => cbv zeta
  | |- respects _ _ =>
      first [ solve [auto with respects]
            | apply respects_nothing; solve [auto with respects] ]
  end.

Ltac respects_steps := repeat respects_step.

Section Helpers.

Variable Analyse : Expr -> option Ty -> M Expr.
Variable AnalyseType : Ty -> M Ty.
Variable evaluate : Sema -> Expr -> option EvalResult.
Variable size : Ty -> N.
Variable align : Ty -> N.

Hypothesis Analyse_respects : forall e t, respects nothing (Analyse e t).
Hypothesis AnalyseType_respects : forall t, respects nothing (AnalyseType t).

#[local] Hint Resolve Analyse_respects AnalyseType_respects : respects.

Lemma respects_WrapWithCast X e t k : respects X (WrapWithCast Analyse e t k).
Proof. unfold WrapWithCast. respects_steps. Qed.
#[local] Hint Resolve respects_WrapWithCast : respects.

Lemma respects_InsertImplicitCast X e t : respects X (InsertImplicitCast Analyse e t).
Proof. unfold InsertImplicitCast. respects_steps. Qed.
#[local] Hint Resolve respects_InsertImplicitCast : respects.

Lemma respects_InsertPointerToIntegerCast X e :
  respects X (InsertPointerToIntegerCast Analyse e).
Proof. unfold InsertPointerToIntegerCast. respects_steps. Qed.
#[local] Hint Resolve respects_InsertPointerToIntegerCast : respects.

Lemma respects_LValueToRValue_rounds X rounds :
  forall e strip_ref, respects X (LValueToRValue_rounds Analyse rounds e strip_ref).
Proof.
  induction rounds as [|rounds IH]; intros e strip_ref; cbn [LValueToRValue_rounds];
    respects_steps.
Qed.
#[local] Hint Resolve respects_LValueToRValue_rounds : respects.

Lemma respects_LValueToRValue X e strip_ref :
  respects X (LValueToRValue Analyse e strip_ref).
Proof. unfold LValueToRValue. respects_steps. Qed.
#[local] Hint Resolve respects_LValueToRValue : respects.

Lemma respects_Deproceduring X e : respects X (Deproceduring Analyse e).
Proof. unfold Deproceduring. respects_steps. Qed.
#[local] Hint Resolve respects_Deproceduring : respects.

Lemma respects_ConvertImpl X p e to : respects X (ConvertImpl Analyse evaluate size p e to).
Proof. unfold ConvertImpl. respects_steps. Qed.
#[local] Hint Resolve respects_ConvertImpl : respects.

Lemma respects_TryConvert X e to : respects X (TryConvert Analyse evaluate size e to).
Proof. unfold TryConvert. respects_steps. Qed.
#[local] Hint Resolve respects_TryConvert : respects.

Lemma respects_Convert X e to : respects X (Convert Analyse evaluate size e to).
Proof. unfold Convert. respects_steps. Qed.
#[local] Hint Resolve respects_Convert : respects.

Lemma respects_ConvertOrError X e to : respects X (ConvertOrError Analyse evaluate size e to).
Proof. unfold ConvertOrError. respects_steps. Qed.
#[local] Hint Resolve respects_ConvertOrError : respects.

Lemma respects_ConvertToCommonType X a b :
  respects X (ConvertToCommonType Analyse evaluate size a b).
Proof. unfold ConvertToCommonType. respects_steps. Qed.
#[local] Hint Resolve respects_ConvertToCommonType : respects.

Lemma respects_Ptr X t : respects X (Ptr AnalyseType t).
Proof. unfold Ptr. respects_steps. Qed.
#[local] Hint Resolve respects_Ptr : respects.

Lemma respects_DeclTypeDecay X t : respects X (DeclTypeDecay AnalyseType t).
Proof. unfold DeclTypeDecay. respects_steps. Qed.
#[local] Hint Resolve respects_DeclTypeDecay : respects.

Lemma respects_callee_type X S callee : respects X (callee_type S callee).
Proof. unfold callee_type. respects_steps. Qed.
#[local] Hint Resolve respects_callee_type : respects.

Lemma respects_Discard X e : respects X (Discard Analyse e).
Proof. unfold Discard. respects_steps. Qed.
#[local] Hint Resolve respects_Discard : respects.

Lemma respects_AnalyseAndDiscard X e : respects X (AnalyseAndDiscard Analyse e).
Proof. unfold AnalyseAndDiscard. respects_steps. Qed.
#[local] Hint Resolve respects_AnalyseAndDiscard : respects.

Lemma respects_AnalyseCast X c : respects X (AnalyseCast Analyse evaluate size c).
Proof. unfold AnalyseCast. respects_steps. Qed.
#[local] Hint Resolve respects_AnalyseCast : respects.

Lemma respects_AnalyseUnary X u : respects X (AnalyseUnary Analyse AnalyseType u).
Proof. unfold AnalyseUnary. respects_steps. Qed.
#[local] Hint Resolve respects_AnalyseUnary : respects.

Lemma respects_closest_declaration X S name decls :
  forall d n, respects X (closest_declaration S name decls d n).
Proof.
  induction decls as [|decl decls IH]; intros d n; cbn [closest_declaration]; respects_steps.
Qed.
#[local] Hint Resolve respects_closest_declaration : respects.

Lemma respects_AnalyseNameRef X e : respects X (AnalyseNameRef Analyse e).
Proof. unfold AnalyseNameRef. respects_steps. Qed.
#[local] Hint Resolve respects_AnalyseNameRef : respects.

Lemma respects_convert_arguments X args :
  forall params, respects X (convert_arguments Analyse evaluate size args params).
Proof.
  induction args as [|arg args IH]; intros params; cbn [convert_arguments]; respects_steps.
Qed.
#[local] Hint Resolve respects_convert_arguments : respects.

Lemma respects_AnalyseCall X e : respects X (AnalyseCall Analyse evaluate size e).
Proof. unfold AnalyseCall. respects_steps. Qed.
#[local] Hint Resolve respects_AnalyseCall : respects.

Lemma respects_analyse_loop X a condition body :
  respects X (analyse_loop Analyse evaluate size a condition body).
Proof. unfold analyse_loop. respects_steps. Qed.
#[local] Hint Resolve respects_analyse_loop : respects.

Lemma respects_analyse_children X children :
  forall a t, respects X (analyse_children Analyse a children t).
Proof.
  induction children as [|child rest IH]; intros a t; cbn [analyse_children]; respects_steps.
Qed.
#[local] Hint Resolve respects_analyse_children : respects.

Lemma respects_analyse_optional X e t : respects X (analyse_optional Analyse e t).
Proof. unfold analyse_optional. respects_steps. Qed.
#[local] Hint Resolve respects_analyse_optional : respects.

Lemma respects_AnalyseReturn X a value :
  respects X (AnalyseReturn Analyse evaluate size a value).
Proof. unfold AnalyseReturn. respects_steps. Qed.
#[local] Hint Resolve respects_AnalyseReturn : respects.

Lemma respects_AnalyseIf X a condition then_ otherwise :
  respects X (AnalyseIf Analyse evaluate size a condition then_ otherwise).
Proof. unfold AnalyseIf. respects_steps. Qed.
#[local] Hint Resolve respects_AnalyseIf : respects.

Lemma respects_AnalyseBlock X a children t : respects X (AnalyseBlock Analyse a children t).
Proof. unfold AnalyseBlock. respects_steps. Qed.
#[local] Hint Resolve respects_AnalyseBlock : respects.

Lemma respects_analyse_declared_variable X v :
  respects X (analyse_declared_variable Analyse AnalyseType evaluate size v).
Proof. unfold analyse_declared_variable. respects_steps. Qed.
#[local] Hint Resolve respects_analyse_declared_variable : respects.

(** Analysing the declaration of a variable may add this variable, and no
    other, to the dangling dynamic arrays. *)
Lemma respects_AnalyseVarDecl v :
  respects (eq v) (AnalyseVarDecl Analyse AnalyseType evaluate size v).
Proof.
  unfold AnalyseVarDecl. respects_steps.
  now apply respects_push_dangling.
Qed.


(** The cases of overload sets, binary expressions, intrinsics, compound
    literals and member accesses. *)

Lemma respects_validate_against X oi later : forall a, respects X (validate_against oi later a).
Proof. induction later as [|oj later IH]; intros a; cbn [validate_against]; respects_steps. Qed.
#[local] Hint Resolve respects_validate_against : respects.

Lemma respects_validate_overloads X os : forall a, respects X (validate_overloads os a).
Proof. induction os as [|oi later IH]; intros a; cbn [validate_overloads]; respects_steps. Qed.
#[local] Hint Resolve respects_validate_overloads : respects.

Lemma respects_AnalyseOverloadSet X e : respects X (AnalyseOverloadSet e).
Proof. unfold AnalyseOverloadSet. respects_steps. Qed.
#[local] Hint Resolve respects_AnalyseOverloadSet : respects.

Lemma respects_ImplicitDe_Reference X e : respects X (ImplicitDe_Reference Analyse e).
Proof. unfold ImplicitDe_Reference. respects_steps. Qed.
#[local] Hint Resolve respects_ImplicitDe_Reference : respects.

Lemma respects_AnalyseBinary X b :
  respects X (AnalyseBinary Analyse AnalyseType evaluate size b).
Proof. unfold AnalyseBinary. respects_steps. Qed.
#[local] Hint Resolve respects_AnalyseBinary : respects.

Lemma respects_on_argument X i f args :
  (forall arg, respects X (f arg)) -> respects X (on_argument i f args).
Proof. intros Hf. unfold on_argument. respects_steps. Qed.

Lemma respects_AnalyseIntrinsicCall X e :
  respects X (AnalyseIntrinsicCall Analyse evaluate size e).
Proof.
  unfold AnalyseIntrinsicCall, analyse_memory_intrinsic.
  repeat first [ apply respects_on_argument; intros ? | respects_step ].
Qed.
#[local] Hint Resolve respects_AnalyseIntrinsicCall : respects.

Lemma respects_dereference_pointers X rounds :
  forall e, respects X (dereference_pointers Analyse rounds e).
Proof.
  induction rounds as [|rounds IH]; intros e; cbn [dereference_pointers]; respects_steps.
Qed.
#[local] Hint Resolve respects_dereference_pointers : respects.

Lemma respects_ImplicitDereference X e : respects X (ImplicitDereference Analyse e).
Proof. unfold ImplicitDereference. respects_steps. Qed.
#[local] Hint Resolve respects_ImplicitDereference : respects.

Lemma respects_analyse_values X values :
  forall a, respects X (analyse_values Analyse a values).
Proof.
  induction values as [|child rest IH]; intros a; cbn [analyse_values]; respects_steps.
Qed.
#[local] Hint Resolve respects_analyse_values : respects.

Lemma respects_AnalyseCompoundLiteral X e t :
  respects X (AnalyseCompoundLiteral Analyse AnalyseType e t).
Proof. unfold AnalyseCompoundLiteral. respects_steps. Qed.
#[local] Hint Resolve respects_AnalyseCompoundLiteral : respects.

Lemma respects_enumerator_value X S en : respects X (enumerator_value S en).
Proof. unfold enumerator_value. respects_steps. Qed.
#[local] Hint Resolve respects_enumerator_value : respects.

Lemma respects_AnalyseMemberAccess X e : respects X (AnalyseMemberAccess Analyse e).
Proof. unfold AnalyseMemberAccess. respects_steps. Qed.
#[local] Hint Resolve respects_AnalyseMemberAccess : respects.

(** The dispatch adds to the dangling dynamic arrays at most the variable
    declaration it is called on. *)
Lemma Analyse_kind_evolves expr t S r S' :
  Analyse_kind Analyse AnalyseType evaluate size align expr t S = Ok (r, S') ->
  evolves (fun v => expr = Decl v /\ decl_kind (decl_at S v) = VarDecl) S S'.
Proof.
  intros H.
  assert (Hother : is_Decl expr = false ->
                   respects nothing (Analyse_kind Analyse AnalyseType evaluate size align expr t)).
  { intros Hd. unfold Analyse_kind. destruct expr; try discriminate Hd; respects_steps. }
  destruct expr as [| | | addr | | | | | | | | | | | | | | | | | | ];
    try (eapply evolves_weaken; [|exact (Hother eq_refl _ _ _ H)]; intros v []).
  unfold Analyse_kind in H. inv_bind H as S0 S1 H0 H. inv_run H0.
  destruct (decl_kind (decl_at S addr)) eqn:Hk;
    try discriminate H;
    try (eapply evolves_weaken; [|exact (respects_ret nothing _ _ _ _ H)]; intros v []; fail).
  - eapply evolves_weaken; [|exact (respects_AnalyseVarDecl addr _ _ _ H)].
    intros v <-. split; [reflexivity | exact Hk].
  - destruct (Type_.is_function (type_of S (Decl addr))); [|discriminate H].
    eapply evolves_weaken; [|exact (respects_ret nothing _ _ _ _ H)]. intros v [].
Qed.

Lemma update_Decl g e S e' S' :
  update g e S = Ok (e', S') -> forall v, e' = Decl v <-> e = Decl v.
Proof.
  intros H v. destruct e; cbn [update] in H;
    try (inv_run H; cbn [map_attrs]; split; intros Habs; discriminate Habs).
  inv_bind H as u S1 H1 H2. inv_run H2. reflexivity.
Qed.

Lemma update_keeps g e S e' S' v :
  update g e S = Ok (e', S') -> e <> Decl v -> decl_at S' v = decl_at S v.
Proof.
  intros H Hne. destruct e; cbn [update] in H; try (inv_run H; reflexivity).
  inv_bind H as u S1 H1 H2. inv_run H2. inv_run H1.
  apply decl_at_map_decl_ne. congruence.
Qed.

(** [Sema::Analyse] on an expression, given that the calls back into the
    analyser change the state that way. *)
Lemma respects_Analyse_body e t :
  respects nothing (Analyse_body Analyse AnalyseType evaluate size align e t).
Proof.
  intros S r S' H. unfold Analyse_body in H.
  inv_bind H as S0 S0' H0 H. inv_run H0.
  destruct (State_eqb (sema_of S e) NotAnalysed) eqn:Hna; cbn [negb] in H.
  2:{ inv_run H. apply evolves_refl. }
  apply State_eqb_eq in Hna.
  inv_bind H as expr1 S1 H1 H. inv_bind H as expr2 S3 H3 H.
  unfold is_TypedExpr in H3. destruct (has_type expr1); [|discriminate H3].
  cbn [negb] in H3. inv_bind H3 as S1' S1'' H1' H3. inv_run H1'.
  inv_bind H3 as ty S2 H2 H3.
  inv_bind H as e' S4 H4 H. inv_bind H as S4' S4'' H4' H. inv_run H4'.
  pose proof (respects_set_sema_in_progress nothing _ _ _ _ H1) as E1.
  pose proof (AnalyseType_respects _ _ _ _ H2) as E2.
  pose proof (respects_set_type nothing _ _ _ _ _ H3) as E3.
  pose proof (Analyse_kind_evolves _ _ _ _ _ H4) as E4.
  assert (E5 : evolves nothing S4 S').
  { destruct (negb (sema_done_or_errored S4 e')).
    - exact (respects_set_sema_done nothing _ _ _ _ H).
    - inv_run H. apply evolves_refl. }
  assert (E03 : evolves nothing S S3).
  { eapply evolves_trans; [exact E1|]. eapply evolves_trans; [exact E2 | exact E3]. }
  set (X := fun v => expr2 = Decl v /\ decl_kind (decl_at S3 v) = VarDecl) in E4.
  assert (E : evolves X S S').
  { eapply evolves_trans; [eapply evolves_weaken; [|exact E03]; intros v []|].
    eapply evolves_trans; [exact E4|].
    eapply evolves_weaken; [|exact E5]. intros v []. }
  destruct E as [D Er C L K P A G]. split; auto.
  intros f v Hin. destruct (G f v Hin) as [|[[Hd Hk]|]]; auto.
  right. right. split.
  - now rewrite <- (ev_kind _ _ _ E03).
  - apply (update_Decl _ _ _ _ _ H3) in Hd. apply (update_Decl _ _ _ _ _ H1) in Hd.
    now subst e.
Qed.


Lemma respects_declare X scope name decl : respects X (declare scope name decl).
Proof.
  unfold declare. respects_steps.
  apply respects_modify. intros S. apply evolves_set_scopes.
Qed.
#[local] Hint Resolve respects_declare : respects.

Lemma respects_resolve_named X depth :
  forall st name scope, respects X (resolve_named Analyse depth st name scope).
Proof.
  induction depth as [|depth IH]; intros st name scope; cbn [resolve_named]; respects_steps.
Qed.
#[local] Hint Resolve respects_resolve_named : respects.

Lemma respects_analyse_params X params : respects X (analyse_params AnalyseType params).
Proof. induction params as [|[[name type] l] params IH]; cbn [analyse_params]; respects_steps. Qed.
#[local] Hint Resolve respects_analyse_params : respects.

Lemma respects_finalise_members X members :
  forall is_errored byte_size alignment,
    respects X (finalise_members AnalyseType size align members is_errored byte_size alignment).
Proof.
  induction members as [|[[name type] off] members IH]; intros is_errored byte_size alignment;
    cbn [finalise_members]; respects_steps.
Qed.
#[local] Hint Resolve respects_finalise_members : respects.

Lemma respects_AnalyseStruct X st members :
  respects X (AnalyseStruct AnalyseType size align st members).
Proof. unfold AnalyseStruct. respects_steps. Qed.
#[local] Hint Resolve respects_AnalyseStruct : respects.

Lemma respects_finalise_union_members X members :
  forall is_errored byte_size alignment,
    respects X (finalise_union_members AnalyseType size align members
                                       is_errored byte_size alignment).
Proof.
  induction members as [|[name type] members IH]; intros is_errored byte_size alignment;
    cbn [finalise_union_members]; respects_steps.
Qed.
#[local] Hint Resolve respects_finalise_union_members : respects.

Lemma respects_assign_enumerator_values X e underlying info enumerators :
  forall next_val,
    respects X (assign_enumerator_values Analyse evaluate size e underlying info
                                         enumerators next_val).
Proof.
  induction enumerators as [|val rest IH]; intros next_val;
    cbn [assign_enumerator_values]; respects_steps.
Qed.
#[local] Hint Resolve respects_assign_enumerator_values : respects.

Lemma respects_retype_enumerators X e enumerators :
  respects X (retype_enumerators e enumerators).
Proof.
  unfold retype_enumerators. apply respects_modify.
  induction enumerators as [|val rest IH]; intros S; cbn [fold_left].
  - apply evolves_refl.
  - eapply evolves_trans; [|apply IH].
    destruct (Type_.is_enum (type_of S (Decl val))); [|apply evolves_refl].
    apply evolves_map_decl, benign_set_ty.
Qed.
#[local] Hint Resolve respects_retype_enumerators : respects.

Lemma respects_AnalyseEnum X st underlying enumerators info :
  respects X (AnalyseEnum Analyse AnalyseType evaluate size st underlying enumerators info).
Proof. unfold AnalyseEnum. respects_steps. Qed.
#[local] Hint Resolve respects_AnalyseEnum : respects.

(** [Sema::Analyse] on a type, likewise. *)
Lemma respects_AnalyseType_body X t :
  respects X (AnalyseType_body Analyse AnalyseType evaluate size align t).
Proof. unfold AnalyseType_body. respects_steps. Qed.

End Helpers.

(** Every successful run of the analyser changes the state that way. *)
Lemma Sema_Analyse_respects evaluate size align fuel :
  (forall e t, respects nothing (Sema_Analyse evaluate size align fuel e t))
  /\ (forall t, respects nothing (Sema_AnalyseType evaluate size align fuel t)).
Proof.
  induction fuel as [|fuel [IHe IHt]].
  - split; intros; apply respects_abort.
  - split.
    + intros e t. cbn [Sema_Analyse]. now apply respects_Analyse_body.
    + intros t. cbn [Sema_AnalyseType]. now apply respects_AnalyseType_body.
Qed.

#[export] Hint Resolve
  respects_WrapWithCast respects_InsertImplicitCast respects_InsertPointerToIntegerCast
  respects_LValueToRValue_rounds respects_LValueToRValue respects_Deproceduring
  respects_ConvertImpl respects_TryConvert respects_Convert respects_ConvertOrError
  respects_ConvertToCommonType respects_Ptr respects_DeclTypeDecay respects_callee_type
  respects_Discard respects_AnalyseAndDiscard respects_analyse_children
  respects_analyse_optional respects_analyse_declared_variable respects_declare
  : respects.

(** ** Discarding the value of an expression (C10) *)

Lemma evolves_diags X S S' d : evolves X S S' -> In d (diags S) -> In d (diags S').
Proof. intros [[l D] _ _ _ _ _ _ _] Hin. rewrite D. apply in_or_app. now left. Qed.

(** [Discard] on a call of a function that is not [discardable]: the error
    comes first. *)
Lemma Discard_undiscardable_call Analyse e S :
  has_value S e = true ->
  undiscardable_call S e = true ->
  Discard Analyse e S
  = (r <- Deproceduring Analyse e ;;
     if fst r then ret (snd r) else
     S <- get ;;
     when (negb (HasSideEffects S e))
          (Warning (location S e) "Expression result unused") ;;;
     ret (snd r)) (issue (not_discardable_error (location S e)) true S).
Proof.
  unfold has_value, undiscardable_call, function_called. intros Hv Hu.
  apply andb_prop in Hv. destruct Hv as [Hok Hvoid].
  unfold Discard. unfold bind at 1. unfold get at 1.
  rewrite Hok. apply negb_true_iff in Hvoid. rewrite Hvoid. cbn [negb orb].
  destruct e; try discriminate Hu.
  unfold callee_type.
  destruct (Type_.is_function (Type_.strip_pointers_and_references (type_of S e))) eqn:Hf;
    [|discriminate Hu].
  unfold bind at 1. unfold bind at 1. unfold ret at 1. rewrite Hu. reflexivity.
Qed.

Section Discarding.

Variable evaluate : Sema -> Expr -> option EvalResult.
Variable size : Ty -> N.
Variable align : Ty -> N.
Variable fuel : nat.

Let Analyse := Sema_Analyse evaluate size align fuel.

Lemma Discard_reports e S e' S' :
  has_value S e = true ->
  undiscardable_call S e = true ->
  Discard Analyse e S = Ok (e', S') ->
  In (not_discardable_error (location S e)) (diags S') /\ error_flag S' = true.
Proof.
  intros Hv Hu H. rewrite (Discard_undiscardable_call _ _ _ Hv Hu) in H.
  set (S1 := issue (not_discardable_error (location S e)) true S) in H.
  assert (E : evolves nothing S1 S').
  { revert H. generalize S1 e' S'.
    change (respects nothing
              (r <- Deproceduring Analyse e ;;
               if fst r then ret (snd r) else
               S <- get ;;
               when (negb (HasSideEffects S e))
                    (Warning (location S e) "Expression result unused") ;;;
               ret (snd r))).
    pose proof (proj1 (Sema_Analyse_respects evaluate size align fuel)) as HA.
    pose proof (respects_Deproceduring Analyse HA) as HD.
    respects_steps. }
  split.
  - apply (evolves_diags _ _ _ _ E). unfold S1. cbn. apply in_or_app. right. now left.
  - apply (ev_error _ _ _ E). unfold S1. cbn. apply orb_true_r.
Qed.

(** Every child that the loop discards and that is such a call is reported
    by the end of the loop. *)
Lemma analyse_children_report children :
  forall a t S r S' c S1,
    analyse_children Analyse a children t S = Ok (r, S') ->
    discarded_in Analyse children S c S1 ->
    has_value S1 c = true ->
    undiscardable_call S1 c = true ->
    In (not_discardable_error (location S1 c)) (diags S').
Proof.
  pose proof (proj1 (Sema_Analyse_respects evaluate size align fuel)) as HA.
  intros a t S r S' c S1 H Hd. revert a t r H.
  induction Hd as [child rest S c S1 Hrest Hc Hok
                  |child rest S c1 S1 c2 S2 c Sc Hrest Hc1 Hc2 Hd IH];
    intros a t r H Hv Hu; cbn [analyse_children] in H;
    rewrite (bool_decide_eq_false_2 _ Hrest) in H; cbn [negb andb] in H.
  - inv_bind H as c' S1' H1 H. rewrite Hc in H1. inv_run H1.
    inv_bind H as u Su Hg H. inv_run Hg. rewrite Hok in H. cbn [negb] in H.
    inv_bind H as c2 S2 H2 H. inv_bind H as r2 S3 H3 H. inv_run H.
    destruct (Discard_reports _ _ _ _ Hv Hu H2) as [Hin _].
    exact (evolves_diags _ _ _ _
             (respects_analyse_children Analyse HA nothing rest _ _ _ _ _ H3) Hin).
  - inv_bind H as c' S1' H1 H. rewrite Hc1 in H1. inv_run H1.
    inv_bind H as u Su Hg H. inv_run Hg.
    inv_bind H as c2' S2' H2 H.
    rewrite Hc2 in H2. inv_run H2.
    inv_bind H as r2 S3 H3 H. inv_run H.
    exact (IH _ _ _ H3 Hv Hu).
Qed.

End Discarding.



(** ** The dangling dynamic arrays of a function (C6) *)

Lemma decl_at_out_of_range S v : length (arena S) <= v -> decl_at S v = default_decl.
Proof. intros Hge. unfold decl_at. now rewrite lookup_ge_None_2. Qed.

Lemma curr_dangling_erased target S :
  curr_dangling (erased target S)
  = List.filter (fun a => negb (same_pointer target a)) (curr_dangling S).
Proof.
  unfold curr_dangling, erased.
  change (curr_func (map_decl _ (curr_func S) S)) with (curr_func S).
  destruct (Nat.lt_ge_cases (curr_func S) (length (arena S))) as [Hlt|Hge].
  - now rewrite decl_at_map_decl_eq.
  - rewrite !decl_at_out_of_range; [reflexivity | exact Hge |].
    now rewrite length_map_decl.
Qed.

Lemma erased_loses d S : ~ In d (curr_dangling (erased (Some (Decl d)) S)).
Proof.
  rewrite curr_dangling_erased. intros Hin. apply filter_In in Hin.
  destruct Hin as [_ Hne]. cbn in Hne. now rewrite Nat.eqb_refl in Hne.
Qed.

Lemma erased_keeps d v S :
  v <> d -> In v (curr_dangling (erased (Some (Decl d)) S)) <-> In v (curr_dangling S).
Proof.
  intros Hne. rewrite curr_dangling_erased, filter_In. cbn.
  destruct (Nat.eqb_spec d v) as [->|_]; [contradiction|]. tauto.
Qed.

Lemma curr_dangling_map_decl_attrs g v S :
  curr_dangling (map_decl (map_decl_attrs g) v S) = curr_dangling S.
Proof.
  unfold curr_dangling.
  change (curr_func (map_decl _ v S)) with (curr_func S).
  destruct (decl_at_map_decl (map_decl_attrs g) v S (curr_func S)) as [->|[<- ->]]; reflexivity.
Qed.

(** Unary minus on a name that refers to a dynamic array frees it (lines
    2296-2314): the declaration becomes [NoLongerViable] and leaves the
    dangling dynamic arrays of the current function. *)
Lemma AnalyseUnary_frees Analyse AnalyseType a operand S na name scope d S1 :
  Analyse operand None S = Ok (NameRefExpr na name scope (Some (Decl d)), S1) ->
  sema na = Done ->
  Type_.is_dynamic_array (ty na) = true ->
  AnalyseUnary Analyse AnalyseType (UnaryExpr a TMinus false operand) S
  = Ok (UnaryExpr (set_ty Type_.Void a) TMinus false
                  (NameRefExpr na name scope (Some (Decl d))),
        erased (Some (Decl d))
               (map_decl (map_decl_attrs (set_sema_state NoLongerViable)) d S1)).
Proof.
  intros Hrun Hdone Hdyn. unfold AnalyseUnary. unfold bind at 1. rewrite Hrun.
  unfold bind at 1. unfold get at 1.
  unfold ok, sema_of, type_of. cbn [attrs]. rewrite Hdone, Hdyn. reflexivity.
Qed.

Lemma evolves_curr_dangling S S' v :
  evolves nothing S S' ->
  In v (curr_dangling S') -> In v (curr_dangling S) \/ not_yet_analysed S v.
Proof.
  intros E Hin. unfold curr_dangling in Hin. rewrite (ev_curr _ _ _ E) in Hin.
  destruct (ev_dangling _ _ _ E _ _ Hin) as [|[[]|]]; auto.
Qed.

Lemma attrs_erased target S e : attrs (erased target S) e = attrs S e.
Proof.
  destruct e; try reflexivity. cbn [attrs]. unfold erased.
  destruct (decl_at_map_decl
              (fun d => set_dangling (List.filter (fun a => negb (same_pointer target a))
                                                  (dangling_dynarrays d)) d)
              (curr_func S) S addr) as [->|[-> ->]]; reflexivity.
Qed.

Lemma attrs_pushed v S e : attrs (pushed v S) e = attrs S e.
Proof.
  destruct e; try reflexivity. cbn [attrs]. unfold pushed.
  destruct (decl_at_map_decl (fun d => set_dangling (dangling_dynarrays d ++ [v]) d)
                             (curr_func S) S addr) as [->|[-> ->]]; reflexivity.
Qed.

Lemma curr_dangling_pushed v S :
  curr_func S < length (arena S) -> curr_dangling (pushed v S) = curr_dangling S ++ [v].
Proof.
  intros Hlt. unfold curr_dangling, pushed.
  change (curr_func (map_decl _ (curr_func S) S)) with (curr_func S).
  now rewrite decl_at_map_decl_eq.
Qed.

Lemma type_of_set_lvalue b v S e :
  type_of (map_decl (map_decl_attrs (set_lvalue_flag b)) v S) e = type_of S e.
Proof.
  destruct e; try reflexivity. unfold type_of. cbn [attrs].
  destruct (decl_at_map_decl (map_decl_attrs (set_lvalue_flag b)) v S addr) as [->|[-> ->]];
    reflexivity.
Qed.

Lemma sema_of_set_lvalue b v S e :
  sema_of (map_decl (map_decl_attrs (set_lvalue_flag b)) v S) e = sema_of S e.
Proof.
  destruct e; try reflexivity. unfold sema_of. cbn [attrs].
  destruct (decl_at_map_decl (map_decl_attrs (set_lvalue_flag b)) v S addr) as [->|[-> ->]];
    reflexivity.
Qed.

Lemma advances_refl S : advances S S.
Proof. repeat split; auto. Qed.

Lemma advances_trans S1 S2 S3 : advances S1 S2 -> advances S2 S3 -> advances S1 S3.
Proof. intros (A1 & L1 & C1) (A2 & L2 & C2). repeat split; [auto | lia | congruence]. Qed.

Lemma evolves_advances X S S' : evolves X S S' -> advances S S'.
Proof. intros E. repeat split; [apply E | apply E | apply E]. Qed.

Section DanglingOfAnalysis.

Variable evaluate : Sema -> Expr -> option EvalResult.
Variable size : Ty -> N.
Variable align : Ty -> N.
Variable fuel : nat.

Let Analyse := Sema_Analyse evaluate size align fuel.
Let AnalyseType := Sema_AnalyseType evaluate size align fuel.

Lemma Analyse_evolves : forall e t, respects nothing (Analyse e t).
Proof. exact (proj1 (Sema_Analyse_respects evaluate size align fuel)). Qed.

Lemma AnalyseType_evolves : forall t, respects nothing (AnalyseType t).
Proof. exact (proj2 (Sema_Analyse_respects evaluate size align fuel)). Qed.

(** A name that refers to a dynamic array, returned (lines 941-947): its
    declaration leaves the dangling dynamic arrays of the current function. *)
Lemma AnalyseReturn_loses a value S na name scope d S1 e' S' :
  Analyse value (Some (Type_.return_type (type_of S (Decl (curr_func S))))) S
  = Ok (NameRefExpr na name scope (Some (Decl d)), S1) ->
  Type_.is_dynamic_array (ty na) = true ->
  sema_of S1 (Decl d) <> NotAnalysed ->
  AnalyseReturn Analyse evaluate size a (Some value) S = Ok (e', S') ->
  ~ In d (curr_dangling S').
Proof.
  pose proof Analyse_evolves as HA.
  intros Hrun Hdyn Hna H. unfold AnalyseReturn in H.
  unfold bind at 1 in H. unfold get at 1 in H.
  unfold analyse_optional in H. unfold bind at 1 in H. unfold bind at 1 in H.
  rewrite Hrun in H. unfold ret at 1 in H.
  inv_bind H as S0 S0' Hg H. inv_run Hg.
  inv_bind H as u S2 Hw H.
  unfold type_of at 1 in Hw. cbn [attrs] in Hw. rewrite Hdyn in Hw. cbn [when] in Hw.
  unfold erase_dangling in Hw. inv_run Hw. fold (erased (Some (Decl d)) S1) in H.
  assert (E : evolves nothing (erased (Some (Decl d)) S1) S').
  { revert H. generalize (erased (Some (Decl d)) S1) e' S'.
    match goal with
    | |- forall (s : Sema) (e : Expr) (s' : Sema), ?m s = Ok (e, s') -> _ =>
        change (respects nothing m)
    end.
    respects_steps. }
  intros Hin. destruct (evolves_curr_dangling _ _ _ E Hin) as [Hin'|[_ Hnot]].
  - exact (erased_loses d S1 Hin').
  - apply Hna. unfold sema_of in *. now rewrite attrs_erased in Hnot.
Qed.

(** When the analysis of a declared variable stops early, the declaration
    is marked as errored. *)
Lemma analyse_declared_variable_stops v S S' :
  analyse_declared_variable Analyse AnalyseType evaluate size v S = Ok (false, S') ->
  v < length (arena S) ->
  sema_of S' (Decl v) = Errored.
Proof.
  pose proof Analyse_evolves as HA. pose proof AnalyseType_evolves as HT.
  intros H Hlt. unfold analyse_declared_variable in H.
  inv_bind H as S0 S0' Hg H. inv_run Hg.
  inv_bind H as proceed S1 H1 H.
  destruct proceed; cbn [negb] in H.
  { (* the case went on: it ends in [ret true] *)
    inv_bind H as S0 S0' Hg H. inv_run Hg.
    inv_bind H as t S2 H2 H. inv_bind H as u S3 H3 H.
    inv_bind H as S0 S0' Hg H. inv_run Hg.
    inv_bind H as u' S4 H4 H. apply ret_Ok in H. destruct H as [Habs _]. discriminate Habs. }
  inv_run H.
  destruct (init (decl_at S v)) as [i|];
    [|apply ret_Ok in H1; destruct H1 as [Habs _]; discriminate Habs].
  destruct (Type_.is_unknown (type_of S (Decl v))).
  2:{ inv_bind H1 as expected S2 H2 H1. inv_bind H1 as i' S3 H3 H1.
      inv_bind H1 as u S4 H4 H1. inv_bind H1 as S0 S0' Hg H1.
      apply ret_Ok in H1. destruct H1 as [Habs _]. discriminate Habs. }
  inv_bind H1 as expected S2 H2 H1. inv_run H2.
  inv_bind H1 as i' S3 H3 H1.
  inv_bind H1 as u S4 H4 H1. inv_bind H1 as S0 S0' Hg H1. inv_run Hg.
  assert (Hlen : v < length (arena S4)).
  { pose proof (HA _ _ _ _ _ H3) as E3.
    pose proof (respects_set_init nothing _ _ _ _ _ H4) as E4.
    pose proof (ev_length _ _ _ E3). pose proof (ev_length _ _ _ E4). lia. }
  destruct (ok S4 i').
  - inv_bind H1 as u' S5 H5 H1. apply ret_Ok in H1. destruct H1 as [Habs _]. discriminate Habs.
  - inv_bind H1 as u' S5 H5 H1. inv_run H1.
    cbn [set_sema_errored update] in H5. inv_bind H5 as u'' S6 H6 H5. inv_run H5. inv_run H6.
    unfold sema_of, attrs. now rewrite decl_at_map_decl_eq.
Qed.

(** The declaration of a variable (lines 1069-1120), entered with the
    declaration in progress: it joins the dangling dynamic arrays of the
    current function exactly if its type is a dynamic array, and no other
    declaration joins them but by being analysed. *)
Lemma AnalyseVarDecl_gains v S e' S' :
  AnalyseVarDecl Analyse AnalyseType evaluate size v S = Ok (e', S') ->
  sema_of S (Decl v) <> NotAnalysed ->
  ~ In v (curr_dangling S) ->
  e' = Decl v
  /\ (In v (curr_dangling S') -> Type_.is_dynamic_array (type_of S' (Decl v)) = true)
  /\ (v < length (arena S) -> curr_func S < length (arena S) ->
      sema_of S' (Decl v) <> Errored ->
      Type_.is_dynamic_array (type_of S' (Decl v)) = true ->
      In v (curr_dangling S'))
  /\ (forall w, w <> v ->
                In w (curr_dangling S') -> In w (curr_dangling S) \/ not_yet_analysed S w).
Proof.
  pose proof Analyse_evolves as HA. pose proof AnalyseType_evolves as HT.
  intros H Hna Hout.
  pose proof (respects_AnalyseVarDecl Analyse AnalyseType evaluate size HA HT v _ _ _ H) as Ev.
  assert (Hothers : forall w, w <> v -> In w (curr_dangling S') ->
                              In w (curr_dangling S) \/ not_yet_analysed S w).
  { intros w Hw Hin. unfold curr_dangling in Hin. rewrite (ev_curr _ _ _ Ev) in Hin.
    destruct (ev_dangling _ _ _ Ev _ _ Hin) as [|[<-|]]; auto. contradiction. }
  unfold AnalyseVarDecl in H. inv_bind H as proceed Sp Hp H.
  pose proof (respects_analyse_declared_variable Analyse AnalyseType evaluate size HA HT
                nothing v _ _ _ Hp) as Ep.
  assert (Hnot : ~ In v (curr_dangling Sp)).
  { intros Hin. destruct (evolves_curr_dangling _ _ _ Ep Hin) as [|[_ Hn]]; auto. }
  destruct proceed; cbn [negb] in H.
  2:{ inv_run H. split; [reflexivity|]. split; [intros Hin; contradiction|].
      split; [|exact Hothers].
      intros Hlt _ Herr _. exfalso. apply Herr.
      now apply (analyse_declared_variable_stops v S). }
  inv_bind H as S0 S0' Hg H. inv_run Hg. inv_bind H as u S2 Hw H.
  cbn [set_lvalue update] in H. inv_bind H as u' S3 Hl H. inv_run H. inv_run Hl.
  split; [reflexivity|].
  cut ((In v (curr_dangling S2) -> Type_.is_dynamic_array (type_of S2 (Decl v)) = true)
       /\ (v < length (arena S) -> curr_func S < length (arena S) ->
           Type_.is_dynamic_array (type_of S2 (Decl v)) = true -> In v (curr_dangling S2))).
  { intros [Hgain Hin]. split; [|split; [|exact Hothers]].
    - rewrite type_of_set_lvalue, curr_dangling_map_decl_attrs. exact Hgain.
    - rewrite type_of_set_lvalue, curr_dangling_map_decl_attrs. auto. }
  clear Hothers.
  destruct (Type_.is_dynamic_array (type_of Sp (Decl v))) eqn:Hdyn; cbn [when] in Hw.
  - unfold push_dangling in Hw. inv_run Hw. fold (pushed v Sp).
    unfold type_of. rewrite attrs_pushed. fold (type_of Sp (Decl v)).
    split; [intros _; exact Hdyn|].
    intros Hlt Hcf _. rewrite curr_dangling_pushed.
    + apply in_or_app. right. now left.
    + rewrite (ev_curr _ _ _ Ep). pose proof (ev_length _ _ _ Ep). lia.
  - inv_run Hw. split; [intros Hin; contradiction|].
    intros _ _ Habs. congruence.
Qed.

(** Once the analyser has been called on a declaration that exists, the
    declaration is no longer [NotAnalysed]. *)
Lemma Analyse_analyses d t S e' S' :
  Analyse (Decl d) t S = Ok (e', S') ->
  d < length (arena S) ->
  sema_of S' (Decl d) <> NotAnalysed.
Proof.
  intros H Hlt.
  destruct (State_eq_dec (sema_of S (Decl d)) NotAnalysed) as [Hna|Hne].
  2:{ exact (ev_sema _ _ _ (Analyse_evolves _ _ _ _ _ H) d Hne). }
  unfold Analyse in H. destruct fuel as [|fuel']; [discriminate H|].
  cbn [Sema_Analyse] in H.
  pose proof (proj1 (Sema_Analyse_respects evaluate size align fuel')) as HA'.
  pose proof (proj2 (Sema_Analyse_respects evaluate size align fuel')) as HT'.
  destruct (Analyse_body_Ok _ _ _ _ _ _ _ _ _ _ H Hna)
    as (expr1 & S1 & ty & S2 & expr2 & S3 & e2 & S4 & H1 & _ & H2 & H3 & H4 & H5).
  clear H. rename H5 into H.
  assert (H1' : sema_of S1 (Decl d) <> NotAnalysed).
  { cbn [set_sema_in_progress update] in H1. inv_bind H1 as u Su Hm H1. inv_run H1. inv_run Hm.
    unfold sema_of, attrs. rewrite decl_at_map_decl_eq by exact Hlt. cbn. discriminate. }
  pose proof (HT' _ _ _ _ H2) as E2.
  pose proof (respects_set_type nothing _ _ _ _ _ H3) as E3.
  pose proof (Analyse_kind_evolves _ _ _ _ _ HA' HT' _ _ _ _ _ H4) as E4.
  assert (E5 : evolves nothing S4 S').
  { destruct (negb (sema_done_or_errored S4 e2)).
    - exact (respects_set_sema_done nothing _ _ _ _ H).
    - inv_run H. apply evolves_refl. }
  apply (ev_sema _ _ _ E5), (ev_sema _ _ _ E4), (ev_sema _ _ _ E3), (ev_sema _ _ _ E2), H1'.
Qed.

(** The declarations of the parameters (lines 754-779): every parameter
    declaration that joins those of the function has been analysed. *)
Lemma declare_parameters_declares decl params :
  forall S u Sc,
    declare_parameters Analyse decl params S = Ok (u, Sc) ->
    advances S Sc
    /\ forall p, In p (param_decls (decl_at Sc decl)) ->
                 In p (param_decls (decl_at S decl)) \/ sema_of Sc (Decl p) <> NotAnalysed.
Proof.
  pose proof Analyse_evolves as HA.
  induction params as [|[[name type] l] params IH]; intros S u Sc H;
    cbn [declare_parameters] in H.
  - inv_run H. split; [apply advances_refl | auto].
  - inv_bind H as S0 S0' Hg H. inv_run Hg.
    destruct (bool_decide (name = "")); [exact (IH _ _ _ H)|].
    destruct (find S (decl_scope (decl_at S decl)) name) as [|conflict others].
    + inv_bind H as d S1 H1 H.
      unfold new_VarDecl in H1. inv_bind H1 as S0 S0' Hg H1. inv_run Hg.
      inv_bind H1 as u1 S1' Hm H1. inv_run H1. inv_run Hm.
      set (fresh := {| decl_kind := VarDecl; decl_name := name;
                       decl_attrs := new_node type l; linkage := LocalVar; init := None;
                       dangling_dynarrays := []; decl_scope := 0; param_decls := [] |}) in *.
      set (S1 := set_arena (arena S ++ [fresh]) S) in *.
      assert (E1 : evolves nothing S S1) by (apply evolves_new_decl; reflexivity).
      inv_bind H as declared S2 H2 H.
      pose proof (respects_declare nothing _ _ _ _ _ _ H2) as E2.
      destruct declared; cbn [negb] in H; [|discriminate H].
      inv_bind H as e3 S3 H3 H. pose proof (HA _ _ _ _ _ H3) as E3.
      inv_bind H as u4 S4 H4 H. inv_run H4.
      set (S4 := map_decl (fun f => set_param_decls (param_decls f ++ [length (arena S)]) f)
                          decl S3) in *.
      destruct (IH _ _ _ H) as [Adv Hp].
      assert (Hd : sema_of S3 (Decl (length (arena S))) <> NotAnalysed).
      { apply (Analyse_analyses _ _ _ _ _ H3).
        pose proof (ev_length _ _ _ E2) as L2. unfold S1 in L2. cbn in L2.
        rewrite length_app in L2. cbn in L2. lia. }
      assert (A34 : advances S3 S4).
      { repeat split; [|unfold S4; rewrite length_map_decl; lia].
        intros v. unfold S4, sema_of, attrs.
        destruct (decl_at_map_decl
                    (fun f => set_param_decls (param_decls f ++ [length (arena S)]) f)
                    decl S3 v) as [->|[-> ->]]; auto. }
      assert (E03 : evolves nothing S S3).
      { eapply evolves_trans; [exact E1|]. eapply evolves_trans; [exact E2 | exact E3]. }
      split.
      * eapply advances_trans; [exact (evolves_advances _ _ _ E03)|].
        eapply advances_trans; [exact A34 | exact Adv].
      * intros p Hin. destruct (Hp p Hin) as [Hin4|]; [|now right].
        unfold S4 in Hin4.
        destruct (decl_at_map_decl
                    (fun f => set_param_decls (param_decls f ++ [length (arena S)]) f)
                    decl S3 decl) as [E|[_ E]]; rewrite E in Hin4.
        -- left. now rewrite <- (ev_params _ _ _ E03).
        -- cbn in Hin4. apply in_app_or in Hin4. destruct Hin4 as [Hin3|[<-|[]]].
           ++ left. now rewrite <- (ev_params _ _ _ E03).
           ++ right. apply Adv, A34, Hd.
    + inv_bind H as u1 S1 H1 H. inv_bind H as u2 S2 H2 H.
      pose proof (respects_Error nothing _ _ _ _ _ H1) as E1.
      pose proof (respects_Note nothing _ _ _ _ _ H2) as E2.
      assert (E : evolves nothing S S2) by (eapply evolves_trans; eassumption).
      destruct (IH _ _ _ H) as [Adv Hp]. split.
      * eapply advances_trans; [exact (evolves_advances _ _ _ E) | exact Adv].
      * intros p Hin. destruct (Hp p Hin) as [Hin2|]; [|now right].
        left. now rewrite <- (ev_params _ _ _ E).
Qed.

Lemma respects_set_body X decl body : respects X (set_body decl body).
Proof. unfold set_body. apply respects_set_init. Qed.

(** The parameters, the clearing of the set and the body (lines 753-786):
    at the end of the analysis of the body, the parameter declarations that
    this analysis made are analysed and none of them is in the set. *)
Lemma analyse_parameters_and_body_clears decl ty body S body' S1 :
  analyse_parameters_and_body Analyse decl ty body S = Ok (body', S1) ->
  curr_func S1 = curr_func S
  /\ forall p,
       In p (param_decls (decl_at S1 decl)) ->
       ~ In p (param_decls (decl_at S decl)) ->
       ~ In p (dangling_of S1 decl) /\ sema_of S1 (Decl p) <> NotAnalysed.
Proof.
  pose proof Analyse_evolves as HA.
  intros H. unfold analyse_parameters_and_body in H.
  inv_bind H as u Sc Hc H. destruct (declare_parameters_declares _ _ _ _ _ Hc) as [Adv Hp].
  inv_bind H as u' Sc' Hm H. inv_run Hm.
  set (Sc' := map_decl (set_dangling []) decl Sc) in *.
  inv_bind H as b Sb Hb H. pose proof (HA _ _ _ _ _ Hb) as Eb.
  inv_bind H as u'' S1' Hs H. apply ret_Ok in H. destruct H as [-> <-].
  pose proof (respects_set_body nothing _ _ _ _ _ Hs) as Es.
  assert (E : evolves nothing Sc' S1) by (eapply evolves_trans; eassumption).
  assert (Ec : evolves nothing Sc Sc') by apply evolves_map_decl, benign_set_dangling_nil.
  assert (Hnil : dangling_of Sc' decl = []).
  { unfold dangling_of, Sc'.
    destruct (Nat.lt_ge_cases decl (length (arena Sc))) as [Hlt|Hge].
    - now rewrite decl_at_map_decl_eq.
    - rewrite decl_at_out_of_range; [reflexivity|]. now rewrite length_map_decl. }
  split.
  - rewrite (ev_curr _ _ _ E), (ev_curr _ _ _ Ec). apply Adv.
  - intros p Hin Hnew.
    rewrite (ev_params _ _ _ E), (ev_params _ _ _ Ec) in Hin.
    destruct (Hp p Hin) as [|Hna]; [contradiction|].
    assert (Hna' : sema_of Sc' (Decl p) <> NotAnalysed) by exact (ev_sema _ _ _ Ec p Hna).
    split; [|exact (ev_sema _ _ _ E p Hna')].
    intros Hd. destruct (ev_dangling _ _ _ E _ _ Hd) as [Hd'|[[]|[_ Hn]]].
    + rewrite Hnil in Hd'. exact Hd'.
    + contradiction.
Qed.

(** The loop that reports the entries (lines 793-799) issues one error for
    each of them and leaves the rest of the state alone. *)
Lemma report_dangling_reports dynarrays :
  forall S u S',
    report_dangling dynarrays S = Ok (u, S') ->
    arena S' = arena S
    /\ curr_func S' = curr_func S
    /\ diags S' = diags S ++ map (fun v => forgot_to_free (location S (Decl v))) dynarrays.
Proof.
  induction dynarrays as [|v rest IH]; intros S u S' H; cbn [report_dangling] in H.
  - inv_run H. repeat split. cbn. now rewrite app_nil_r.
  - inv_bind H as S0 S0' Hg H. inv_run Hg. inv_bind H as u1 S1 H1 H.
    unfold Error in H1. inv_run H1.
    destruct (IH _ _ _ H) as (Ha & Hc & Hd). repeat split; [exact Ha | exact Hc |].
    rewrite Hd. cbn. now rewrite <- app_assoc.
Qed.

(** The end of the analysis of a function (lines 788-860). *)
Lemma finish_function_body_reports decl ty body S1 u S' :
  finish_function_body Analyse evaluate size decl ty body S1 = Ok (u, S') ->
  (error_flag S1 = true -> S' = S1)
  /\ (error_flag S1 = false ->
      forall v, In v (dangling_of S1 decl) ->
                In (forgot_to_free (location S1 (Decl v))) (diags S'))
  /\ (forall f, param_decls (decl_at S' f) = param_decls (decl_at S1 f))
  /\ (forall v, In v (dangling_of S' decl) ->
                In v (dangling_of S1 decl) \/ not_yet_analysed S1 v).
Proof.
  pose proof Analyse_evolves as HA.
  intros H. unfold finish_function_body in H.
  inv_bind H as S0 S0' Hg H. inv_run Hg.
  destruct (error_flag S1) eqn:Hflag.
  { inv_run H. repeat split; auto. discriminate. }
  inv_bind H as u1 Sr Hr H.
  destruct (report_dangling_reports _ _ _ _ Hr) as (Ha & Hc & Hd).
  assert (E : evolves nothing Sr S').
  { revert H. generalize Sr u S'.
    match goal with
    | |- forall (s : Sema) (r : unit) (s' : Sema), ?m s = Ok (r, s') -> _ =>
        change (respects nothing m)
    end.
    pose proof respects_set_body as Hsb.
    unfold return_last_expression. respects_steps. }
  assert (Hat : forall v, decl_at Sr v = decl_at S1 v).
  { intros v. unfold decl_at. now rewrite Ha. }
  split; [discriminate|]. split; [|split].
  - intros _ v Hin. apply (evolves_diags _ _ _ _ E). rewrite Hd.
    apply in_or_app. right.
    apply (in_map (fun v => forgot_to_free (location S1 (Decl v)))). exact Hin.
  - intros f. rewrite (ev_params _ _ _ E). now rewrite Hat.
  - intros v Hin. destruct (ev_dangling _ _ _ E _ _ Hin) as [Hin'|[[]|[Hk Hn]]].
    + left. unfold dangling_of in *. now rewrite <- Hat.
    + right. unfold not_yet_analysed, sema_of, attrs in *. now rewrite <- Hat.
Qed.

(** The analysis of a function with a body (lines 746-861). *)
Lemma AnalyseFunctionBody_reports decl S body u S' :
  init (decl_at S decl) = Some body ->
  AnalyseFunctionBody Analyse evaluate size decl S = Ok (u, S') ->
  exists body' S1,
    analyse_parameters_and_body Analyse decl (type_of S (Decl decl)) body
                                (set_curr_func decl S) = Ok (body', S1)
    /\ curr_func S1 = decl
    /\ (forall p, In p (param_decls (decl_at S1 decl)) ->
                  ~ In p (param_decls (decl_at S decl)) ->
                  ~ In p (curr_dangling S1))
    /\ (error_flag S1 = false ->
        forall v, In v (curr_dangling S1) ->
                  In (forgot_to_free (location S1 (Decl v))) (diags S'))
    /\ (error_flag S1 = true -> diags S' = diags S1)
    /\ (forall p, In p (param_decls (decl_at S' decl)) ->
                  ~ In p (param_decls (decl_at S decl)) ->
                  ~ In p (dangling_of S' decl)).
Proof.
  intros Hbody H. unfold AnalyseFunctionBody in H.
  inv_bind H as S0 S0' Hg H. inv_run Hg.
  inv_bind H as u1 S0 Hm H. inv_run Hm.
  inv_bind H as u2 S2 Hf H. inv_run H.
  unfold analyse_function_body in Hf.
  inv_bind Hf as S0 S0' Hg Hf. inv_run Hg.
  change (type_of (set_curr_func decl S) (Decl decl)) with (type_of S (Decl decl)) in Hf.
  change (decl_at (set_curr_func decl S) decl) with (decl_at S decl) in Hf.
  destruct (negb (Type_.is_function (type_of S (Decl decl)))); [discriminate Hf|].
  rewrite Hbody in Hf. inv_bind Hf as body' S1 Hb Hf.
  destruct (analyse_parameters_and_body_clears _ _ _ _ _ _ Hb) as [Hc Hp].
  change (curr_func (set_curr_func decl S)) with decl in Hc.
  change (decl_at (set_curr_func decl S) decl) with (decl_at S decl) in Hp.
  destruct (finish_function_body_reports _ _ _ _ _ _ Hf) as (Herr & Hrep & Hpar & Hdang).
  assert (Hcd : curr_dangling S1 = dangling_of S1 decl).
  { unfold curr_dangling, dangling_of. now rewrite Hc. }
  exists body', S1. split; [exact Hb|]. split; [exact Hc|].
  split; [|split; [|split]].
  - intros p Hin Hnew. rewrite Hcd. now apply Hp.
  - intros Hflag v Hin. rewrite Hcd in Hin.
    change (diags (set_curr_func (curr_func S) S2)) with (diags S2). now apply Hrep.
  - intros Hflag. rewrite (Herr Hflag). reflexivity.
  - intros p Hin Hnew.
    change (decl_at (set_curr_func (curr_func S) S2) decl) with (decl_at S2 decl) in Hin.
    change (dangling_of (set_curr_func (curr_func S) S2) decl) with (dangling_of S2 decl).
    rewrite Hpar in Hin. destruct (Hp p Hin Hnew) as [Hout Hna].
    intros Hd. destruct (Hdang p Hd) as [|[_ Hn]]; contradiction.
Qed.

End DanglingOfAnalysis.




(** * Further properties of the analyser *)

(** ** The distance to and from the empty string *)

Module OSAEmpty.
Import OSA.

Lemma fill_no_rows t n : forall js d, fold_left (column "" t 0 n) js d = d.
Proof. induction js as [|j js IH]; intros d; [reflexivity | exact (IH d)]. Qed.

Lemma first_row_initialised n (d : list N) :
  length d = n + 1 ->
  init_first_row n d !! n = Some (N.of_nat n).
Proof.
  intros Hlen.
  pose (P := fun (i : nat) (d : list N) =>
               length d = n + 1 /\ forall j, j < i -> d !! j = Some (N.of_nat j)).
  assert (HP : P (0 + S n) (init_first_row n d)).
  { unfold init_first_row. apply fold_left_seq_inv.
    - split; [exact Hlen | intros j Hj; lia].
    - intros i x Hi [Hx Hbelow]. unfold set_ref, ref_index. cbn [Nat.mul Nat.add]. split.
      + now rewrite length_insert.
      + intros j Hj. destruct (decide (j = i)) as [->|Hne].
        * apply list_lookup_insert_eq. lia.
        * rewrite list_lookup_insert_ne by congruence. apply Hbelow. lia. }
  destruct HP as [_ Hbelow]. apply Hbelow. lia.
Qed.

Lemma osa_to_empty s : optimal_string_alignment_distance s "" = 0%N.
Proof.
  unfold optimal_string_alignment_distance, fill, init_first_row, ref, set_ref, ref_index.
  cbn [String.length seq fold_left Nat.mul Nat.add]. rewrite Nat.mul_0_r.
  destruct (init_first_column _ _ _); reflexivity.
Qed.

Lemma osa_from_empty s :
  optimal_string_alignment_distance "" s = N.of_nat (String.length s).
Proof.
  unfold optimal_string_alignment_distance, fill.
  cbn [String.length]. rewrite fill_no_rows.
  unfold ref, ref_index. cbn [Nat.mul Nat.add].
  rewrite first_row_initialised; [reflexivity|].
  unfold init_first_column, set_ref. cbn [seq fold_left].
  rewrite length_insert, length_replicate. lia.
Qed.

End OSAEmpty.

(** X1.  The distance from any string to the empty string is 0, while the
    distance from the empty string to a string is the length of that
    string: with [n = 0] every cell [(i, 0)] of the first column is the
    slot 0 of the array, and the first row stores 0 there last. *)
Theorem osa_empty_string (s : string) :
  OSA.optimal_string_alignment_distance s "" = 0%N
  /\ OSA.optimal_string_alignment_distance "" s = N.of_nat (String.length s).
Proof. split; [apply OSAEmpty.osa_to_empty | apply OSAEmpty.osa_from_empty]. Qed.

(** ** A declaration without a name in scope *)

Lemma closest_declaration_nameless S name decls d :
  In d decls -> decl_name (decl_at S d) = "" ->
  forall least_distance_decl least_distance S0,
    closest_declaration S name decls least_distance_decl least_distance S0
    = Abort (AssertFailed "If distance was zero, then symbol would have been found").
Proof.
  intros Hin Hname.
  induction decls as [|decl decls IH]; [destruct Hin|].
  intros ld l S0. cbn [closest_declaration].
  destruct (OSA.optimal_string_alignment_distance name (decl_name (decl_at S decl)) =? 0)%N
    eqn:Hz; [reflexivity|].
  destruct Hin as [->|Hin].
  - rewrite Hname in Hz. rewrite (OSAEmpty.osa_to_empty name) in Hz. discriminate Hz.
  - destruct (_ <? _)%N; now apply IH.
Qed.

(** X2.  The search for the closest declaration asserts that no
    declaration is at distance 0 from the name that was not found.  A
    declaration without a name is at distance 0 from every name: when one is
    visible from the scope of a name that resolves to nothing, the analysis
    of the name reference ends in that assertion. *)
Theorem AnalyseNameRef_nameless_declaration
        (Analyse : Expr -> option Ty -> M Expr) a name scope target S d :
  find_recursive S scope name = [] ->
  existsb (fun ref => String.eqb name (fst ref)) (imports S) = false ->
  In d (all_symbols_recursive S scope) ->
  decl_name (decl_at S d) = "" ->
  AnalyseNameRef Analyse (NameRefExpr a name scope target) S
  = Abort (AssertFailed "If distance was zero, then symbol would have been found").
Proof.
  intros Hfind Himp Hin Hname.
  unfold AnalyseNameRef. unfold bind at 1. unfold get at 1.
  rewrite Hfind, Himp. unfold bind at 1.
  now rewrite (closest_declaration_nameless S name _ d Hin Hname).
Qed.

(** A variable without a name is in scope where [x] is looked up. *)
Lemma AnalyseNameRef_nameless_declaration_witness :
  In 0 (all_symbols_recursive ExampleNames.with_nameless 0)
  /\ decl_name (decl_at ExampleNames.with_nameless 0) = ""
  /\ AnalyseNameRef (Example.Analyse 0) ExampleNames.x_ref ExampleNames.with_nameless
     = Abort (AssertFailed "If distance was zero, then symbol would have been found").
Proof.
  split; [vm_compute; auto|]. split; [reflexivity|].
  apply (AnalyseNameRef_nameless_declaration
           (Example.Analyse 0) (new_node Type_.Unknown (Example.at_ 310)) "x" 0 None
           ExampleNames.with_nameless 0);
    [reflexivity | reflexivity | vm_compute; auto | reflexivity].
Defined.

(** ** Locations *)

(** X3.  The span of two valid locations of the same file begins where the
    first of them begins and ends where the last of them ends, as long as
    neither end passes [2^32] and the span is shorter than [2^16]; its file
    is the file 0, whatever the file of the two. *)
Theorem Location_span_covers (a b : Location) :
  file_id a = file_id b ->
  is_valid a = true -> is_valid b = true ->
  (pos a + len a < 2 ^ 32)%N -> (pos b + len b < 2 ^ 32)%N ->
  (N.max (pos a + len a) (pos b + len b) - N.min (pos a) (pos b) < 2 ^ 16)%N ->
  let span := Location_span a b in
  pos span = N.min (pos a) (pos b)
  /\ (pos span + len span = N.max (pos a + len a) (pos b + len b))%N
  /\ is_valid span = true
  /\ file_id span = 0%N.
Proof.
  intros Hfile Ha Hb Hea Heb Hshort span. subst span. unfold Location_span.
  rewrite Hfile, N.eqb_refl, Ha, Hb. cbn [negb orb pos len file_id].
  unfold is_valid in *. cbn [len].
  apply negb_true_iff, N.eqb_neq in Ha. apply negb_true_iff, N.eqb_neq in Hb.
  rewrite (N.mod_small (pos a + len a)), (N.mod_small (pos b + len b)) by assumption.
  set (e := N.max (pos a + len a) (pos b + len b)) in *.
  set (p := N.min (pos a) (pos b)) in *.
  assert (Hpe : (p < e)%N) by (unfold p, e; lia).
  replace ((e + 2 ^ 32 - p) mod 2 ^ 16)%N with (e - p)%N.
  - repeat split; [lia|]. apply negb_true_iff, N.eqb_neq. lia.
  - replace (e + 2 ^ 32 - p)%N with (e - p + 2 ^ 16 * 2 ^ 16)%N by lia.
    rewrite N.Div0.add_mod, N.Div0.mod_mul, N.add_0_r, N.Div0.mod_mod by lia.
    symmetry. now apply N.mod_small.
Qed.

(** Three bytes at 10 and five bytes at 20 of the file 1: the span covers
    the bytes 10 to 25, in the file 0. *)
Lemma Location_span_covers_witness :
  let span := Location_span ExampleLocation.first ExampleLocation.second in
  pos span = 10%N /\ (pos span + len span = 25)%N /\ is_valid span = true
  /\ file_id span = 0%N.
Proof.
  apply (Location_span_covers ExampleLocation.first ExampleLocation.second);
    [reflexivity | reflexivity | reflexivity | vm_compute; reflexivity
     | vm_compute; reflexivity | vm_compute; reflexivity].
Defined.

(** X4.  Two locations compare equal exactly when they agree on the
    position, the length and the file and the length is not 0: an invalid
    location is not equal to itself. *)
Theorem Location_eqb_spec (a b : Location) :
  Location_eqb a b = true <-> a = b /\ is_valid a = true.
Proof.
  unfold Location_eqb, equal_position, is_valid. destruct a as [pa la fa], b as [pb lb fb].
  cbn [pos len file_id]. rewrite !andb_true_iff, !N.eqb_eq, !negb_true_iff, !N.eqb_neq. split.
  - intros [[[Hv ->] ->] ->]. now split.
  - intros [Heq Hv]. injection Heq as -> -> ->. repeat split. exact Hv.
Qed.

(** ** Overload sets *)

Module OverloadFacts.
Import Overloads.

Lemma compare_parameters_spec xs :
  forall ys k,
    length xs = length ys ->
    (compare_parameters xs ys k =? k + length xs)
    = forallb (fun p => Type_.Equal (fst p) (snd p)) (combine xs ys).
Proof.
  induction xs as [|x xs IH]; intros [|y ys] k Hlen; try discriminate Hlen.
  - cbn. rewrite Nat.add_0_r. apply Nat.eqb_refl.
  - cbn [compare_parameters combine forallb fst snd length].
    destruct (Type_.Equal x y); cbn [negb andb].
    + rewrite <- (IH ys (S k)) by (injection Hlen; auto). f_equal. lia.
    + apply Nat.eqb_neq. lia.
Qed.

(** The test of line 1387. *)
Lemma reported_iff_differ S oi oj :
  same_arity S oi oj = true ->
  negb (compare_parameters (param_types S oi) (param_types S oj) 0
        =? length (param_types S oi))
  = differ S oi oj.
Proof.
  intros Ha. unfold differ, same_parameter_types. rewrite Ha. cbn [andb]. f_equal.
  apply (compare_parameters_spec _ _ 0). now apply Nat.eqb_eq.
Qed.

Lemma validate_against_spec oi later :
  forall a S,
  exists a' S',
    validate_against oi later a S = Ok (a', S')
    /\ arena S' = arena S
    /\ (existsb (differ S oi) later = true ->
        sema a' = Errored /\ error_flag S' = true
        /\ In (same_parameter_types_error (location S (Decl oi))) (diags S'))
    /\ (existsb (differ S oi) later = false -> a' = a /\ S' = S)
    /\ (sema a = Errored -> sema a' = Errored)
    /\ (error_flag S = true -> error_flag S' = true)
    /\ (forall d, In d (diags S) -> In d (diags S')).
Proof.
  induction later as [|oj later IH]; intros a S.
  - exists a, S. cbn. repeat split; auto; discriminate.
  - cbn [validate_against existsb]. unfold bind at 1. unfold get at 1.
    fold (same_arity S oi oj).
    destruct (same_arity S oi oj) eqn:Ha; cbn [negb].
    + rewrite (reported_iff_differ S oi oj Ha).
      assert (Hd : differ S oi oj = (differ S oi oj)) by reflexivity.
      destruct (differ S oi oj) eqn:Hdiff; cbn [negb orb].
      * unfold bind at 1. unfold Error at 1. unfold modify at 1.
        unfold bind at 1. unfold Note at 1. unfold modify at 1.
        match goal with
        | |- context [validate_against oi later ?a1 ?S1] =>
            destruct (IH a1 S1) as (a' & S' & Hrun & Har & _ & _ & He & Hf & Hds)
        end.
        exists a', S'. split; [exact Hrun|]. split; [exact Har|].
        split; [|split; [discriminate|split; [|split]]].
        -- intros _. split; [now apply He|].
           split; [apply Hf; cbn; destruct (error_flag S); reflexivity|].
           apply Hds. cbn. apply in_or_app. left. apply in_or_app. right. now left.
        -- intros _. now apply He.
        -- intros Hfl. apply Hf. cbn. now rewrite Hfl.
        -- intros d Hin. apply Hds. cbn. apply in_or_app. left. apply in_or_app. now left.
      * exact (IH a S).
    + assert (Hdiff : differ S oi oj = false) by (unfold differ; now rewrite Ha).
      rewrite Hdiff. cbn [orb]. exact (IH a S).
Qed.

Lemma arena_some_differ S S' os : arena S' = arena S -> some_differ S' os = some_differ S os.
Proof.
  intros Har.
  assert (Hd : forall oi oj, differ S' oi oj = differ S oi oj).
  { intros oi oj. unfold differ, same_parameter_types, same_arity, param_types,
      type_of, attrs, decl_at. now rewrite Har. }
  assert (He : forall oi l, existsb (differ S' oi) l = existsb (differ S oi) l).
  { intros oi l. induction l as [|oj l IH]; [reflexivity|]. cbn [existsb]. now rewrite Hd, IH. }
  induction os as [|oi later IH]; [reflexivity|]. cbn [some_differ]. now rewrite IH, He.
Qed.

Lemma validate_overloads_spec os :
  forall a S,
  exists a' S',
    validate_overloads os a S = Ok (a', S')
    /\ (some_differ S os = true -> sema a' = Errored /\ error_flag S' = true)
    /\ (some_differ S os = false -> a' = a /\ S' = S)
    /\ (sema a = Errored -> sema a' = Errored)
    /\ (error_flag S = true -> error_flag S' = true).
Proof.
  induction os as [|oi later IH]; intros a S.
  - exists a, S. cbn. repeat split; auto; discriminate.
  - cbn [validate_overloads some_differ]. unfold bind at 1.
    destruct (validate_against_spec oi later a S)
      as (a1 & S1 & Hrun1 & Har & Hyes & Hno & He & Hf & _).
    rewrite Hrun1.
    destruct (IH a1 S1) as (a' & S' & Hrun & Hyes' & Hno' & He' & Hf').
    rewrite (arena_some_differ S S1 later Har) in Hyes', Hno'.
    exists a', S'. split; [exact Hrun|]. split; [|split; [|split]].
    + intros Hsome. apply orb_true_iff in Hsome. destruct Hsome as [H1 | H2].
      * destruct (Hyes H1) as (Hs & Hfl & _). split; auto.
      * now apply Hyes'.
    + intros Hnone. apply orb_false_iff in Hnone. destruct Hnone as [H1 H2].
      destruct (Hno H1) as [-> ->]. now apply Hno'.
    + auto.
    + auto.
Qed.

Lemma some_differ_spec S os :
  some_differ S os = true
  <-> exists pre oi mid oj post,
      os = pre ++ oi :: mid ++ oj :: post /\ differ S oi oj = true.
Proof.
  induction os as [|o later IH]; cbn [some_differ].
  - split; [discriminate|]. intros (pre & oi & mid & oj & post & Heq & _).
    destruct pre; discriminate Heq.
  - rewrite orb_true_iff, existsb_exists, IH. split.
    + intros [(oj & Hin & Hd) | (pre & oi & mid & oj & post & -> & Hd)].
      * apply in_split in Hin. destruct Hin as (mid & post & ->).
        now exists [], o, mid, oj, post.
      * now exists (o :: pre), oi, mid, oj, post.
    + intros (pre & oi & mid & oj & post & Heq & Hd). destruct pre as [|p pre].
      * cbn in Heq. injection Heq as -> ->. left. exists oj. split; [|exact Hd].
        apply in_or_app. right. now left.
      * cbn in Heq. injection Heq as -> ->. right. now exists pre, oi, mid, oj, post.
Qed.

End OverloadFacts.


(** ** What a run of the analyser keeps *)



(** ** An expression is analysed once *)

Lemma sema_of_set_sema_done e S e' S' :
  set_sema_done e S = Ok (e', S') ->
  (forall v, e = Decl v -> v < length (arena S)) ->
  sema_of S' e' = Done /\ (forall v, e' = Decl v <-> e = Decl v)
  /\ length (arena S') = length (arena S).
Proof.
  intros H Hin. unfold set_sema_done in H.
  pose proof (update_Decl _ _ _ _ _ H) as Hd.
  destruct e; cbn [update] in H;
    try (inv_run H; cbn [map_attrs]; repeat split; try reflexivity; apply Hd).
  inv_bind H as u S1 H1 H2. inv_run H2. inv_run H1. split; [|split].
  - unfold sema_of, attrs. rewrite decl_at_map_decl_eq by now apply Hin. reflexivity.
  - reflexivity.
  - apply length_map_decl.
Qed.



(** ** The casts the analyser inserts *)

(** A cast that sema makes is analysed without a look at its operand: the
    type of the cast is analysed, and the cast is an lvalue exactly if it
    turns a reference into an lvalue. *)
Lemma Analyse_sema_made_cast evaluate size align (fuel : nat) a k e t S c S' :
  sema a = NotAnalysed -> sema_made_cast k = true ->
  Sema_Analyse evaluate size align fuel (CastExpr a k e) t S = Ok (c, S') ->
  exists type,
    c = CastExpr {| ty := type; lvalue := is_ref_to_lvalue k; sema := Done; loc := loc a |} k e.
Proof.
  intros Hna Hk H. destruct fuel as [|fuel]; [discriminate H|].
  cbn [Sema_Analyse] in H.
  destruct (Analyse_body_Ok _ _ _ _ _ _ _ _ _ _ H Hna)
    as (expr1 & S1 & type & S2 & expr2 & S3 & e2 & S4 & H1 & _ & H2 & H3 & H4 & H5).
  clear H. rename H5 into H.
  cbn [set_sema_in_progress update map_attrs] in H1. inv_run H1.
  cbn [set_type update map_attrs] in H3. inv_run H3.
  unfold Analyse_kind in H4. inv_bind H4 as S0 S0' Hg H4. inv_run Hg.
  unfold AnalyseCast in H4. rewrite Hk in H4. inv_run H4.
  unfold sema_done_or_errored, sema_of in H. cbn in H. inv_run H.
  exists type. reflexivity.
Qed.

Lemma WrapWithCast_sema_made evaluate size align (fuel : nat) e type k S c S' :
  sema_made_cast k = true ->
  WrapWithCast (Sema_Analyse evaluate size align fuel) e type k S = Ok (c, S') ->
  sema_of S' c = Done /\ is_lvalue S' c = is_ref_to_lvalue k.
Proof.
  intros Hk H. unfold WrapWithCast in H. inv_bind H as S0 S0' Hg H. inv_run Hg.
  apply Analyse_sema_made_cast in H; [|reflexivity | exact Hk].
  destruct H as (type' & ->). split; reflexivity.
Qed.

Lemma LValueToRValue_rounds_rvalue evaluate size align (fuel : nat) rounds :
  forall e strip_ref S e' S',
    LValueToRValue_rounds (Sema_Analyse evaluate size align fuel) rounds e strip_ref S
    = Ok (e', S') ->
    sema_errored S e = false ->
    is_lvalue S' e' = false
    /\ (strip_ref = true -> Type_.is_reference (type_of S' e') = false).
Proof.
  induction rounds as [|rounds IH]; intros e strip_ref S e' S' H Herr;
    cbn [LValueToRValue_rounds] in H.
  all: inv_bind H as S0 S0' Hg H; inv_run Hg; rewrite Herr in H.
  all: inv_bind H as e1 S1 H1 H; inv_bind H as S0 S0' Hg H; inv_run Hg.
  all: inv_bind H as e2 S2 H2 H; inv_bind H as S0 S0' Hg H; inv_run Hg.
  all: assert (Hr : is_lvalue S2 e2 = false)
         by (destruct (is_lvalue S1 e1) eqn:Hl;
             [exact (proj2 (WrapWithCast_sema_made _ _ _ _ _ _ LValueToRValueConv _ _ _ eq_refl H2))
             | inv_run H2; exact Hl]).
  all: destruct strip_ref; cbn [andb] in H;
         [|inv_run H; split; [exact Hr | discriminate]].
  all: destruct (Type_.is_reference (type_of S2 e2)) eqn:Href;
         [|inv_run H; split; [exact Hr | intros _; exact Href]].
  all: inv_bind H as e3 S3 H3 H.
  - discriminate H.
  - apply (IH _ _ _ _ _ H).
    destruct (WrapWithCast_sema_made _ _ _ _ _ _ ReferenceToLValue _ _ _ eq_refl H3) as [Hd _].
    unfold sema_errored. now rewrite Hd.
Qed.



(** ** Types over a reference *)

Lemma collapse_references_collapsed elem :
  Type_.is_reference (collapse_references elem) = false.
Proof. induction elem; cbn; auto. Qed.



(** ** Function types *)



(** ** The layout of a union *)

Module UnionFacts.
Import UnionLayout.

Section Layout.
Variable AnalyseType : Ty -> M Ty.
Variable size : Ty -> N.
Variable align : Ty -> N.

Lemma greatest_nil f least : greatest f least [] least.
Proof. split; [lia|]. split; [intros m []|now left]. Qed.

Lemma greatest_unsound f least m ms bound :
  sound m = false -> greatest f least ms bound -> greatest f least (m :: ms) bound.
Proof.
  intros Hm (Hle & Hall & Hex). split; [exact Hle|]. split.
  - intros m' [<-|Hin] Hs; [congruence | now apply Hall].
  - destruct Hex as [|(m' & Hin & Hs & Hb)]; [now left|].
    right. exists m'. split; [now right | now split].
Qed.

Lemma greatest_sound f least m ms bound :
  sound m = true ->
  greatest f (N.max least (f m)) ms bound -> greatest f least (m :: ms) bound.
Proof.
  intros Hm (Hle & Hall & Hex). split; [lia|]. split.
  - intros m' [<-|Hin] Hs; [lia | now apply Hall].
  - destruct Hex as [Hb|(m' & Hin & Hs & Hb)].
    + destruct (N.max_spec least (f m)) as [[_ Hmax]|[_ Hmax]].
      * right. exists m. split; [now left|]. split; [exact Hm | congruence].
      * left. congruence.
    + right. exists m'. split; [now right | now split].
Qed.

Lemma finalise_union_members_greatest members :
  forall is_errored byte_size alignment S r S',
    finalise_union_members AnalyseType size align members is_errored byte_size alignment S
    = Ok (r, S') ->
    map fst (snd r) = map fst members
    /\ greatest (msize size) byte_size (snd r) (fst (snd (fst r)))
    /\ greatest (malign align) alignment (snd r) (snd (snd (fst r)))
    /\ (fst (fst r) = true
        <-> is_errored = true \/ exists m, In m (snd r) /\ sound m = false).
Proof.
  induction members as [|[name type] rest IH]; intros is_errored bs al S r S' H;
    cbn [finalise_union_members] in H.
  - inv_run H. cbn. split; [reflexivity|]. split; [apply greatest_nil|].
    split; [apply greatest_nil|]. split; [now left|].
    intros [He|(m & [] & _)]. exact He.
  - inv_bind H as type1 S1 H1 H. inv_bind H as type2 S2 H2 H.
    destruct (Type_.sema_errored type2) eqn:Herr.
    + inv_bind H as r0 S3 H3 H. inv_run H.
      destruct (IH _ _ _ _ _ _ H3) as (Hn & Hs & Ha & He). cbn [fst snd map].
      assert (Hm : sound (name, type2) = false) by (unfold sound; cbn; now rewrite Herr).
      split; [now rewrite Hn|]. split; [now apply greatest_unsound|].
      split; [now apply greatest_unsound|]. split.
      * intros _. right. exists (name, type2). split; [now left | exact Hm].
      * intros _. apply He. now left.
    + inv_bind H as r0 S3 H3 H. inv_run H.
      destruct (IH _ _ _ _ _ _ H3) as (Hn & Hs & Ha & He). cbn [fst snd map].
      assert (Hm : sound (name, type2) = true) by (unfold sound; cbn; now rewrite Herr).
      split; [now rewrite Hn|]. split; [now apply greatest_sound|].
      split; [now apply greatest_sound|]. rewrite He. split.
      * intros [Hi|(m & Hin & Hu)]; [now left|]. right. exists m. split; [now right | exact Hu].
      * intros [Hi|(m & [<-|Hin] & Hu)]; [now left | congruence |].
        right. now exists m.
Qed.

End Layout.

End UnionFacts.



(** ** Enumerators without initialiser *)

Module ImplicitEnumerators.

Import Enumerators.

Section Loop.

Variable Analyse : Expr -> option Ty -> M Expr.
Variable evaluate : Sema -> Expr -> option EvalResult.
Variable size : Ty -> N.
Variables (e underlying : Ty) (info : EnumInfo).
Hypothesis integral : Type_.is_integer true underlying = true.

Lemma assign_implicit_declarations enumerators :
  forall next_val S,
    NoDup enumerators ->
    Forall (fun val => val < length (arena S) /\ init (decl_at S val) = None) enumerators ->
    exists S',
      assign_enumerator_values Analyse evaluate size e underlying info enumerators next_val S
      = Ok (true, S')
      /\ length (arena S') = length (arena S)
      /\ diags S' = diags S
      /\ error_flag S' = error_flag S
      /\ scopes S' = scopes S
      /\ (forall addr, ~ In addr enumerators -> decl_at S' addr = decl_at S addr)
      /\ (forall i val,
             enumerators !! i = Some val ->
             decl_at S' val = assigned e (next_val + 1 + Z.of_nat i) (decl_at S val)).
Proof.
  induction enumerators as [|val rest IH]; intros next_val S Hnd Hall.
  - exists S. repeat split. intros i val Hi. discriminate.
  - apply NoDup_cons in Hnd. destruct Hnd as [Hnotin Hnd'].
    rewrite list_elem_of_In in Hnotin.
    inversion Hall as [|? ? [Hlt Hinit] Hall']; subst.
    cbn [assign_enumerator_values set_type update].
    set (S1 := map_decl (map_decl_attrs (set_ty e)) val S).
    assert (Hinit1 : init (decl_at S1 val) = None).
    { unfold S1. rewrite decl_at_map_decl_eq by exact Hlt. exact Hinit. }
    set (c := constant e (location S1 (Decl val)) None (ResInt (u64 (isz (next_val + 1))))).
    set (S2 := map_decl (set_init (Some c)) val S1).
    set (S3 := map_decl (map_decl_attrs (set_sema_state Done)) val S2).
    assert (Hlen : length (arena S3) = length (arena S)).
    { unfold S3, S2, S1. now rewrite !length_map_decl. }
    assert (Hother : forall addr, val <> addr -> decl_at S3 addr = decl_at S addr).
    { intros addr Hne. unfold S3, S2, S1. now rewrite !decl_at_map_decl_ne. }
    destruct (IH (isz (next_val + 1)) S3 Hnd')
      as (S' & Hrun & Hlen' & Hd & He & Hsc & Hframe & Hvals).
    { rewrite List.Forall_forall in Hall' |- *. intros v Hv.
      destruct (Hall' v Hv) as [Hvlt Hvinit]. rewrite Hlen. split; [exact Hvlt|].
      rewrite Hother; [exact Hvinit|]. intros ->. contradiction. }
    exists S'. split; [|split; [|split; [|split; [|split; [|split]]]]].
    + unfold bind, modify, get, ret. fold S1. rewrite Hinit1. rewrite integral.
      unfold set_sema_done, update, bind, modify, ret. fold c. fold S2. fold S3.
      exact Hrun.
    + congruence.
    + rewrite Hd. reflexivity.
    + rewrite He. reflexivity.
    + rewrite Hsc. reflexivity.
    + intros addr Hout. rewrite Hframe by (intros Hin; apply Hout; now right).
      apply Hother. intros ->. apply Hout. now left.
    + intros [|i] v Hi.
      * cbn in Hi. injection Hi as <-.
        rewrite (Hframe val Hnotin). unfold S3.
        rewrite decl_at_map_decl_eq by (unfold S2, S1; now rewrite !length_map_decl).
        unfold S2. rewrite decl_at_map_decl_eq by (unfold S1; now rewrite length_map_decl).
        unfold assigned, c, location, attrs, S1.
        rewrite decl_at_map_decl_eq by exact Hlt. cbn [map_decl_attrs decl_attrs loc set_ty].
        change (Z.of_nat 0) with 0%Z.
        rewrite <- (EnumFacts.u64_isz_add (next_val + 1) 0). now rewrite !Z.add_0_r.
      * cbn in Hi. rewrite (Hvals i v Hi).
        assert (Hv : In v rest) by (apply list_elem_of_In; eapply list_elem_of_lookup_2; exact Hi).
        rewrite Hother by (intros ->; contradiction).
        unfold assigned. do 4 f_equal.
        replace (isz (next_val + 1) + 1 + Z.of_nat i)%Z
          with (isz (next_val + 1) + (1 + Z.of_nat i))%Z by lia.
        rewrite EnumFacts.u64_isz_add. do 2 f_equal. lia.
Qed.

End Loop.

(** Once the enum is marked as done, its enumerators see it so. *)
Lemma retype_enumerators_declarations e enumerators :
  Type_.is_enum e = true ->
  forall S,
    Forall (fun val => Type_.is_enum (type_of S (Decl val)) = true) enumerators ->
    exists S',
      retype_enumerators e enumerators S = Ok (tt, S')
      /\ diags S' = diags S /\ error_flag S' = error_flag S /\ scopes S' = scopes S
      /\ (forall val, In val enumerators ->
                      decl_at S' val = map_decl_attrs (set_ty e) (decl_at S val)
                      \/ (length (arena S) <= val /\ decl_at S' val = decl_at S val)).
Proof.
  intros He. unfold retype_enumerators, modify.
  induction enumerators as [|val rest IH]; intros S Hall.
  - exists S. repeat split. intros val [].
  - inversion Hall as [|? ? Hval Hall']; subst. cbn [fold_left]. rewrite Hval.
    set (S1 := map_decl (map_decl_attrs (set_ty e)) val S).
    assert (Hty : forall v, Type_.is_enum (type_of S (Decl v)) = true ->
                            Type_.is_enum (type_of S1 (Decl v)) = true).
    { intros v Hv. unfold type_of, attrs, S1.
      destruct (decl_at_map_decl (map_decl_attrs (set_ty e)) val S v) as [->|[-> ->]];
        [exact Hv | exact He]. }
    destruct (IH S1) as (S' & Hrun & Hd & Hf & Hsc & Hdecl).
    { rewrite List.Forall_forall in Hall' |- *. intros v Hv. apply Hty. now apply Hall'. }
    exists S'. split; [exact Hrun|]. split; [exact Hd|]. split; [exact Hf|].
    split; [exact Hsc|].
    assert (Hset : forall v, decl_at S1 v = map_decl_attrs (set_ty e) (decl_at S v)
                             \/ decl_at S1 v = decl_at S v).
    { intros v. unfold S1.
      destruct (decl_at_map_decl (map_decl_attrs (set_ty e)) val S v) as [->|[-> ->]]; auto. }
    assert (Hframe : forall S0 l v, ~ In v l ->
              decl_at (fold_left (fun S val =>
                                    if Type_.is_enum (type_of S (Decl val))
                                    then map_decl (map_decl_attrs (set_ty e)) val S else S)
                                 l S0) v = decl_at S0 v).
    { intros S0 l. revert S0. induction l as [|w l IHl]; intros S0 v Hv; [reflexivity|].
      cbn [fold_left]. rewrite IHl by (intros Hin; apply Hv; now right).
      destruct (Type_.is_enum (type_of S0 (Decl w))); [|reflexivity].
      apply decl_at_map_decl_ne. intros ->. apply Hv. now left. }
    intros v Hin.
    destruct (in_dec Nat.eq_dec v rest) as [Hrest|Hnot].
    + destruct (Hdecl v Hrest) as [->|[Hge ->]].
      * left. destruct (Hset v) as [->| ->]; [|reflexivity].
        destruct (decl_at S v) as [k nm [t l s lc] lk i dd sc pd]. reflexivity.
      * unfold S1 in Hge. rewrite length_map_decl in Hge.
        right. split; [exact Hge|].
        rewrite !decl_at_out_of_range; [reflexivity | exact Hge|].
        unfold S1. now rewrite length_map_decl.
    + destruct Hin as [<-|Hin]; [|contradiction].
      injection Hrun as <-. rewrite Hframe by exact Hnot.
      destruct (Nat.lt_ge_cases val (length (arena S))) as [Hlt|Hge].
      * left. unfold S1. now apply decl_at_map_decl_eq.
      * right. split; [exact Hge|].
        rewrite !decl_at_out_of_range; [reflexivity | exact Hge|].
        unfold S1. now rewrite length_map_decl.
Qed.

Lemma distinct_names_pass S enumerators :
  NoDup (map (name_of S) enumerators) -> duplicate_enumerator S [] enumerators = None.
Proof.
  intros Hnd. destruct (duplicate_enumerator S [] enumerators) as [val|] eqn:Hdup;
    [|reflexivity].
  exfalso. apply (EnumFacts.duplicate_enumerator_Some S enumerators [] val Hdup).
  split; [exact Hnd | intros name []].
Qed.

Lemma repeated_names_caught S enumerators :
  ~ NoDup (map (name_of S) enumerators) ->
  exists val, duplicate_enumerator S [] enumerators = Some val /\ In val enumerators.
Proof.
  intros Hdup.
  assert (Hin : forall names val, duplicate_enumerator S names enumerators = Some val ->
                                  In val enumerators).
  { clear Hdup. induction enumerators as [|v rest IH]; intros names val H;
      cbn [duplicate_enumerator] in H; [discriminate|].
    destruct (existsb _ names); [injection H as <-; now left|].
    right. exact (IH _ _ H). }
  destruct (duplicate_enumerator S [] enumerators) as [val|] eqn:H.
  - exists val. split; [reflexivity | exact (Hin _ _ H)].
  - exfalso. apply Hdup. exact (proj1 (EnumFacts.duplicate_enumerator_None S enumerators [] H)).
Qed.

End ImplicitEnumerators.

Lemma Sema_AnalyseType_step evaluate size align (fuel : nat) t :
  Sema_AnalyseType evaluate size align (Datatypes.S fuel) t
  = AnalyseType_body (Sema_Analyse evaluate size align fuel)
                     (Sema_AnalyseType evaluate size align fuel) evaluate size align t.
Proof. reflexivity. Qed.

Lemma Sema_Analyse_step evaluate size align (fuel : nat) e t :
  Sema_Analyse evaluate size align (Datatypes.S fuel) e t
  = Analyse_body (Sema_Analyse evaluate size align fuel)
                 (Sema_AnalyseType evaluate size align fuel) evaluate size align e t.
Proof. reflexivity. Qed.

Lemma AnalyseType_analysed evaluate size align (fuel : nat) t S :
  Type_.sema t <> NotAnalysed ->
  Sema_AnalyseType evaluate size align (Datatypes.S fuel) t S = Ok (t, S).
Proof.
  intros Hna. cbn [Sema_AnalyseType]. unfold AnalyseType_body.
  destruct (Type_.sema t); try reflexivity. now contradiction Hna.
Qed.

(** X12.  An enum over an integer type whose enumerators have pairwise
    different names and no initialiser is analysed without a diagnostic:
    the enumerators receive the values 0, 1, 2, ... in order, are marked as
    done and have the enum, marked as done, as their type.  None of them is
    declared in the scope of the enum: the scopes are left as they were. *)
Theorem implicit_enumerators_count_from_zero evaluate size align (fuel : nat)
        st underlying enumerators info S :
  t_sema st = NotAnalysed ->
  Type_.ok underlying = true ->
  Type_.is_integer true underlying = true ->
  NoDup (map (Enumerators.name_of S) enumerators) ->
  Forall (fun val => val < length (arena S) /\ init (decl_at S val) = None) enumerators ->
  exists t' S',
    Sema_AnalyseType evaluate size align (Datatypes.S (Datatypes.S fuel))
                     (Enum st underlying enumerators info) S = Ok (t', S')
    /\ t' = Enum {| t_sema := Done; t_loc := t_loc st |} underlying enumerators info
    /\ diags S' = diags S /\ error_flag S' = error_flag S /\ scopes S' = scopes S
    /\ forall i val,
        enumerators !! i = Some val ->
        ExampleEnum.value_of S' val = Some (ResInt (Z.of_nat i mod 2 ^ 64))
        /\ sema_of S' (Decl val) = Done
        /\ type_of S' (Decl val) = t'.
Proof.
  intros Hna Hok Hint Hnames Hall.
  assert (Hnd : NoDup enumerators).
  { clear -Hnames. induction enumerators as [|v rest IH]; [constructor|].
    cbn [map] in Hnames. apply NoDup_cons in Hnames. destruct Hnames as [Hnotin Hnd].
    apply NoDup_cons. split; [|now apply IH].
    intros Hin. apply Hnotin. apply list_elem_of_In, in_map. now apply list_elem_of_In. }
  set (e := Enum {| t_sema := InProgress; t_loc := t_loc st |} underlying enumerators info).
  set (t' := Enum {| t_sema := Done; t_loc := t_loc st |} underlying enumerators info).
  destruct (ImplicitEnumerators.assign_implicit_declarations
              (Sema_Analyse evaluate size align (Datatypes.S fuel)) evaluate size
              e underlying info Hint enumerators (-1) S Hnd Hall)
    as (S1 & Hrun1 & Hlen1 & Hd1 & He1 & Hsc1 & Hframe1 & Hdecl1).
  destruct (ImplicitEnumerators.retype_enumerators_declarations t' enumerators eq_refl S1)
    as (S2 & Hrun2 & Hd2 & He2 & Hsc2 & Hdecl2).
  { rewrite List.Forall_forall. intros val Hin.
    apply list_elem_of_In, list_elem_of_lookup_1 in Hin. destruct Hin as [i Hi].
    unfold type_of, attrs. now rewrite (Hdecl1 i val Hi). }
  exists t', S2. split; [|split; [reflexivity|split; [congruence|split; [congruence|split]]]].
  - rewrite Sema_AnalyseType_step. unfold AnalyseType_body.
    cbn [Type_.sema]. rewrite Hna. cbn [State_eqb negb Type_.set_sema]. fold e.
    unfold bind at 1. unfold AnalyseEnum. unfold bind at 1.
    rewrite AnalyseType_analysed
      by (unfold Type_.ok in Hok; apply State_eqb_eq in Hok; rewrite Hok; discriminate).
    rewrite Hok, Hint. cbn [negb].
    unfold bind at 1. unfold get at 1.
    rewrite (ImplicitEnumerators.distinct_names_pass S enumerators Hnames).
    unfold bind at 1. fold e. rewrite Hrun1. unfold ret at 1.
    cbn [fst snd negb]. unfold bind at 1. cbn [Type_.sema_done_or_errored Type_.sema e t_sema
      State_eqb orb negb Type_.set_sema t_loc]. fold t'. rewrite Hrun2. reflexivity.
  - congruence.
  - intros i val Hi.
    assert (Hin : In val enumerators)
      by (apply list_elem_of_In; eapply list_elem_of_lookup_2; exact Hi).
    assert (Hlt : val < length (arena S)).
    { rewrite List.Forall_forall in Hall. now apply Hall. }
    unfold ExampleEnum.value_of, sema_of, type_of, attrs.
    destruct (Hdecl2 val Hin) as [->|[Hge _]]; [|lia].
    rewrite (Hdecl1 i val Hi). cbn. repeat split.
Qed.

(** [enum { a, b }] over [int]: [a] is 0 and [b] is 1. *)
Lemma implicit_enumerators_count_from_zero_witness :
  let S := ExampleTypes.enumerators "b" in
  let info := {| enum_scope := 1; enum_decl := None |} in
  exists t' S',
    Example.AnalyseType 2 (Enum (ExampleStruct.not_analysed 369) Type_.Int [0; 1] info) S
    = Ok (t', S')
    /\ t' = Enum {| t_sema := Done; t_loc := Example.at_ 369 |} Type_.Int [0; 1] info
    /\ ExampleEnum.value_of S' 0 = Some (ResInt 0)
    /\ ExampleEnum.value_of S' 1 = Some (ResInt 1)
    /\ type_of S' (Decl 1) = t'.
Proof.
  intros S info.
  destruct (implicit_enumerators_count_from_zero
              Example.evaluate Example.size Example.align 0
              (ExampleStruct.not_analysed 369) Type_.Int [0; 1] info S)
    as (t' & S' & Hrun & Ht & _ & _ & _ & Hvalues).
  - reflexivity.
  - reflexivity.
  - reflexivity.
  - apply (bool_decide_unpack _). vm_compute. exact I.
  - repeat constructor.
  - exists t', S'. split; [exact Hrun|]. split; [exact Ht|].
    split; [apply (Hvalues 0 0 eq_refl)|]. split; [apply (Hvalues 1 1 eq_refl)|].
    apply (Hvalues 1 1 eq_refl).
Defined.

(** X13.  An enum over an integer type two of whose enumerators have the
    same name is marked as errored, with the error [Duplicate enumerator]
    at one of its enumerators; nothing else changes: no enumerator receives
    a value. *)
Theorem duplicate_enumerators_rejected evaluate size align (fuel : nat)
        st underlying enumerators info S :
  t_sema st = NotAnalysed ->
  Type_.ok underlying = true ->
  Type_.is_integer true underlying = true ->
  ~ NoDup (map (Enumerators.name_of S) enumerators) ->
  exists val,
    In val enumerators
    /\ Sema_AnalyseType evaluate size align (Datatypes.S (Datatypes.S fuel))
                        (Enum st underlying enumerators info) S
       = Ok (Enum {| t_sema := Errored; t_loc := t_loc st |} underlying enumerators info,
             issue {| kind := DError; where_ := location S (Decl val);
                      msg := "Duplicate enumerator '{}'" |} true S).
Proof.
  intros Hna Hok Hint Hnames.
  destruct (ImplicitEnumerators.repeated_names_caught S enumerators Hnames)
    as (val & Hdup & Hin).
  exists val. split; [exact Hin|].
  rewrite Sema_AnalyseType_step. unfold AnalyseType_body.
  cbn [Type_.sema]. rewrite Hna. cbn [State_eqb negb Type_.set_sema].
  unfold bind at 1. unfold AnalyseEnum. unfold bind at 1.
  rewrite AnalyseType_analysed
    by (unfold Type_.ok in Hok; apply State_eqb_eq in Hok; rewrite Hok; discriminate).
  rewrite Hok, Hint. cbn [negb].
  unfold bind at 1. unfold get at 1. rewrite Hdup. reflexivity.
Qed.

(** [enum { a, a }] over [int]. *)
Lemma duplicate_enumerators_rejected_witness :
  let S := ExampleTypes.enumerators "a" in
  let info := {| enum_scope := 1; enum_decl := None |} in
  exists val,
    In val [0; 1]
    /\ Example.AnalyseType 2 (Enum (ExampleStruct.not_analysed 369) Type_.Int [0; 1] info) S
       = Ok (Enum {| t_sema := Errored; t_loc := Example.at_ 369 |} Type_.Int [0; 1] info,
             issue {| kind := DError; where_ := location S (Decl val);
                      msg := "Duplicate enumerator '{}'" |} true S).
Proof.
  intros S info.
  apply (duplicate_enumerators_rejected
           Example.evaluate Example.size Example.align 0
           (ExampleStruct.not_analysed 369) Type_.Int [0; 1] info S);
    [reflexivity | reflexivity | reflexivity |].
  apply (bool_decide_unpack _). vm_compute. exact I.
Defined.

(** ** Calls *)

Lemma mapM_length {A B : Type} (f : A -> M B) xs :
  forall S ys S', mapM f xs S = Ok (ys, S') -> length ys = length xs.
Proof.
  induction xs as [|x xs IH]; intros S ys S' H; cbn [mapM] in H.
  - inv_run H. reflexivity.
  - inv_bind H as y S1 H1 H. inv_bind H as ys' S2 H2 H. inv_run H.
    cbn [length]. f_equal. exact (IH _ _ _ H2).
Qed.

Lemma convert_arguments_length Analyse evaluate size args :
  forall params S args' S',
    convert_arguments Analyse evaluate size args params S = Ok (args', S') ->
    length args' = length args.
Proof.
  induction args as [|arg args IH]; intros params S args' S' H; cbn [convert_arguments] in H.
  - inv_run H. reflexivity.
  - destruct params as [|[[name type] l] params]; [inv_run H; reflexivity|].
    inv_bind H as arg1 S1 H1 H. inv_bind H as r S2 H2 H.
    inv_bind H as S0 S0' Hg H. inv_run Hg. inv_bind H as u S3 H3 H.
    inv_bind H as rest S4 H4 H. inv_run H. cbn [length]. f_equal. exact (IH _ _ _ _ H4).
Qed.

Lemma Analyse_analysed evaluate size align (fuel : nat) e t S e' S' :
  Sema_Analyse evaluate size align fuel e t S = Ok (e', S') ->
  sema_of S e <> NotAnalysed ->
  e' = e /\ S' = S.
Proof.
  intros H Hna. destruct fuel as [|fuel]; [discriminate H|].
  cbn [Sema_Analyse] in H. unfold Analyse_body in H.
  inv_bind H as S0 S0' Hg H. inv_run Hg.
  destruct (sema_of S e); cbn [State_eqb negb] in H; inv_run H; now split.
Qed.



(** ** Names that may not be referred to *)

Lemma find_recursive_scopes S S' scope name :
  scopes S' = scopes S -> find_recursive S' scope name = find_recursive S scope name.
Proof.
  intros Hsc. unfold find_recursive. rewrite Hsc.
  generalize (length (scopes S)). intros depth. revert scope.
  induction depth as [|depth IH]; intros scope; cbn [find_recursive_from];
    unfold find, scope_at; rewrite Hsc; [reflexivity|].
  destruct (map snd _); [|reflexivity].
  destruct (parent _); [apply IH | reflexivity].
Qed.

(** A reference to a variable that is no longer viable: the error, and
    the reference resolved all the same. *)
Lemma AnalyseNameRef_no_longer_viable evaluate size align (fuel : nat)
      a name scope target S d rest :
  find_recursive S scope name = d :: rest ->
  decl_kind (decl_at S d) = VarDecl ->
  sema_of S (Decl d) = NoLongerViable ->
  AnalyseNameRef (Sema_Analyse evaluate size align (Datatypes.S fuel))
                 (NameRefExpr a name scope target) S
  = Ok (NameRefExpr (Names.resolved_to S d a) name scope (Some (Decl d)),
        issue (Names.no_longer_viable_error (loc a)) true S).
Proof.
  intros Hfind Hkind Hsema. unfold AnalyseNameRef.
  unfold bind at 1. unfold get at 1. rewrite Hfind.
  unfold is_decl_of_kind. rewrite Hkind. cbn [negb].
  unfold bind at 1. rewrite Sema_Analyse_step. unfold Analyse_body at 1.
  unfold bind at 1. unfold get at 1. rewrite Hsema. cbn [State_eqb negb]. unfold ret at 1.
  rewrite Nat.eqb_refl. cbn [negb].
  unfold bind at 1. unfold get at 1. rewrite Hsema. cbn [State_eqb when].
  unfold bind at 1. unfold Error at 1. unfold modify at 1. reflexivity.
Qed.

(** X15.  Use after free.  Unary minus on the name of a dynamic array
    marks the variable as no longer viable; a reference to the variable
    that is analysed after it is reported by the error [Reference to a name
    that is no longer viable], and is resolved to the variable all the same,
    without being marked as errored. *)
Theorem use_after_free evaluate size align (fuel : nat)
        a na name scope d rest a' target' S :
  let Analyse := Sema_Analyse evaluate size align (Datatypes.S fuel) in
  let AnalyseType := Sema_AnalyseType evaluate size align (Datatypes.S fuel) in
  let freed := NameRefExpr na name scope (Some (Decl d)) in
  sema na = Done ->
  Type_.is_dynamic_array (ty na) = true ->
  d < length (arena S) ->
  decl_kind (decl_at S d) = VarDecl ->
  find_recursive S scope name = d :: rest ->
  exists S1,
    AnalyseUnary Analyse AnalyseType (UnaryExpr a TMinus false freed) S
    = Ok (UnaryExpr (set_ty Type_.Void a) TMinus false freed, S1)
    /\ sema_of S1 (Decl d) = NoLongerViable
    /\ AnalyseNameRef Analyse (NameRefExpr a' name scope target') S1
       = Ok (NameRefExpr (Names.resolved_to S1 d a') name scope (Some (Decl d)),
             issue (Names.no_longer_viable_error (loc a')) true S1).
Proof.
  intros Analyse AnalyseType freed Hdone Hdyn Hlt Hkind Hfind.
  set (S0 := map_decl (map_decl_attrs (set_sema_state NoLongerViable)) d S).
  exists (erased (Some (Decl d)) S0).
  assert (Hviable : sema_of (erased (Some (Decl d)) S0) (Decl d) = NoLongerViable).
  { unfold sema_of. rewrite attrs_erased. cbn [attrs]. unfold S0.
    now rewrite decl_at_map_decl_eq. }
  split; [|split; [exact Hviable|]].
  - apply AnalyseUnary_frees; [|exact Hdone | exact Hdyn].
    unfold Analyse. rewrite Sema_Analyse_step. unfold Analyse_body.
    unfold bind at 1. unfold get at 1. unfold sema_of, freed. cbn [attrs]. now rewrite Hdone.
  - apply AnalyseNameRef_no_longer_viable with (rest := rest); [|  | exact Hviable].
    + rewrite <- Hfind. now apply find_recursive_scopes.
    + assert (Hk0 : decl_kind (decl_at S0 d) = VarDecl).
      { unfold S0. rewrite decl_at_map_decl_eq by exact Hlt. exact Hkind. }
      destruct (decl_at_map_decl
                  (fun x => set_dangling (List.filter (fun a => negb (same_pointer (Some (Decl d)) a))
                                                      (dangling_dynarrays x)) x)
                  (curr_func S0) S0 d) as [Heq|[Hd Heq]];
        unfold erased; rewrite Heq; [exact Hk0|].
      cbn [decl_kind set_dangling]. rewrite <- Hd. exact Hk0.
Qed.

(** [f : void() { a : [int]; -a; a; }]: [a] is freed, then used. *)
Lemma use_after_free_witness :
  let Analyse := Example.Analyse 5 in
  let AnalyseType := Example.AnalyseType 5 in
  let S := ExampleDangling.declared ExampleDangling.freeing in
  let a := new_node Type_.Unknown (Example.at_ 230) in
  let freed := NameRefExpr ExampleNames.a_attrs "a" 1 (Some (Decl 1)) in
  exists S1,
    AnalyseUnary Analyse AnalyseType (UnaryExpr a TMinus false freed) S
    = Ok (UnaryExpr (set_ty Type_.Void a) TMinus false freed, S1)
    /\ sema_of S1 (Decl 1) = NoLongerViable
    /\ AnalyseNameRef Analyse (ExampleDangling.a_ref 260) S1
       = Ok (NameRefExpr (Names.resolved_to S1 1 (new_node Type_.Unknown (Example.at_ 260)))
                         "a" 1 (Some (Decl 1)),
             issue (Names.no_longer_viable_error (Example.at_ 260)) true S1).
Proof.
  intros Analyse AnalyseType S a freed.
  apply (use_after_free Example.evaluate Example.size Example.align 4
                        a ExampleNames.a_attrs "a" 1 1 []
                        (new_node Type_.Unknown (Example.at_ 260)) None S);
    [reflexivity | reflexivity | vm_compute; lia | vm_compute; reflexivity
     | vm_compute; reflexivity].
Defined.

(** A reference to a variable whose declaration is in progress: the error,
    and the reference marked as errored. *)
Lemma Analyse_own_initialiser evaluate size align (fuel : nat)
      na name scope target expected S v rest :
  sema na = NotAnalysed ->
  ty na = Type_.Unknown ->
  find_recursive S scope name = v :: rest ->
  decl_kind (decl_at S v) = VarDecl ->
  sema_of S (Decl v) = InProgress ->
  Sema_Analyse evaluate size align (Datatypes.S (Datatypes.S fuel))
               (NameRefExpr na name scope target) expected S
  = Ok (NameRefExpr (set_sema_state Errored (set_ty Type_.Unknown
                                               (set_sema_state InProgress na)))
                    name scope target,
        issue (Names.own_initialiser_error (loc na)) true S).
Proof.
  intros Hnna Hnty Hfind Hkind Hprog.
  rewrite Sema_Analyse_step. rewrite Analyse_body_typed by reflexivity.
  unfold bind at 1. unfold get at 1. unfold sema_of at 1. cbn [attrs]. rewrite Hnna.
  cbn [State_eqb negb set_sema_in_progress update map_attrs].
  unfold bind at 1. unfold ret at 1. unfold bind at 1. unfold get at 1.
  unfold type_of at 1. cbn [attrs set_sema_state ty]. rewrite Hnty.
  unfold bind at 1. rewrite AnalyseType_analysed by discriminate.
  cbn [set_type update map_attrs]. unfold bind at 1. unfold ret at 1.
  unfold bind at 1. unfold Analyse_kind. unfold bind at 1. unfold get at 1.
  unfold AnalyseNameRef. unfold bind at 1. unfold get at 1. rewrite Hfind.
  unfold is_decl_of_kind. rewrite Hkind. cbn [negb].
  unfold bind at 1. rewrite Sema_Analyse_step. unfold Analyse_body at 1.
  unfold bind at 1. unfold get at 1. rewrite Hprog. cbn [State_eqb negb]. unfold ret at 1.
  rewrite Nat.eqb_refl. cbn [negb].
  unfold bind at 1. unfold get at 1. rewrite Hprog. cbn [State_eqb when].
  unfold bind at 1. unfold ret at 1.
  unfold bind at 1. unfold Error at 1. unfold modify at 1. unfold ret at 1.
  unfold bind at 1. unfold get at 1. reflexivity.
Qed.

(** The declaration of a variable whose type is to be inferred from an
    initialiser that refers to the variable: the case stops, with the
    declaration marked as errored. *)
Lemma analyse_declared_variable_own_initialiser evaluate size align (fuel : nat)
      v na name scope target rest S :
  v < length (arena S) ->
  decl_kind (decl_at S v) = VarDecl ->
  sema_of S (Decl v) = InProgress ->
  type_of S (Decl v) = Type_.Unknown ->
  init (decl_at S v) = Some (NameRefExpr na name scope target) ->
  sema na = NotAnalysed ->
  ty na = Type_.Unknown ->
  find_recursive S scope name = v :: rest ->
  exists S',
    analyse_declared_variable
      (Sema_Analyse evaluate size align (Datatypes.S (Datatypes.S fuel)))
      (Sema_AnalyseType evaluate size align (Datatypes.S (Datatypes.S fuel)))
      evaluate size v S = Ok (false, S')
    /\ diags S' = diags S ++ [Names.own_initialiser_error (loc na)]
    /\ error_flag S' = true
    /\ sema_of S' (Decl v) = Errored.
Proof.
  intros Hlt Hkind Hprog Hty Hinit Hnna Hnty Hfind.
  set (i := NameRefExpr (set_sema_state Errored (set_ty Type_.Unknown
                                                   (set_sema_state InProgress na)))
                        name scope target).
  set (S3 := issue (Names.own_initialiser_error (loc na)) true S).
  set (S4 := map_decl (set_init (Some i)) v S3).
  set (S5 := map_decl (map_decl_attrs (set_sema_state Errored)) v S4).
  exists S5. split; [|split; [reflexivity|split]].
  - unfold analyse_declared_variable. unfold bind at 1. unfold get at 1.
    rewrite Hinit, Hty. cbn [Type_.is_unknown Type_.is_builtin Type_.Unknown].
    unfold bind at 1. unfold bind at 1. unfold bind at 1. unfold ret at 1.
    rewrite (Analyse_own_initialiser evaluate size align fuel na name scope target None S v rest
               Hnna Hnty Hfind Hkind Hprog).
    fold i. fold S3. unfold bind at 1. unfold modify at 1. fold S4.
    unfold bind at 1. unfold get at 1.
    unfold ok, sema_of, i. cbn [attrs set_sema_state sema State_eqb].
    cbn [set_sema_errored update]. unfold bind at 1. unfold bind at 1.
    unfold modify at 1. fold i. fold S4. fold S5. reflexivity.
  - cbn. apply orb_true_r.
  - unfold sema_of, attrs, S5.
    rewrite decl_at_map_decl_eq by (unfold S4, S3; now rewrite length_map_decl).
    reflexivity.
Qed.

(** X16.  A variable without a declared type whose initialiser is a
    reference to the variable itself: the analysis of the declaration
    returns, reports [Cannot use '{}' in its own initialiser] at the
    reference, issues no other diagnostic, and marks the declaration as
    errored. *)
Theorem variable_in_its_own_initialiser evaluate size align (fuel : nat)
        v na name scope target rest t S :
  v < length (arena S) ->
  decl_kind (decl_at S v) = VarDecl ->
  sema_of S (Decl v) = NotAnalysed ->
  type_of S (Decl v) = Type_.Unknown ->
  init (decl_at S v) = Some (NameRefExpr na name scope target) ->
  sema na = NotAnalysed ->
  ty na = Type_.Unknown ->
  find_recursive S scope name = v :: rest ->
  exists S',
    Sema_Analyse evaluate size align (Datatypes.S (Datatypes.S (Datatypes.S fuel)))
                 (Decl v) t S = Ok (Decl v, S')
    /\ diags S' = diags S ++ [Names.own_initialiser_error (loc na)]
    /\ error_flag S' = true
    /\ sema_of S' (Decl v) = Errored.
Proof.
  intros Hlt Hkind Hna Hty Hinit Hnna Hnty Hfind.
  set (S1 := map_decl (map_decl_attrs (set_sema_state InProgress)) v S).
  set (S2 := map_decl (map_decl_attrs (set_ty Type_.Unknown)) v S1).
  assert (Hlt2 : v < length (arena S2)) by (unfold S2, S1; now rewrite !length_map_decl).
  assert (H1 : decl_at S1 v = map_decl_attrs (set_sema_state InProgress) (decl_at S v)).
  { unfold S1. now rewrite decl_at_map_decl_eq. }
  assert (H2 : decl_at S2 v
               = map_decl_attrs (set_ty Type_.Unknown)
                   (map_decl_attrs (set_sema_state InProgress) (decl_at S v))).
  { unfold S2. rewrite decl_at_map_decl_eq by (unfold S1; now rewrite length_map_decl).
    now rewrite H1. }
  destruct (analyse_declared_variable_own_initialiser
              evaluate size align fuel v na name scope target rest S2)
    as (S' & Hrun & Hd & Hf & He); try assumption.
  { now rewrite H2. }
  { unfold sema_of, attrs. now rewrite H2. }
  { unfold type_of, attrs. now rewrite H2. }
  { now rewrite H2. }
  { rewrite <- Hfind. now apply find_recursive_scopes. }
  exists S'. split; [|split; [exact Hd|split; [exact Hf | exact He]]].
  unfold type_of in Hty. cbn [attrs] in Hty.
  rewrite Sema_Analyse_step. rewrite Analyse_body_typed by reflexivity.
  unfold bind at 1. unfold get at 1. rewrite Hna. cbn [State_eqb negb].
  cbn [set_sema_in_progress update]. unfold bind at 1. unfold bind at 1.
  unfold modify at 1. fold S1. unfold ret at 1.
  unfold bind at 1. unfold get at 1.
  unfold type_of at 1. cbn [attrs]. rewrite H1. cbn [map_decl_attrs decl_attrs set_sema_state ty].
  rewrite Hty. unfold bind at 1. rewrite AnalyseType_analysed by discriminate.
  cbn [set_type update]. unfold bind at 1. unfold bind at 1.
  unfold modify at 1. fold S2. unfold ret at 1.
  unfold bind at 1. unfold Analyse_kind. unfold bind at 1. unfold get at 1.
  rewrite H2. cbn [map_decl_attrs decl_kind]. rewrite Hkind.
  unfold AnalyseVarDecl. unfold bind at 1. rewrite Hrun. cbn [negb]. unfold ret at 1.
  unfold bind at 1. unfold get at 1.
  unfold sema_done_or_errored. rewrite He. reflexivity.
Qed.

(** [x :: x;]. *)
Lemma variable_in_its_own_initialiser_witness :
  let S := ExampleNames.self_initialised in
  exists S',
    Example.Analyse 3 (Decl 0) None S = Ok (Decl 0, S')
    /\ diags S' = [Names.own_initialiser_error (Example.at_ 310)]
    /\ error_flag S' = true
    /\ sema_of S' (Decl 0) = Errored.
Proof.
  intros S.
  apply (variable_in_its_own_initialiser
           Example.evaluate Example.size Example.align 0
           0 (new_node Type_.Unknown (Example.at_ 310)) "x" 0 None [] None S);
    [vm_compute; lia | reflexivity | reflexivity | reflexivity | reflexivity
     | reflexivity | reflexivity | reflexivity].
Defined.

(** ** Binary expressions *)

(** Inversion of a successful run, all the way down to the calls. *)
Ltac unwind :=
  repeat match goal with
         | H : bind _ _ _ = Ok _ |- _ =>
             let x := fresh "x" in let S1 := fresh "S" in let H1 := fresh "Hcall" in
             apply bind_Ok in H; destruct H as (x & S1 & H1 & H)
         | H : ret _ _ = Ok _ |- _ => apply ret_Ok in H; destruct H as [? ?]; subst
         | H : get _ = Ok _ |- _ => apply get_Ok in H; destruct H as [? ?]; subst
         | H : abort _ _ = Ok _ |- _ => discriminate H
         | H : Error _ _ _ = Ok _ |- _ => unfold Error in H; apply modify_Ok in H; subst
         | H : when ?b _ _ = Ok _ |- _ => destruct b eqn:?; cbn [when] in H
         | H : (if ?b then _ else _) _ = Ok _ |- _ => destruct b eqn:?
         | H : (let _ := _ in _) _ = Ok _ |- _ => cbv zeta in H
         | H : (match ?x with _ => _ end) _ = Ok _ |- _ => destruct x eqn:?
         end.

Lemma Ptr_is_pointer evaluate size align (fuel : nat) elem S t S' :
  Ptr (Sema_AnalyseType evaluate size align fuel) elem S = Ok (t, S') ->
  Type_.is_pointer t = true.
Proof.
  unfold Ptr. intros H. destruct fuel as [|fuel]; [discriminate H|].
  rewrite Sema_AnalyseType_step in H. unfold AnalyseType_body in H.
  cbn [Type_.sema t_sema State_eqb negb Type_.set_sema] in H.
  inv_bind H as r S1 H1 H. inv_bind H1 as elem' S2 H2 H1.
  destruct (Type_.is_reference elem').
  - inv_bind H1 as u S3 H3 H1. inv_run H1. cbn in H. inv_run H. reflexivity.
  - inv_run H1. cbn in H. inv_run H. reflexivity.
Qed.





(** ** Intrinsics *)

Lemma on_argument_length (i : nat) f args S args' S' :
  on_argument i f args S = Ok (args', S') -> length args' = length args /\ i < length args.
Proof.
  unfold on_argument. intros H. destruct (args !! i) as [arg|] eqn:Hi; [|discriminate H].
  inv_bind H as arg' S1 H1 H. inv_run H. split; [apply length_insert|].
  eapply lookup_lt_Some. exact Hi.
Qed.

(** X19.  [__builtin_memcpy] and [__builtin_memset] called with fewer than
    three arguments, and [__builtin_inline] called without argument: the
    number of arguments is checked and reported, and the analysis goes on to
    read the arguments all the same.  It does not return. *)
Theorem intrinsic_with_missing_arguments
        (Analyse : Expr -> option Ty -> M Expr) evaluate size a kind args S :
  match kind with
  | BuiltinInline => length args < 1
  | BuiltinMemCopy | BuiltinMemSet => length args < 3
  | _ => False
  end ->
  forall r, AnalyseIntrinsicCall Analyse evaluate size (IntrinsicCallExpr a kind args) S <> Ok r.
Proof.
  intros Hfew [e' S'] H. unfold AnalyseIntrinsicCall in H.
  assert (Hmem : forall second message,
             length args < 3 ->
             analyse_memory_intrinsic Analyse evaluate size a kind second message args S
             <> Ok (e', S')).
  { intros second message Hlt Hrun. unfold analyse_memory_intrinsic in Hrun.
    inv_bind Hrun as u S0 H0 Hrun. inv_bind Hrun as args1 S1 H1 Hrun.
    inv_bind Hrun as args2 S2 H2 Hrun. inv_bind Hrun as args3 S3 H3 Hrun.
    inv_bind Hrun as args4 S4 H4 Hrun.
    apply mapM_length in H1.
    apply on_argument_length in H2, H3, H4. lia. }
  destruct kind; try contradiction Hfew.
  - inv_bind H as u S0 H0 H. destruct args; [discriminate H | cbn in Hfew; lia].
  - exact (Hmem _ _ Hfew H).
  - exact (Hmem _ _ Hfew H).
Qed.

(** [__builtin_memcpy()] does not return. *)
Lemma intrinsic_with_missing_arguments_witness :
  exists failure,
    AnalyseIntrinsicCall (Example.Analyse 4) Example.evaluate Example.size
      (IntrinsicCallExpr ExampleOperators.intrinsic_attrs BuiltinMemCopy []) Example.empty
    = Abort failure.
Proof.
  destruct (AnalyseIntrinsicCall (Example.Analyse 4) Example.evaluate Example.size
              (IntrinsicCallExpr ExampleOperators.intrinsic_attrs BuiltinMemCopy [])
              Example.empty) as [r|failure] eqn:E.
  - exfalso.
    apply (intrinsic_with_missing_arguments (Example.Analyse 4) Example.evaluate Example.size
             ExampleOperators.intrinsic_attrs BuiltinMemCopy [] Example.empty
             ltac:(cbn; lia) r E).
  - exists failure. reflexivity.
Defined.



(** ** The last expression of a function body *)

Lemma last_nonempty {A : Type} (l : list A) :
  l <> [] -> exists x, last l = Some x /\ l = removelast l ++ [x].
Proof.
  intros Hne. destruct (exists_last Hne) as (l' & x & ->).
  exists x. split; [apply last_snoc|]. now rewrite removelast_last.
Qed.

Lemma Discard_block Analyse a children S e' S' :
  Discard Analyse (BlockExpr a children) S = Ok (e', S') -> e' = BlockExpr a children.
Proof.
  intros H. unfold Discard in H. inv_bind H as S0 S0' Hg H. inv_run Hg.
  destruct (_ || _); [now inv_run H|].
  inv_bind H as u S1 H1 H. inv_run H1.
  inv_bind H as r S2 H2 H.
  assert (Hr : r = (false, BlockExpr a children)).
  { unfold Deproceduring in H2. inv_bind H2 as S0 S0' Hg H2. inv_run Hg.
    destruct (_ && _); [now inv_run H2|].
    cbn [is_Decl is_BlockExpr] in H2. now inv_run H2. }
  subst r. cbn [fst snd] in H.
  inv_bind H as S0 S0' Hg H. inv_run Hg. inv_bind H as u' S3 H3 H. now inv_run H.
Qed.



(** ** Relations that every step of the analyser keeps *)

Section Kept.

Variable R : Sema -> Sema -> Prop.
Hypothesis HR : kept_by_steps R.

Lemma keeps_ret {A : Type} (a : A) : keeps R (ret a).
Proof. intros S r S' H. inv_run H. apply (kept_refl R HR). Qed.

Lemma keeps_abort {A : Type} f : keeps R (abort f : M A).
Proof. intros S r S' H. discriminate H. Qed.

Lemma keeps_get : keeps R get.
Proof. intros S r S' H. inv_run H. apply (kept_refl R HR). Qed.

Lemma keeps_bind {A B : Type} (m : M A) (k : A -> M B) :
  keeps R m -> (forall a, keeps R (k a)) -> keeps R (bind m k).
Proof.
  intros Hm Hk S r S' H. inv_bind H as a S1 H1 H2.
  exact (kept_trans R HR _ _ _ (Hm _ _ _ H1) (Hk _ _ _ _ H2)).
Qed.

Lemma keeps_when b m : keeps R m -> keeps R (when b m).
Proof. intros Hm. destruct b; [exact Hm | apply keeps_ret]. Qed.

Lemma keeps_mapM {A B : Type} (f : A -> M B) l : (forall a, keeps R (f a)) -> keeps R (mapM f l).
Proof.
  intros Hf. induction l as [|a l IH]; cbn [mapM].
  - apply keeps_ret.
  - apply keeps_bind; [apply Hf|]. intros b.
    apply keeps_bind; [exact IH|]. intros bs. apply keeps_ret.
Qed.

Lemma keeps_Error l msg : keeps R (Error l msg).
Proof. intros S r S' H. unfold Error in H. inv_run H. apply (kept_error R HR). Qed.

Lemma keeps_Warning l msg : keeps R (Warning l msg).
Proof. intros S r S' H. unfold Warning in H. inv_run H. apply (kept_warning R HR). Qed.

Lemma keeps_Note l msg : keeps R (Note l msg).
Proof. intros S r S' H. unfold Note in H. inv_run H. apply (kept_note R HR). Qed.

Lemma harmless_map_decl_attrs g : harmless (map_decl_attrs g).
Proof. intros d. repeat split. Qed.

Lemma harmless_set_init i : harmless (set_init i).
Proof. intros d. repeat split. Qed.

Lemma harmless_set_dangling (g : DeclObj -> list nat) :
  harmless (fun d => set_dangling (g d) d).
Proof. intros d. repeat split. Qed.

Lemma keeps_map_decl f addr : harmless f -> keeps R (modify (map_decl f addr)).
Proof. intros Hf S r S' H. inv_run H. now apply (kept_decl R HR). Qed.

Lemma keeps_update g e : keeps R (update g e).
Proof.
  destruct e; try apply keeps_ret. cbn [update].
  apply keeps_bind; [|intros; apply keeps_ret].
  apply keeps_map_decl, harmless_map_decl_attrs.
Qed.

Lemma keeps_set_type t e : keeps R (set_type t e).
Proof. apply keeps_update. Qed.

Lemma keeps_set_lvalue b e : keeps R (set_lvalue b e).
Proof. apply keeps_update. Qed.

Lemma keeps_set_sema_errored e : keeps R (set_sema_errored e).
Proof. apply keeps_update. Qed.

Lemma keeps_set_sema_done e : keeps R (set_sema_done e).
Proof. apply keeps_update. Qed.

Lemma keeps_set_sema_in_progress e : keeps R (set_sema_in_progress e).
Proof. apply keeps_update. Qed.

Lemma keeps_set_sema_no_longer_viable e : keeps R (set_sema_no_longer_viable e).
Proof. apply keeps_update. Qed.

Lemma keeps_set_init i v : keeps R (modify (map_decl (set_init i) v)).
Proof. apply keeps_map_decl, harmless_set_init. Qed.

Lemma keeps_erase_dangling target : keeps R (erase_dangling target).
Proof.
  intros S r S' H. unfold erase_dangling in H. inv_run H.
  apply (kept_decl R HR).
  exact (harmless_set_dangling
           (fun d => List.filter (fun a => negb (same_pointer target a)) (dangling_dynarrays d))).
Qed.

Lemma keeps_push_dangling v : keeps R (push_dangling v).
Proof.
  intros S r S' H. unfold push_dangling in H. inv_run H.
  apply (kept_decl R HR). exact (harmless_set_dangling (fun d => dangling_dynarrays d ++ [v])).
Qed.

Lemma keeps_as_int r : keeps R (as_int r).
Proof. destruct r; first [apply keeps_ret | apply keeps_abort]. Qed.

Lemma keeps_declare scope name decl : keeps R (declare scope name decl).
Proof.
  intros S r S' H. unfold declare in H. inv_bind H as S0 S0' Hg H. inv_run Hg.
  destruct (_ && _); [inv_run H; apply (kept_refl R HR)|].
  inv_bind H as u S1 H1 H. inv_run H. inv_run H1. apply (kept_declare R HR).
Qed.

Lemma keeps_retype_enumerators e enumerators : keeps R (retype_enumerators e enumerators).
Proof.
  intros S r S' H. unfold retype_enumerators in H. inv_run H.
  revert S. induction enumerators as [|val rest IH]; intros S; cbn [fold_left].
  - apply (kept_refl R HR).
  - eapply (kept_trans R HR); [|apply IH].
    destruct (Type_.is_enum (type_of S (Decl val))); [|apply (kept_refl R HR)].
    apply (kept_decl R HR), harmless_map_decl_attrs.
Qed.

Create HintDb keeps discriminated.

#[local] Hint Resolve
  keeps_ret keeps_abort keeps_get keeps_Error keeps_Warning keeps_Note
  keeps_set_type keeps_set_lvalue keeps_set_sema_errored keeps_set_sema_done
  keeps_set_sema_in_progress keeps_set_sema_no_longer_viable keeps_set_init
  keeps_erase_dangling keeps_push_dangling keeps_as_int keeps_declare
  keeps_retype_enumerators : keeps.

Ltac keeps_step :=
  lazymatch goal with
  | |- keeps _ (bind _ _) => apply keeps_bind; [|intros ?]
  | |- keeps _ (when _ _) => apply keeps_when
  | |- keeps _ (mapM _ _) => apply keeps_mapM; intros ?
  | |- keeps _ (if ?b then _ else _) => destruct b
  | |- keeps _ (match ?x with _ => _ end) => destruct x
  | |- keeps _ (let _ := _ in _) => cbv zeta
  | |- keeps _ _ => solve [auto with keeps]
  end.

Ltac keeps_steps := repeat keeps_step.

Section Calls.

Variable Analyse : Expr -> option Ty -> M Expr.
Variable AnalyseType : Ty -> M Ty.
Variable evaluate : Sema -> Expr -> option EvalResult.
Variable size : Ty -> N.
Variable align : Ty -> N.

Hypothesis Analyse_keeps : forall e t, keeps R (Analyse e t).
Hypothesis AnalyseType_keeps : forall t, keeps R (AnalyseType t).

#[local] Hint Resolve Analyse_keeps AnalyseType_keeps : keeps.

Lemma keeps_WrapWithCast e t k : keeps R (WrapWithCast Analyse e t k).
Proof. unfold WrapWithCast. keeps_steps. Qed.
#[local] Hint Resolve keeps_WrapWithCast : keeps.

Lemma keeps_InsertImplicitCast e t : keeps R (InsertImplicitCast Analyse e t).
Proof. unfold InsertImplicitCast. keeps_steps. Qed.
#[local] Hint Resolve keeps_InsertImplicitCast : keeps.

Lemma keeps_InsertPointerToIntegerCast e : keeps R (InsertPointerToIntegerCast Analyse e).
Proof. unfold InsertPointerToIntegerCast. keeps_steps. Qed.
#[local] Hint Resolve keeps_InsertPointerToIntegerCast : keeps.

Lemma keeps_LValueToRValue_rounds rounds :
  forall e strip_ref, keeps R (LValueToRValue_rounds Analyse rounds e strip_ref).
Proof.
  induction rounds as [|rounds IH]; intros e strip_ref; cbn [LValueToRValue_rounds];
    keeps_steps.
Qed.
#[local] Hint Resolve keeps_LValueToRValue_rounds : keeps.

Lemma keeps_LValueToRValue e strip_ref : keeps R (LValueToRValue Analyse e strip_ref).
Proof. unfold LValueToRValue. keeps_steps. Qed.
#[local] Hint Resolve keeps_LValueToRValue : keeps.

Lemma keeps_Deproceduring e : keeps R (Deproceduring Analyse e).
Proof. unfold Deproceduring. keeps_steps. Qed.
#[local] Hint Resolve keeps_Deproceduring : keeps.

Lemma keeps_ConvertImpl p e to : keeps R (ConvertImpl Analyse evaluate size p e to).
Proof. unfold ConvertImpl. keeps_steps. Qed.
#[local] Hint Resolve keeps_ConvertImpl : keeps.

Lemma keeps_Convert e to : keeps R (Convert Analyse evaluate size e to).
Proof. unfold Convert. keeps_steps. Qed.
#[local] Hint Resolve keeps_Convert : keeps.

Lemma keeps_ConvertOrError e to : keeps R (ConvertOrError Analyse evaluate size e to).
Proof. unfold ConvertOrError. keeps_steps. Qed.
#[local] Hint Resolve keeps_ConvertOrError : keeps.

Lemma keeps_ConvertToCommonType a b : keeps R (ConvertToCommonType Analyse evaluate size a b).
Proof. unfold ConvertToCommonType. keeps_steps. Qed.
#[local] Hint Resolve keeps_ConvertToCommonType : keeps.

Lemma keeps_Ptr t : keeps R (Ptr AnalyseType t).
Proof. unfold Ptr. keeps_steps. Qed.
#[local] Hint Resolve keeps_Ptr : keeps.

Lemma keeps_DeclTypeDecay t : keeps R (DeclTypeDecay AnalyseType t).
Proof. unfold DeclTypeDecay. keeps_steps. Qed.
#[local] Hint Resolve keeps_DeclTypeDecay : keeps.

Lemma keeps_callee_type S callee : keeps R (callee_type S callee).
Proof. unfold callee_type. keeps_steps. Qed.
#[local] Hint Resolve keeps_callee_type : keeps.

Lemma keeps_Discard e : keeps R (Discard Analyse e).
Proof. unfold Discard. keeps_steps. Qed.
#[local] Hint Resolve keeps_Discard : keeps.

Lemma keeps_AnalyseAndDiscard e : keeps R (AnalyseAndDiscard Analyse e).
Proof. unfold AnalyseAndDiscard. keeps_steps. Qed.
#[local] Hint Resolve keeps_AnalyseAndDiscard : keeps.

Lemma keeps_AnalyseCast c : keeps R (AnalyseCast Analyse evaluate size c).
Proof. unfold AnalyseCast. keeps_steps. Qed.
#[local] Hint Resolve keeps_AnalyseCast : keeps.

Lemma keeps_AnalyseUnary u : keeps R (AnalyseUnary Analyse AnalyseType u).
Proof. unfold AnalyseUnary. keeps_steps. Qed.
#[local] Hint Resolve keeps_AnalyseUnary : keeps.

Lemma keeps_closest_declaration S name decls :
  forall d n, keeps R (closest_declaration S name decls d n).
Proof.
  induction decls as [|decl decls IH]; intros d n; cbn [closest_declaration]; keeps_steps.
Qed.
#[local] Hint Resolve keeps_closest_declaration : keeps.

Lemma keeps_AnalyseNameRef e : keeps R (AnalyseNameRef Analyse e).
Proof. unfold AnalyseNameRef. keeps_steps. Qed.
#[local] Hint Resolve keeps_AnalyseNameRef : keeps.

Lemma keeps_convert_arguments args :
  forall params, keeps R (convert_arguments Analyse evaluate size args params).
Proof.
  induction args as [|arg args IH]; intros params; cbn [convert_arguments]; keeps_steps.
Qed.
#[local] Hint Resolve keeps_convert_arguments : keeps.

Lemma keeps_AnalyseCall e : keeps R (AnalyseCall Analyse evaluate size e).
Proof. unfold AnalyseCall. keeps_steps. Qed.
#[local] Hint Resolve keeps_AnalyseCall : keeps.

Lemma keeps_analyse_loop a condition body :
  keeps R (analyse_loop Analyse evaluate size a condition body).
Proof. unfold analyse_loop. keeps_steps. Qed.
#[local] Hint Resolve keeps_analyse_loop : keeps.

Lemma keeps_analyse_children children :
  forall a t, keeps R (analyse_children Analyse a children t).
Proof.
  induction children as [|child rest IH]; intros a t; cbn [analyse_children]; keeps_steps.
Qed.
#[local] Hint Resolve keeps_analyse_children : keeps.

Lemma keeps_analyse_optional e t : keeps R (analyse_optional Analyse e t).
Proof. unfold analyse_optional. keeps_steps. Qed.
#[local] Hint Resolve keeps_analyse_optional : keeps.

Lemma keeps_AnalyseReturn a value : keeps R (AnalyseReturn Analyse evaluate size a value).
Proof. unfold AnalyseReturn. keeps_steps. Qed.
#[local] Hint Resolve keeps_AnalyseReturn : keeps.

Lemma keeps_AnalyseIf a condition then_ otherwise :
  keeps R (AnalyseIf Analyse evaluate size a condition then_ otherwise).
Proof. unfold AnalyseIf. keeps_steps. Qed.
#[local] Hint Resolve keeps_AnalyseIf : keeps.

Lemma keeps_AnalyseBlock a children t : keeps R (AnalyseBlock Analyse a children t).
Proof. unfold AnalyseBlock. keeps_steps. Qed.
#[local] Hint Resolve keeps_AnalyseBlock : keeps.

Lemma keeps_analyse_declared_variable v :
  keeps R (analyse_declared_variable Analyse AnalyseType evaluate size v).
Proof. unfold analyse_declared_variable. keeps_steps. Qed.
#[local] Hint Resolve keeps_analyse_declared_variable : keeps.

Lemma keeps_AnalyseVarDecl v : keeps R (AnalyseVarDecl Analyse AnalyseType evaluate size v).
Proof. unfold AnalyseVarDecl. keeps_steps. Qed.
#[local] Hint Resolve keeps_AnalyseVarDecl : keeps.

(** The cases of overload sets, binary expressions, intrinsics, compound
    literals and member accesses. *)

Lemma keeps_validate_against oi later : forall a, keeps R (validate_against oi later a).
Proof. induction later as [|oj later IH]; intros a; cbn [validate_against]; keeps_steps. Qed.
#[local] Hint Resolve keeps_validate_against : keeps.

Lemma keeps_validate_overloads os : forall a, keeps R (validate_overloads os a).
Proof. induction os as [|oi later IH]; intros a; cbn [validate_overloads]; keeps_steps. Qed.
#[local] Hint Resolve keeps_validate_overloads : keeps.

Lemma keeps_AnalyseOverloadSet e : keeps R (AnalyseOverloadSet e).
Proof. unfold AnalyseOverloadSet. keeps_steps. Qed.
#[local] Hint Resolve keeps_AnalyseOverloadSet : keeps.

Lemma keeps_ImplicitDe_Reference e : keeps R (ImplicitDe_Reference Analyse e).
Proof. unfold ImplicitDe_Reference. keeps_steps. Qed.
#[local] Hint Resolve keeps_ImplicitDe_Reference : keeps.

Lemma keeps_AnalyseBinary b : keeps R (AnalyseBinary Analyse AnalyseType evaluate size b).
Proof. unfold AnalyseBinary. keeps_steps. Qed.
#[local] Hint Resolve keeps_AnalyseBinary : keeps.

Lemma keeps_on_argument i f args :
  (forall arg, keeps R (f arg)) -> keeps R (on_argument i f args).
Proof. intros Hf. unfold on_argument. keeps_steps. Qed.

Lemma keeps_AnalyseIntrinsicCall e :
  keeps R (AnalyseIntrinsicCall Analyse evaluate size e).
Proof.
  unfold AnalyseIntrinsicCall, analyse_memory_intrinsic.
  repeat first [ apply keeps_on_argument; intros ? | keeps_step ].
Qed.
#[local] Hint Resolve keeps_AnalyseIntrinsicCall : keeps.

Lemma keeps_dereference_pointers rounds :
  forall e, keeps R (dereference_pointers Analyse rounds e).
Proof.
  induction rounds as [|rounds IH]; intros e; cbn [dereference_pointers]; keeps_steps.
Qed.
#[local] Hint Resolve keeps_dereference_pointers : keeps.

Lemma keeps_ImplicitDereference e : keeps R (ImplicitDereference Analyse e).
Proof. unfold ImplicitDereference. keeps_steps. Qed.
#[local] Hint Resolve keeps_ImplicitDereference : keeps.

Lemma keeps_analyse_values values : forall a, keeps R (analyse_values Analyse a values).
Proof.
  induction values as [|child rest IH]; intros a; cbn [analyse_values]; keeps_steps.
Qed.
#[local] Hint Resolve keeps_analyse_values : keeps.

Lemma keeps_AnalyseCompoundLiteral e t :
  keeps R (AnalyseCompoundLiteral Analyse AnalyseType e t).
Proof. unfold AnalyseCompoundLiteral. keeps_steps. Qed.
#[local] Hint Resolve keeps_AnalyseCompoundLiteral : keeps.

Lemma keeps_enumerator_value S en : keeps R (enumerator_value S en).
Proof. unfold enumerator_value. keeps_steps. Qed.
#[local] Hint Resolve keeps_enumerator_value : keeps.

Lemma keeps_AnalyseMemberAccess e : keeps R (AnalyseMemberAccess Analyse e).
Proof. unfold AnalyseMemberAccess. keeps_steps. Qed.
#[local] Hint Resolve keeps_AnalyseMemberAccess : keeps.

Lemma keeps_Analyse_kind e t :
  keeps R (Analyse_kind Analyse AnalyseType evaluate size align e t).
Proof. unfold Analyse_kind. keeps_steps. Qed.
#[local] Hint Resolve keeps_Analyse_kind : keeps.

Lemma keeps_Analyse_body e t :
  keeps R (Analyse_body Analyse AnalyseType evaluate size align e t).
Proof. unfold Analyse_body. keeps_steps. Qed.

Lemma keeps_resolve_named depth :
  forall st name scope, keeps R (resolve_named Analyse depth st name scope).
Proof.
  induction depth as [|depth IH]; intros st name scope; cbn [resolve_named]; keeps_steps.
Qed.
#[local] Hint Resolve keeps_resolve_named : keeps.

Lemma keeps_analyse_params params : keeps R (analyse_params AnalyseType params).
Proof. induction params as [|[[name type] l] params IH]; cbn [analyse_params]; keeps_steps. Qed.
#[local] Hint Resolve keeps_analyse_params : keeps.

Lemma keeps_finalise_members members :
  forall is_errored byte_size alignment,
    keeps R (finalise_members AnalyseType size align members is_errored byte_size alignment).
Proof.
  induction members as [|[[name type] off] members IH]; intros is_errored byte_size alignment;
    cbn [finalise_members]; keeps_steps.
Qed.
#[local] Hint Resolve keeps_finalise_members : keeps.

Lemma keeps_AnalyseStruct st members :
  keeps R (AnalyseStruct AnalyseType size align st members).
Proof. unfold AnalyseStruct. keeps_steps. Qed.
#[local] Hint Resolve keeps_AnalyseStruct : keeps.

Lemma keeps_finalise_union_members members :
  forall is_errored byte_size alignment,
    keeps R (finalise_union_members AnalyseType size align members
                                    is_errored byte_size alignment).
Proof.
  induction members as [|[name type] members IH]; intros is_errored byte_size alignment;
    cbn [finalise_union_members]; keeps_steps.
Qed.
#[local] Hint Resolve keeps_finalise_union_members : keeps.

Lemma keeps_assign_enumerator_values e underlying info enumerators :
  forall next_val,
    keeps R (assign_enumerator_values Analyse evaluate size e underlying info
                                      enumerators next_val).
Proof.
  induction enumerators as [|val rest IH]; intros next_val;
    cbn [assign_enumerator_values]; keeps_steps.
Qed.
#[local] Hint Resolve keeps_assign_enumerator_values : keeps.

Lemma keeps_AnalyseEnum st underlying enumerators info :
  keeps R (AnalyseEnum Analyse AnalyseType evaluate size st underlying enumerators info).
Proof. unfold AnalyseEnum. keeps_steps. Qed.
#[local] Hint Resolve keeps_AnalyseEnum : keeps.

Lemma keeps_AnalyseType_body t :
  keeps R (AnalyseType_body Analyse AnalyseType evaluate size align t).
Proof. unfold AnalyseType_body. keeps_steps. Qed.

End Calls.

(** Every successful run of the analyser keeps such a relation. *)
Lemma Sema_Analyse_keeps evaluate size align fuel :
  (forall e t, keeps R (Sema_Analyse evaluate size align fuel e t))
  /\ (forall t, keeps R (Sema_AnalyseType evaluate size align fuel t)).
Proof.
  induction fuel as [|fuel [IHe IHt]].
  - split; intros; apply keeps_abort.
  - split.
    + intros e t. cbn [Sema_Analyse]. now apply keeps_Analyse_body.
    + intros t. cbn [Sema_AnalyseType]. now apply keeps_AnalyseType_body.
Qed.

End Kept.

Lemma flag_follows_errors_kept : kept_by_steps flag_follows_errors.
Proof.
  assert (Hsame : forall S S', diags S' = diags S -> error_flag S' = error_flag S ->
                               flag_follows_errors S S').
  { intros S S' Hd Hf. exists []. rewrite app_nil_r, orb_false_r. now split. }
  split.
  - intros S. now apply Hsame.
  - intros S1 S2 S3 (l1 & D1 & F1) (l2 & D2 & F2). exists (l1 ++ l2).
    rewrite D2, D1, F2, F1, existsb_app, app_assoc, orb_assoc. now split.
  - intros l m S. exists [{| kind := DError; where_ := l; msg := m |}]. now split.
  - intros l m S. exists [{| kind := DWarning; where_ := l; msg := m |}]. now split.
  - intros l m S. exists [{| kind := DNote; where_ := l; msg := m |}]. now split.
  - intros f addr S _. now apply Hsame.
  - intros scope name decl S. now apply Hsame.
Qed.

Lemma same_declarations_kept : kept_by_steps same_declarations.
Proof.
  assert (Hsame : forall S S',
             imports S' = imports S -> functions S' = functions S ->
             include_directories S' = include_directories S ->
             top_level_scope S' = top_level_scope S ->
             arena S' = arena S -> same_declarations S S').
  { intros S S' Hi Hf Hd Ht Ha. unfold same_declarations, decl_at. rewrite Ha.
    repeat split; auto. }
  split.
  - intros S. now apply Hsame.
  - intros S1 S2 S3 (I1 & F1 & D1 & T1 & L1 & K1) (I2 & F2 & D2 & T2 & L2 & K2).
    split; [congruence|]. split; [congruence|]. split; [congruence|]. split; [congruence|].
    split; [lia|]. intros v. destruct (K1 v) as (A1 & B1 & C1 & E1).
    destruct (K2 v) as (A2 & B2 & C2 & E2). repeat split; congruence.
  - intros l m S. now apply Hsame.
  - intros l m S. now apply Hsame.
  - intros l m S. now apply Hsame.
  - intros f addr S Hf. repeat split; try reflexivity.
    + now rewrite length_map_decl.
    + destruct (decl_at_map_decl f addr S v) as [->|[-> ->]]; [reflexivity | apply Hf].
    + destruct (decl_at_map_decl f addr S v) as [->|[-> ->]]; [reflexivity | apply Hf].
    + destruct (decl_at_map_decl f addr S v) as [->|[-> ->]]; [reflexivity | apply Hf].
    + destruct (decl_at_map_decl f addr S v) as [->|[-> ->]]; [reflexivity | apply Hf].
  - intros scope name decl S. now apply Hsame.
Qed.

Lemma scopes_grow_kept : kept_by_steps scopes_grow.
Proof.
  assert (Hsame : forall S S', scopes S' = scopes S -> scopes_grow S S').
  { intros S S' Hs. unfold scopes_grow, scope_at. rewrite Hs. split; [reflexivity|].
    intros i. split; [reflexivity|]. exists []. now rewrite app_nil_r. }
  split.
  - intros S. now apply Hsame.
  - intros S1 S2 S3 (L1 & G1) (L2 & G2). split; [congruence|].
    intros i. destruct (G1 i) as (P1 & d1 & Y1). destruct (G2 i) as (P2 & d2 & Y2).
    split; [congruence|]. exists (d1 ++ d2). now rewrite Y2, Y1, app_assoc.
  - intros l m S. now apply Hsame.
  - intros l m S. now apply Hsame.
  - intros l m S. now apply Hsame.
  - intros f addr S _. now apply Hsame.
  - intros scope name decl S. split; [apply length_insert|]. intros i.
    set (new := {| parent := parent (scope_at S scope);
                   symbols := symbols (scope_at S scope) ++ [(name, decl)] |}).
    assert (Hat : scope_at (set_scopes (<[scope := new]> (scopes S)) S) i = scope_at S i
                  \/ (i = scope
                      /\ scope_at (set_scopes (<[scope := new]> (scopes S)) S) i = new)).
    { unfold scope_at. cbn [scopes set_scopes]. destruct (decide (scope = i)) as [<-|Hne].
      - destruct (Nat.lt_ge_cases scope (length (scopes S))) as [Hlt|Hge].
        + right. split; [reflexivity|]. now rewrite list_lookup_insert_eq.
        + left. now rewrite list_insert_ge.
      - left. now rewrite list_lookup_insert_ne. }
    destruct Hat as [->|[-> ->]].
    + split; [reflexivity|]. exists []. now rewrite app_nil_r.
    + cbn. split; [reflexivity|]. now exists [(name, decl)].
Qed.







(** ** The signature of a function *)



(** ** Blocks *)

Lemma analyse_children_length Analyse children :
  forall a t S r S',
    analyse_children Analyse a children t S = Ok (r, S') ->
    length (snd r) = length children
    /\ (sema a = Errored -> sema (fst r) = Errored)
    /\ (sema (fst r) <> Errored -> fst r = a).
Proof.
  induction children as [|child rest IH]; intros a t S r S' H; cbn [analyse_children] in H.
  - inv_run H. cbn. auto.
  - inv_bind H as child1 S1 H1 H. inv_bind H as S0 S0' Hg H. inv_run Hg.
    inv_bind H as child2 S2 H2 H. inv_bind H as r0 S3 H3 H. inv_run H.
    destruct (IH _ _ _ _ _ H3) as (Hlen & Herr & Hsame). cbn [fst snd length].
    split; [now rewrite Hlen|].
    revert Herr Hsame. destruct (negb (ok S1 child1)); intros Herr Hsame; split; auto.
    intros Hne. exfalso. apply Hne, Herr. reflexivity.
Qed.


